(** * Campaign execution engine: direct path, queue path and dispatch

    A shallow embedding of
      - src/src/models/Campaign.ts          (schema, pre-save hook),
      - src/src/controllers/leads.controller.ts
          (processCampaignDirectly, startCampaign, pauseCampaign),
      - src/src/queues/campaign.queue.ts    ('start-campaign' and
          'process-contact' job handlers, default job options),
    with the campaign collection as a finite map from document ids to
    documents, thrown exceptions as an explicit [Throw] result, and
    everything the outside world does while a handler is suspended at an
    [await] (gateway answers, store faults, pause requests) scripted by
    an environment record.  The pacing delays between contacts and
    between channels are not modelled. *)

From Stdlib Require Import Ascii.
From stdpp Require Import base strings list gmap pretty.

Set Default Proof Using "Type".

(** ** Data model (models/Campaign.ts) *)

(** 'sms' | 'email' | 'call': the enum of [results.methods.method]. *)
Inductive Channel := sms | email | call.

(** 'sms' | 'email' | 'call' | 'all': the enum of [type]. *)
Inductive CampaignType := OneOf (m : Channel) | All.

Inductive CampaignStatus := draft | running | paused | completed.

Module Method.
(** status of one channel attempt *)
Inductive status := pending | sent | failed | delivered.
End Method.

Module Overall.
(** overallStatus of one contact's result *)
Inductive status := pending | partial | success | failed.
End Overall.

Record IContact := {
  name : string;
  phone : option string;
  mail : option string      (* the schema's [email] path *)
}.

Record IMessageTemplate := {
  subject : option string;
  body : string;
  isHtml : option bool
}.

(** Timestamps ([new Date()]) are wall-clock readings and are left out of
    the records; nothing below depends on them. *)
Record IMethodResult := {
  method : Channel;
  mstatus : Method.status;
  response : option string;
  error : option string
}.

Record ICampaignResult := {
  contactId : string;
  contactName : string;
  methods : list IMethodResult;
  overallStatus : Overall.status
}.

Record ICampaign := {
  userId : string;
  campaignName : string;
  type : CampaignType;
  status : CampaignStatus;
  contacts : list IContact;
  messageTemplate : IMessageTemplate;
  results : list ICampaignResult;
  totalContacts : nat;
  successCount : nat;
  failureCount : nat
}.

(** The two voice-call settings the job handler inspects. *)
Record ISettings := {
  dynamicInstruction : string;
  apiKey : string
}.

Global Instance Channel_eq_dec : EqDecision Channel.
Proof. solve_decision. Defined.
Global Instance CampaignType_eq_dec : EqDecision CampaignType.
Proof. solve_decision. Defined.
Global Instance CampaignStatus_eq_dec : EqDecision CampaignStatus.
Proof. solve_decision. Defined.
Global Instance MethodStatus_eq_dec : EqDecision Method.status.
Proof. solve_decision. Defined.
Global Instance OverallStatus_eq_dec : EqDecision Overall.status.
Proof. solve_decision. Defined.

(** Field assignments on a campaign document. *)
Definition setStatus (s : CampaignStatus) (c : ICampaign) : ICampaign :=
  {| userId := userId c; campaignName := campaignName c; type := type c;
     status := s; contacts := contacts c;
     messageTemplate := messageTemplate c; results := results c;
     totalContacts := totalContacts c; successCount := successCount c;
     failureCount := failureCount c |}.

Definition setResults (rs : list ICampaignResult) (c : ICampaign) : ICampaign :=
  {| userId := userId c; campaignName := campaignName c; type := type c;
     status := status c; contacts := contacts c;
     messageTemplate := messageTemplate c; results := rs;
     totalContacts := totalContacts c; successCount := successCount c;
     failureCount := failureCount c |}.

Definition setTotalContacts (n : nat) (c : ICampaign) : ICampaign :=
  {| userId := userId c; campaignName := campaignName c; type := type c;
     status := status c; contacts := contacts c;
     messageTemplate := messageTemplate c; results := results c;
     totalContacts := n; successCount := successCount c;
     failureCount := failureCount c |}.

Definition setSuccessCount (n : nat) (c : ICampaign) : ICampaign :=
  {| userId := userId c; campaignName := campaignName c; type := type c;
     status := status c; contacts := contacts c;
     messageTemplate := messageTemplate c; results := results c;
     totalContacts := totalContacts c; successCount := n;
     failureCount := failureCount c |}.

Definition setFailureCount (n : nat) (c : ICampaign) : ICampaign :=
  {| userId := userId c; campaignName := campaignName c; type := type c;
     status := status c; contacts := contacts c;
     messageTemplate := messageTemplate c; results := results c;
     totalContacts := totalContacts c; successCount := successCount c;
     failureCount := n |}.

(** ** Exceptions *)

Inductive Result (A : Type) :=
  | Ok (a : A)
  | Throw (message : string).
Arguments Ok {A} a.
Arguments Throw {A} message.

(** ** The environment of a run

    Every store operation of a handler is an [await] that may reject; a
    [Site] names the operation, [storeFails] says whether it rejects.
    The gateway primitives take the index of the contact they are called
    for and their arguments, and answer with the rendered response
    ([None] when the response is falsy) or throw.  [pauseBefore i] says
    that a pause request is served while the run is suspended before its
    status re-read for contact [i]. *)

Inductive Site :=
  | Load | Reread (i : nat) | SaveContact (i : nat) | SaveFinal
  | RecoverLoad | RecoverSave
  | StartFind | StartSave
  | JobStartLoad | JobStartSave | JobLoad (i : nat) | JobSave (i : nat).

Record Env := {
  sendSMS : nat -> string -> string -> Result (option string);
  sendEmail : nat -> string -> string -> string -> bool -> Result (option string);
  makeOutboundCall : nat -> string -> string -> ISettings -> Result (option string);
  findSettings : string -> Result (option ISettings);
  storeFails : Site -> bool;
  pauseBefore : nat -> bool
}.

(** ** The campaign collection and in-memory documents *)

Abbreviation Store := (gmap string ICampaign).

(** A Mongoose document in memory: its id, its current field values and
    whether [status] was assigned since it was loaded or saved. *)
Record Doc := {
  docId : string;
  fields : ICampaign;
  statusModified : bool
}.

Definition assignStatus (s : CampaignStatus) (d : Doc) : Doc :=
  {| docId := docId d; fields := setStatus s (fields d); statusModified := true |}.

Definition update (f : ICampaign -> ICampaign) (d : Doc) : Doc :=
  {| docId := docId d; fields := f (fields d); statusModified := statusModified d |}.

(** [Campaign.findById(id)].  The ids of the model are those of stored
    documents and, for a lookup that finds nothing, other well-formed
    ObjectIds; a string that does not cast to an ObjectId, which
    Mongoose rejects before it queries, is outside the model. *)
Definition findById (fails : bool) (id : string) (σ : Store) : Result (option Doc) :=
  if fails then Throw "store unavailable"
  else Ok ((λ c, {| docId := id; fields := c; statusModified := false |}) <$> σ !! id).

(** [Campaign.findOne({ _id, userId })] *)
Definition findOne (fails : bool) (id uid : string) (σ : Store) : Result (option Doc) :=
  if fails then Throw "store unavailable"
  else Ok (match σ !! id with
           | Some c =>
               if bool_decide (userId c = uid)
               then Some {| docId := id; fields := c; statusModified := false |}
               else None
           | None => None
           end).

(** The pre-save hook: [this.totalContacts = this.contacts.length]. *)
Definition preSave (c : ICampaign) : ICampaign :=
  setTotalContacts (length (contacts c)) c.

(** What a save writes into the stored document [p]: the paths the
    handlers below modify.  [status] is written only when it was
    assigned; [results], the two counters and [totalContacts] are written
    from memory (no other writer of these paths is modelled, so writing
    them when unchanged stores the value already there). *)
Definition written (d : Doc) (p : ICampaign) : ICampaign :=
  let f := preSave (fields d) in
  setStatus (if statusModified d then status f else status p)
    (setResults (results f)
       (setSuccessCount (successCount f)
          (setFailureCount (failureCount f)
             (setTotalContacts (totalContacts f) p)))).

(** [doc.save()]: rejects when the store is unavailable or the document
    is gone; otherwise runs the hook, writes and clears the change
    tracking. *)
Definition save (fails : bool) (d : Doc) (σ : Store) : Result Doc * Store :=
  if fails then (Throw "store unavailable", σ)
  else match σ !! docId d with
       | None => (Throw "No document found", σ)
       | Some p =>
           (Ok {| docId := docId d; fields := preSave (fields d);
                  statusModified := false |},
            <[docId d := written d p]> σ)
       end.

(** ** HTTP handlers: pauseCampaign *)

Record Response := {
  code : nat;
  success : bool;
  message : string
}.

(** controllers: pauseCampaign.  Pause requests are modelled without
    store faults of their own. *)
Definition pauseCampaign (id uid : string) (σ : Store) : Response * Store :=
  match findOne false id uid σ with
  | Throw m => ({| code := 500; success := false; message := m |}, σ)
  | Ok None => ({| code := 404; success := false; message := "Campaign not found" |}, σ)
  | Ok (Some d) =>
      match status (fields d) with
      | running =>
          match save false (assignStatus paused d) σ with
          | (Ok _, σ') =>
              ({| code := 200; success := true;
                  message := "Campaign paused successfully" |}, σ')
          | (Throw m, σ') => ({| code := 500; success := false; message := m |}, σ')
          end
      | _ => ({| code := 400; success := false; message := "Campaign is not running" |}, σ)
      end
  end.

(** The same handler with its two store operations allowed to reject:
    a rejection leaves the handler as an exception, which the route's
    wrapper passes on. *)
Definition pauseCampaignWith (findFails saveFails : bool) (id uid : string)
    (σ : Store) : Result Response * Store :=
  match findOne findFails id uid σ with
  | Throw m => (Throw m, σ)
  | Ok None =>
      (Ok {| code := 404; success := false; message := "Campaign not found" |}, σ)
  | Ok (Some d) =>
      match status (fields d) with
      | running =>
          match save saveFails (assignStatus paused d) σ with
          | (Ok _, σ') =>
              (Ok {| code := 200; success := true;
                     message := "Campaign paused successfully" |}, σ')
          | (Throw m, σ') => (Throw m, σ')
          end
      | _ =>
          (Ok {| code := 400; success := false; message := "Campaign is not running" |},
           σ)
      end
  end.

(** What the world does to the store while the run waits before its
    status re-read for contact [i]. *)
Definition served (env : Env) (id uid : string) (i : nat) (σ : Store) : Store :=
  if pauseBefore env i then (pauseCampaign id uid σ).2 else σ.

(** ** The direct path (controllers: processCampaignDirectly) *)

(** JavaScript truthiness of an optional string: [undefined] and the
    empty string are falsy. *)
Definition truthy (s : option string) : option string :=
  match s with
  | Some "" => None
  | Some v => Some v
  | None => None
  end.

(** [campaign.type === 'all' ? ['sms','email','call'] : [campaign.type]] *)
Definition methodsToExecute (t : CampaignType) : list Channel :=
  match t with
  | All => [sms; email; call]
  | OneOf m => [m]
  end.

(** The [switch (method)] inside the per-method [try]. *)
Definition attempt (env : Env) (settings : option ISettings)
    (tmpl : IMessageTemplate) (i : nat) (contact : IContact) (m : Channel)
    : Result (option string) :=
  match m with
  | sms =>
      match truthy (phone contact) with
      | None => Throw "Phone number required for SMS"
      | Some number => sendSMS env i (body tmpl) number
      end
  | email =>
      match truthy (mail contact) with
      | None => Throw "Email required for email"
      | Some recipient =>
          sendEmail env i (default "Message" (truthy (subject tmpl))) (body tmpl)
            recipient (default false (isHtml tmpl))
      end
  | call =>
      match truthy (phone contact) with
      | None => Throw "Phone number required for call"
      | Some number =>
          match settings with
          | None => Throw "Settings not configured for calls"
          | Some s => makeOutboundCall env i number (name contact) s
          end
      end
  end.

(** One turn of [for (const method of methodsToExecute)]: the state is
    [(methods, successfulMethods, failedMethods)]. *)
Definition executeMethod (env : Env) (settings : option ISettings)
    (tmpl : IMessageTemplate) (i : nat) (contact : IContact)
    (acc : list IMethodResult * nat * nat) (m : Channel)
    : list IMethodResult * nat * nat :=
  let '(ms, successfulMethods, failedMethods) := acc in
  match attempt env settings tmpl i contact m with
  | Ok r =>
      (ms ++ [{| method := m; mstatus := Method.sent; response := r; error := None |}],
       S successfulMethods, failedMethods)
  | Throw msg =>
      (ms ++ [{| method := m; mstatus := Method.failed; response := None;
                 error := Some msg |}],
       successfulMethods, S failedMethods)
  end.

Definition executeMethods (env : Env) (settings : option ISettings)
    (tmpl : IMessageTemplate) (i : nat) (contact : IContact)
    (todo : list Channel) : list IMethodResult * nat * nat :=
  fold_left (executeMethod env settings tmpl i contact) todo ([], 0, 0).

Definition incSuccess (c : ICampaign) : ICampaign :=
  setSuccessCount (S (successCount c)) c.
Definition incFailure (c : ICampaign) : ICampaign :=
  setFailureCount (S (failureCount c)) c.

(** The per-contact [try { ... } catch { ... }].  [None] is the [break];
    otherwise the [methods] array as it stands after the block and the
    in-memory campaign.  The one awaited call outside the per-method
    [try] is the status re-read; when it rejects the [catch] counts a
    failure and [methods] is still empty. *)
Definition processContact (env : Env) (id : string)
    (settings : option ISettings) (i : nat) (contact : IContact)
    (d : Doc) (σ : Store) : option (list IMethodResult * Doc) :=
  match findById (storeFails env (Reread i)) id σ with
  | Throw _ => Some ([], update incFailure d)
  | Ok updatedCampaign =>
      match status <$> (fields <$> updatedCampaign) with
      | Some paused => None
      | _ =>
          let todo := methodsToExecute (type (fields d)) in
          let '(ms, successfulMethods, _) :=
            executeMethods env settings (messageTemplate (fields d)) i contact todo in
          if successfulMethods =? length todo then Some (ms, update incSuccess d)
          else if 0 <? successfulMethods then Some (ms, update incSuccess d)
          else Some (ms, update incFailure d)
      end
  end.

(** [methods.every(sent) ? 'success' : methods.some(sent) ? 'partial' : 'failed'] *)
Definition isSent (m : IMethodResult) : bool :=
  bool_decide (mstatus m = Method.sent).

Definition overallOf (ms : list IMethodResult) : Overall.status :=
  if forallb isSent ms then Overall.success
  else if existsb isSent ms then Overall.partial
  else Overall.failed.

Definition resultFor (i : nat) (contact : IContact) (ms : list IMethodResult)
    : ICampaignResult :=
  {| contactId := pretty i; contactName := name contact; methods := ms;
     overallStatus := overallOf ms |}.

Definition pushResult (r : ICampaignResult) (c : ICampaign) : ICampaign :=
  setResults (results c ++ [r]) c.

(** The [for] loop from index [i] over the remaining contacts.  A
    rejected save is not caught here: it leaves the loop as [Throw]. *)
Fixpoint contactLoop (env : Env) (id uid : string) (settings : option ISettings)
    (i : nat) (todo : list IContact) (d : Doc) (σ : Store) : Result Doc * Store :=
  match todo with
  | [] => (Ok d, σ)
  | contact :: rest =>
      let σ1 := served env id uid i σ in
      match processContact env id settings i contact d σ1 with
      | None => (Ok d, σ1)
      | Some (ms, d1) =>
          match save (storeFails env (SaveContact i))
                  (update (pushResult (resultFor i contact ms)) d1) σ1 with
          | (Ok d2, σ2) => contactLoop env id uid settings (S i) rest d2 σ2
          | (Throw msg, σ2) => (Throw msg, σ2)
          end
      end
  end.

(** The body of the outer [try]. *)
Definition runBody (env : Env) (id uid : string) (σ : Store) : Result unit * Store :=
  match findById (storeFails env Load) id σ with
  | Throw msg => (Throw msg, σ)
  | Ok None => (Throw "Campaign not found", σ)
  | Ok (Some d) =>
      match findSettings env uid with
      | Throw msg => (Throw msg, σ)
      | Ok settings =>
          match contactLoop env id uid settings 0 (contacts (fields d)) d σ with
          | (Throw msg, σ1) => (Throw msg, σ1)
          | (Ok d1, σ1) =>
              match save (storeFails env SaveFinal) (assignStatus completed d1) σ1 with
              | (Ok _, σ2) => (Ok (), σ2)
              | (Throw msg, σ2) => (Throw msg, σ2)
              end
          end
      end
  end.

(** The outer [catch]: re-load the campaign and park it as paused. *)
Definition recover (env : Env) (id : string) (σ : Store) : Result unit * Store :=
  match findById (storeFails env RecoverLoad) id σ with
  | Throw msg => (Throw msg, σ)
  | Ok None => (Ok (), σ)
  | Ok (Some d) =>
      match save (storeFails env RecoverSave) (assignStatus paused d) σ with
      | (Ok _, σ') => (Ok (), σ')
      | (Throw msg, σ') => (Throw msg, σ')
      end
  end.

Definition processCampaignDirectly (env : Env) (id uid : string) (σ : Store)
    : Result unit * Store :=
  match runBody env id uid σ with
  | (Ok _, σ1) => (Ok (), σ1)
  | (Throw _, σ1) => recover env id σ1
  end.

(** ** The dispatch entry point (controllers: startCampaign)

    The third component says whether the background run was launched. *)
Definition startCampaign (env : Env) (id uid : string) (σ : Store)
    : Result Response * Store * bool :=
  match findOne (storeFails env StartFind) id uid σ with
  | Throw msg => (Throw msg, σ, false)
  | Ok None =>
      (Ok {| code := 404; success := false; message := "Campaign not found" |}, σ, false)
  | Ok (Some d) =>
      match status (fields d) with
      | running =>
          (Ok {| code := 400; success := false;
                 message := "Campaign is already running" |}, σ, false)
      | completed =>
          (Ok {| code := 400; success := false;
                 message := "Campaign is already completed" |}, σ, false)
      | _ =>
          match save (storeFails env StartSave) (assignStatus running d) σ with
          | (Throw msg, σ') => (Throw msg, σ', false)
          | (Ok _, σ') =>
              (Ok {| code := 200; success := true;
                     message := "Campaign started successfully" |}, σ', true)
          end
      end
  end.

(** A start request followed by the background run it launches, if any:
    the store the run leaves behind. *)
Definition startAndRun (env : Env) (id uid : string) (σ : Store) : Store :=
  match startCampaign env id uid σ with
  | (_, σ1, true) => (processCampaignDirectly env id uid σ1).2
  | (_, σ1, false) => σ1
  end.

(** ** The queue path (queues/campaign.queue.ts) *)

Record ContactJobData := {
  campaignId : string;
  jobUserId : string;
  contact : IContact;
  contactIndex : nat;
  jobTemplate : IMessageTemplate;
  campaignType : CampaignType
}.

(** A queued 'process-contact' job: its data and its delay in ms. *)
Record Job := {
  data : ContactJobData;
  delay : nat
}.

(** [defaultJobOptions.attempts] *)
Definition attempts : nat := 3.

(** The job the 'start-campaign' handler queues for contact [i]. *)
Definition jobFor (id uid : string) (tmpl : IMessageTemplate) (t : CampaignType)
    (i : nat) (x : IContact) : Job :=
  {| data := {| campaignId := id; jobUserId := uid; contact := x;
                contactIndex := i; jobTemplate := tmpl; campaignType := t |};
     delay := i * 1000 |}.

(** The loop of [await campaignQueue.add(...)] over the contacts from
    index [i] on.  [queue] is what the queue holds; [addFails i] says
    that the add for contact [i] rejects, which ends the loop with the
    jobs added so far left in the queue. *)
Fixpoint addJobs (addFails : nat -> bool) (mk : nat -> IContact -> Job) (i : nat)
    (todo : list IContact) (queue : list Job) : Result unit * list Job :=
  match todo with
  | [] => (Ok (), queue)
  | x :: rest =>
      if addFails i then (Throw "queue unavailable", queue)
      else addJobs addFails mk (S i) rest (queue ++ [mk i x])
  end.

(** The 'start-campaign' handler: mark the campaign running, then queue
    one job per contact, job [i] delayed by [i * 1000].  Its state is
    the campaign collection and the queue; it answers with
    [contactsQueued]. *)
Definition startCampaignJob (env : Env) (addFails : nat -> bool) (id uid : string)
    (s : Store * list Job) : Result nat * (Store * list Job) :=
  match findById (storeFails env JobStartLoad) id s.1 with
  | Throw msg => (Throw msg, s)
  | Ok None => (Throw "Campaign not found", s)
  | Ok (Some d) =>
      match save (storeFails env JobStartSave) (assignStatus running d) s.1 with
      | (Throw msg, σ') => (Throw msg, (σ', s.2))
      | (Ok d', σ') =>
          match addJobs addFails
                  (jobFor id uid (messageTemplate (fields d')) (type (fields d')))
                  0 (contacts (fields d')) s.2 with
          | (Throw msg, queue') => (Throw msg, (σ', queue'))
          | (Ok _, queue') => (Ok (length (contacts (fields d'))), (σ', queue'))
          end
      end
  end.

(** The [switch (campaignType)] of the 'process-contact' handler.  The
    job data carries [campaign.type] as it is, so ['all'] reaches the
    [default] branch. *)
Definition attemptJob (env : Env) (j : ContactJobData) : Result (option string) :=
  match campaignType j with
  | OneOf sms =>
      match truthy (phone (contact j)) with
      | None => Throw "Phone number is required for SMS"
      | Some number => sendSMS env (contactIndex j) (body (jobTemplate j)) number
      end
  | OneOf email =>
      match truthy (mail (contact j)) with
      | None => Throw "Email is required for email campaign"
      | Some recipient =>
          sendEmail env (contactIndex j)
            (default "Message" (truthy (subject (jobTemplate j))))
            (body (jobTemplate j)) recipient (default false (isHtml (jobTemplate j)))
      end
  | OneOf call =>
      match truthy (phone (contact j)) with
      | None => Throw "Phone number is required for call"
      | Some number =>
          match findSettings env (jobUserId j) with
          | Throw msg => Throw msg
          | Ok None =>
              Throw "Voice call settings not found. Please configure in Settings."
          | Ok (Some s) =>
              if bool_decide (dynamicInstruction s = "") || bool_decide (apiKey s = "")
              then Throw "Voice call settings incomplete. Please configure dynamic instruction and API key."
              else makeOutboundCall env (contactIndex j) number (name (contact j)) s
          end
      end
  | All => Throw "Invalid campaign type: all"
  end.

(** What a handler returns to the queue: [{ success, reason }]. *)
Record JobReturn := {
  jobSuccess : bool;
  reason : option string
}.

(** The entry the handler pushes onto the new result's [methods], as it
    stands in memory before the schema has seen it: [method] holds the
    job's [campaignType], whatever that is. *)
Record PushedMethod := {
  pushedMethod : CampaignType;
  pushedStatus : Method.status;
  pushedResponse : option string;
  pushedError : option string
}.

(** What [campaign.save()] makes of the pushed entry of [results[n]]:
    the schema declares [methods.method] with
    [enum: ['sms', 'email', 'call']], and Mongoose validates a pushed
    subdocument before it writes anything. *)
Definition validateMethod (n : nat) (e : PushedMethod) : Result IMethodResult :=
  match pushedMethod e with
  | OneOf m =>
      Ok {| method := m; mstatus := pushedStatus e;
            response := pushedResponse e; error := pushedError e |}
  | All =>
      Throw ("Campaign validation failed: results." +:+ pretty n
             +:+ ".methods.0.method: `all` is not a valid enum value for path `method`.")
  end.

(** The 'process-contact' handler: load, return early when paused, the
    [switch] inside its own [try] with the counter bumped in either
    branch, the push, the completion check on [results.length] (which
    counts the pushed result) and the save.  The save validates what
    was pushed and rejects, with nothing written, when the entry is
    outside the schema. *)
Definition processContactJob (env : Env) (j : ContactJobData) (σ : Store)
    : Result JobReturn * Store :=
  match findById (storeFails env (JobLoad (contactIndex j))) (campaignId j) σ with
  | Throw msg => (Throw msg, σ)
  | Ok None => (Throw "Campaign not found", σ)
  | Ok (Some d) =>
      match status (fields d) with
      | paused => (Ok {| jobSuccess := false; reason := Some "paused" |}, σ)
      | _ =>
          let outcome := attemptJob env j in
          let d1 := match outcome with
                    | Ok _ => update incSuccess d
                    | Throw _ => update incFailure d
                    end in
          let pushed :=
            match outcome with
            | Ok r => {| pushedMethod := campaignType j; pushedStatus := Method.sent;
                         pushedResponse := r; pushedError := None |}
            | Throw msg => {| pushedMethod := campaignType j;
                              pushedStatus := Method.failed;
                              pushedResponse := None; pushedError := Some msg |}
            end in
          let n := length (results (fields d1)) in
          let d2 :=
            if totalContacts (fields d1) <=? S n
            then assignStatus completed d1 else d1 in
          match validateMethod n pushed with
          | Throw msg => (Throw msg, σ)
          | Ok entry =>
              let d3 :=
                update (pushResult
                  {| contactId := pretty (contactIndex j);
                     contactName := name (contact j);
                     methods := [entry];
                     overallStatus := match outcome with
                                      | Ok _ => Overall.success
                                      | Throw _ => Overall.failed
                                      end |}) d2 in
              match save (storeFails env (JobSave (contactIndex j))) d3 σ with
              | (Throw msg, σ') => (Throw msg, σ')
              | (Ok _, σ') =>
                  (Ok {| jobSuccess := match outcome with Ok _ => true | Throw _ => false end;
                         reason := None |}, σ')
              end
          end
      end
  end.

(** The queue's retry policy: a handler that throws is run again until
    the attempts are used up.  [h k] is the handler as it runs in its
    attempt number [k], so that the world may differ from one attempt to
    the next; the state is whatever the handler acts on. *)
Fixpoint retry {St A : Type} (n : nat) (h : nat -> St -> Result A * St) (k : nat)
    (s : St) : Result A * St :=
  match n with
  | 0 => (Throw "no attempts", s)
  | S n' =>
      match h k s with
      | (Ok a, s') => (Ok a, s')
      | (Throw msg, s') =>
          match n' with
          | 0 => (Throw msg, s')
          | S _ => retry n' h (S k) s'
          end
      end
  end.

(** The contact jobs run one after the other in the order in which they
    were queued; pause requests are served in between.  Every attempt of
    a job runs in the same environment. *)
Fixpoint runContactJobs (env : Env) (jobs : list Job) (σ : Store) : Store :=
  match jobs with
  | [] => σ
  | j :: rest =>
      let σ1 := served env (campaignId (data j)) (jobUserId (data j))
                  (contactIndex (data j)) σ in
      runContactJobs env rest
        (retry attempts (λ _, processContactJob env (data j)) 0 σ1).2
  end.

(** The queue path from an empty queue that accepts every add: the
    'start-campaign' job with its retries, then the contact jobs it
    queued. *)
Definition queuePath (env : Env) (id uid : string) (σ : Store) : Store :=
  let s := (retry attempts (λ _, startCampaignJob env (λ _, false) id uid) 0 (σ, [])).2 in
  runContactJobs env s.2 s.1.

(** ** Closed forms used in the statements below *)

(** The fields no handler below assigns, and the running tallies. *)
Definition static (c : ICampaign) :=
  (userId c, campaignName c, type c, contacts c, messageTemplate c).
Definition progress (c : ICampaign) :=
  (results c, successCount c, failureCount c).

(** An in-memory document agrees with the stored one on everything but
    [status] and [totalContacts]. *)
Definition inSync (d : Doc) (p : ICampaign) : Prop :=
  static (fields d) = static p ∧ progress (fields d) = progress p.

(** The [methods] entry one channel attempt leaves behind. *)
Definition entryOf (env : Env) (settings : option ISettings)
    (tmpl : IMessageTemplate) (i : nat) (contact : IContact) (m : Channel)
    : IMethodResult :=
  match attempt env settings tmpl i contact m with
  | Ok r => {| method := m; mstatus := Method.sent; response := r; error := None |}
  | Throw msg => {| method := m; mstatus := Method.failed; response := None;
                    error := Some msg |}
  end.

(** The result of a contact whose processing ran through all channels. *)
Definition normalResult (env : Env) (settings : option ISettings)
    (tmpl : IMessageTemplate) (t : CampaignType) (i : nat) (contact : IContact)
    : ICampaignResult :=
  resultFor i contact (map (entryOf env settings tmpl i contact) (methodsToExecute t)).

Definition succeededb (r : ICampaignResult) : bool :=
  match overallStatus r with
  | Overall.success | Overall.partial => true
  | _ => false
  end.

(** The counter a contact with overall status [o] is tallied under when
    the tally follows the status. *)
Definition counted (o : Overall.status) (c : ICampaign) : ICampaign :=
  match o with
  | Overall.success | Overall.partial => incSuccess c
  | _ => incFailure c
  end.

(** The in-memory campaign after one contact was processed and saved. *)
Definition stepDoc (env : Env) (settings : option ISettings) (i : nat)
    (contact : IContact) (c : ICampaign) : ICampaign :=
  let r := normalResult env settings (messageTemplate c) (type c) i contact in
  preSave (pushResult r (counted (overallStatus r) c)).

(** ... and after the contacts [todo], numbered from [i], were. *)
Fixpoint processed (env : Env) (settings : option ISettings) (i : nat)
    (todo : list IContact) (c : ICampaign) : ICampaign :=
  match todo with
  | [] => c
  | contact :: rest => processed env settings (S i) rest (stepDoc env settings i contact c)
  end.

Definition tally {A : Type} (f : A → bool) (l : list A) : nat :=
  length (List.filter f l).

(** The results an uninterrupted pass over [todo], numbered from [i],
    appends. *)
Definition freshResults (env : Env) (settings : option ISettings)
    (c : ICampaign) (i : nat) (todo : list IContact) : list ICampaignResult :=
  imap (λ k x, normalResult env settings (messageTemplate c) (type c) (i + k) x) todo.

(** A direct run over [n] contacts that no store fault and no pause
    request disturbs, and whose settings lookup answers [settings]. *)
Definition undisturbed (env : Env) (uid : string) (settings : option ISettings)
    (n : nat) : Prop :=
  storeFails env Load = false
  ∧ storeFails env SaveFinal = false
  ∧ findSettings env uid = Ok settings
  ∧ ∀ j, j < n →
      storeFails env (Reread j) = false
      ∧ storeFails env (SaveContact j) = false
      ∧ pauseBefore env j = false.

(** ** Sample data *)

(** A gateway that accepts every send, a store without faults, nobody
    pausing, and no settings document. *)
Definition quietEnv : Env :=
  {| sendSMS := λ _ _ _, Ok (Some "{}");
     sendEmail := λ _ _ _ _ _, Ok (Some "{}");
     makeOutboundCall := λ _ _ _ _, Ok (Some "{}");
     findSettings := λ _, Ok None;
     storeFails := λ _, false;
     pauseBefore := λ _, false |}.

Definition hello : IMessageTemplate :=
  {| subject := None; body := "hello"; isHtml := None |}.

Definition alice : IContact :=
  {| name := "A"; phone := Some "+15550001"; mail := Some "a@example.org" |}.
(** a contact without a phone number *)
Definition bob : IContact :=
  {| name := "B"; phone := None; mail := None |}.
Definition carol : IContact :=
  {| name := "C"; phone := Some "+15550003"; mail := None |}.

Definition campaignOf (st : CampaignStatus) (t : CampaignType)
    (cs : list IContact) (rs : list ICampaignResult) (ok ko : nat) : ICampaign :=
  {| userId := "u1"; campaignName := "spring"; type := t; status := st;
     contacts := cs; messageTemplate := hello; results := rs;
     totalContacts := length cs; successCount := ok; failureCount := ko |}.

Definition sentBySms (i : nat) (x : IContact) : ICampaignResult :=
  {| contactId := pretty i; contactName := name x;
     methods := [{| method := sms; mstatus := Method.sent;
                    response := Some "{}"; error := None |}];
     overallStatus := Overall.success |}.

(** The answer to an accepted start request. *)
Definition started : Response :=
  {| code := 200; success := true; message := "Campaign started successfully" |}.

(** A store holding one campaign, under the id "c1". *)
Definition storeOf (c : ICampaign) : Store := {["c1" := c]}.

(** A three-contact SMS campaign as created, and while it runs. *)
Definition drafted : ICampaign :=
  campaignOf draft (OneOf sms) [alice; bob; carol] [] 0 0.
Definition underway : ICampaign :=
  campaignOf running (OneOf sms) [alice; bob; carol] [] 0 0.

(** A one-contact campaign that an earlier run processed once and that
    was parked as paused. *)
Definition parked : ICampaign :=
  campaignOf paused (OneOf sms) [alice] [sentBySms 0 alice] 1 0.

(** A campaign without contacts, with the schema's defaults. *)
Definition hollow : ICampaign :=
  campaignOf draft (OneOf sms) [] [] 0 0.

(** The quiet environment, except that a pause request is served before
    the status re-read for contact [k]. *)
Definition pausingAt (k : nat) : Env :=
  {| sendSMS := sendSMS quietEnv;
     sendEmail := sendEmail quietEnv;
     makeOutboundCall := makeOutboundCall quietEnv;
     findSettings := findSettings quietEnv;
     storeFails := storeFails quietEnv;
     pauseBefore := λ i, bool_decide (i = k) |}.

(** A two-contact campaign parked as paused after its first contact. *)
Definition parkedMidway : ICampaign :=
  campaignOf paused (OneOf sms) [alice; carol] [sentBySms 0 alice] 1 0.

(** The store becomes unavailable once the run has loaded the campaign:
    every later save and the recovery re-load reject. *)
Definition outage : Env :=
  {| sendSMS := sendSMS quietEnv;
     sendEmail := sendEmail quietEnv;
     makeOutboundCall := makeOutboundCall quietEnv;
     findSettings := findSettings quietEnv;
     storeFails := λ s, match s with
                        | SaveContact _ | SaveFinal | RecoverLoad | RecoverSave => true
                        | _ => false
                        end;
     pauseBefore := pauseBefore quietEnv |}.

(** Only the save after contact [k] rejects. *)
Definition failingSaveAt (k : nat) : Env :=
  {| sendSMS := sendSMS quietEnv;
     sendEmail := sendEmail quietEnv;
     makeOutboundCall := makeOutboundCall quietEnv;
     findSettings := findSettings quietEnv;
     storeFails := λ s, match s with
                        | SaveContact j => bool_decide (j = k)
                        | _ => false
                        end;
     pauseBefore := pauseBefore quietEnv |}.

(** Only the status re-read for contact [k] rejects. *)
Definition unreadableAt (k : nat) : Env :=
  {| sendSMS := sendSMS quietEnv;
     sendEmail := sendEmail quietEnv;
     makeOutboundCall := makeOutboundCall quietEnv;
     findSettings := findSettings quietEnv;
     storeFails := λ s, match s with
                        | Reread j => bool_decide (j = k)
                        | _ => false
                        end;
     pauseBefore := pauseBefore quietEnv |}.

(** A running one-contact campaign. *)
Definition single : ICampaign :=
  campaignOf running (OneOf sms) [alice] [] 0 0.

(** ** Closed forms for the queue path *)

(** The jobs for the contacts [todo], numbered from [i]. *)
Definition jobsFrom (id uid : string) (tmpl : IMessageTemplate) (t : CampaignType)
    (i : nat) (todo : list IContact) : list Job :=
  imap (λ k x, jobFor id uid tmpl t (i + k) x) todo.

(** The result a single-channel job pushes. *)
Definition jobResult (env : Env) (j : ContactJobData) (m : Channel) : ICampaignResult :=
  {| contactId := pretty (contactIndex j);
     contactName := name (contact j);
     methods := [match attemptJob env j with
                 | Ok r => {| method := m; mstatus := Method.sent;
                              response := r; error := None |}
                 | Throw msg => {| method := m; mstatus := Method.failed;
                                   response := None; error := Some msg |}
                 end];
     overallStatus := match attemptJob env j with
                      | Ok _ => Overall.success
                      | Throw _ => Overall.failed
                      end |}.

(** The stored campaign after a single-channel job ran on it. *)
Definition jobStep (env : Env) (j : ContactJobData) (m : Channel) (p : ICampaign)
    : ICampaign :=
  let r := jobResult env j m in
  let c1 := pushResult r (counted (overallStatus r) p) in
  preSave (if totalContacts c1 <=? length (results c1)
           then setStatus completed c1 else c1).

Fixpoint queued (env : Env) (id uid : string) (tmpl : IMessageTemplate)
    (m : Channel) (i : nat) (todo : list IContact) (p : ICampaign) : ICampaign :=
  match todo with
  | [] => p
  | x :: rest =>
      queued env id uid tmpl m (S i) rest
        (jobStep env (data (jobFor id uid tmpl (OneOf m) i x)) m p)
  end.

(** No store fault disturbs the queue path over [n] contacts. *)
Definition queueUndisturbed (env : Env) (n : nat) : Prop :=
  storeFails env JobStartLoad = false
  ∧ storeFails env JobStartSave = false
  ∧ ∀ j, j < n →
      storeFails env (JobLoad j) = false ∧ storeFails env (JobSave j) = false.

(** The voice settings pass the job handler's completeness check, or
    there are none (then both paths refuse the call). *)
Definition callReady (settings : option ISettings) : Prop :=
  match settings with
  | Some s => dynamicInstruction s ≠ "" ∧ apiKey s ≠ ""
  | None => True
  end.

(** A result without the wording of its error messages. *)
Definition methodShape (e : IMethodResult) :=
  (method e, mstatus e, response e,
   match error e with Some _ => true | None => false end).

Definition shape (r : ICampaignResult) :=
  (contactId r, contactName r, methodShape <$> methods r, overallStatus r).

(** The results the single-channel jobs for [todo], numbered from [i],
    append. *)
Definition queueResults (env : Env) (id uid : string) (tmpl : IMessageTemplate)
    (m : Channel) (i : nat) (todo : list IContact) : list ICampaignResult :=
  imap (λ k x, jobResult env (data (jobFor id uid tmpl (OneOf m) (i + k) x)) m) todo.

(** The field a channel needs is missing (or empty) on the contact. *)
Definition lacks (m : Channel) (x : IContact) : Prop :=
  match m with
  | sms | call => truthy (phone x) = None
  | email => truthy (mail x) = None
  end.

Global Instance lacks_dec m x : Decision (lacks m x).
Proof. destruct m; apply _. Defined.

(** What each path records for a missing field. *)
Definition directComplaint (m : Channel) : string :=
  match m with
  | sms => "Phone number required for SMS"
  | email => "Email required for email"
  | call => "Phone number required for call"
  end.

Definition queueComplaint (m : Channel) : string :=
  match m with
  | sms => "Phone number is required for SMS"
  | email => "Email is required for email campaign"
  | call => "Phone number is required for call"
  end.

(** The entry a channel attempt leaves behind: what [methods.push]
    records once the [try] around the [switch] ended in [a]. *)
Definition entryFrom (m : Channel) (a : Result (option string)) : IMethodResult :=
  match a with
  | Ok r => {| method := m; mstatus := Method.sent; response := r; error := None |}
  | Throw msg => {| method := m; mstatus := Method.failed; response := None;
                    error := Some msg |}
  end.

(** What the direct path asks of the gateway for channel [m] on behalf
    of contact [x], number [i], once the contact is known to have the
    field the channel needs. *)
Definition request (env : Env) (settings : option ISettings)
    (tmpl : IMessageTemplate) (i : nat) (x : IContact) (m : Channel)
    : Result (option string) :=
  match m with
  | sms => sendSMS env i (body tmpl) (default "" (phone x))
  | email =>
      sendEmail env i (default "Message" (truthy (subject tmpl))) (body tmpl)
        (default "" (mail x)) (default false (isHtml tmpl))
  | call =>
      match settings with
      | None => Throw "Settings not configured for calls"
      | Some s => makeOutboundCall env i (default "" (phone x)) (name x) s
      end
  end.

(** The same for the job handler, which looks the voice settings up
    itself and wants them complete. *)
Definition jobRequest (env : Env) (uid : string) (tmpl : IMessageTemplate)
    (i : nat) (x : IContact) (m : Channel) : Result (option string) :=
  match m with
  | sms => sendSMS env i (body tmpl) (default "" (phone x))
  | email =>
      sendEmail env i (default "Message" (truthy (subject tmpl))) (body tmpl)
        (default "" (mail x)) (default false (isHtml tmpl))
  | call =>
      match findSettings env uid with
      | Throw msg => Throw msg
      | Ok None => Throw "Voice call settings not found. Please configure in Settings."
      | Ok (Some s) =>
          if bool_decide (dynamicInstruction s = "") || bool_decide (apiKey s = "")
          then Throw "Voice call settings incomplete. Please configure dynamic instruction and API key."
          else makeOutboundCall env i (default "" (phone x)) (name x) s
      end
  end.

(** A contact with an address and no phone number, and a running
    campaign of type 'all' in which it is the second of three. *)
Definition dave : IContact :=
  {| name := "D"; phone := None; mail := Some "d@example.org" |}.
Definition mixed : ICampaign :=
  campaignOf running All [alice; dave; carol] [] 0 0.

(** A one-contact campaign of type 'all', and a one-contact SMS campaign
    whose contact has no phone number; both running. *)
Definition everyChannel : ICampaign :=
  campaignOf running All [alice] [] 0 0.
Definition unreachable : ICampaign :=
  campaignOf running (OneOf sms) [bob] [] 0 0.

(** ** Adding contacts (controllers: addContactToCampaign,
    addContactsToCampaign) *)

Definition setContacts (cs : list IContact) (c : ICampaign) : ICampaign :=
  {| userId := userId c; campaignName := campaignName c; type := type c;
     status := status c; contacts := cs;
     messageTemplate := messageTemplate c; results := results c;
     totalContacts := totalContacts c; successCount := successCount c;
     failureCount := failureCount c |}.

(** A save by a handler that pushed onto [contacts]: besides what
    [written] stores, the contact list itself is written. *)
Definition writtenContacts (d : Doc) (p : ICampaign) : ICampaign :=
  setContacts (contacts (fields d)) (written d p).

Definition saveContacts (fails : bool) (d : Doc) (σ : Store) : Result Doc * Store :=
  if fails then (Throw "store unavailable", σ)
  else match σ !! docId d with
       | None => (Throw "No document found", σ)
       | Some p =>
           (Ok {| docId := docId d; fields := preSave (fields d);
                  statusModified := false |},
            <[docId d := writtenContacts d p]> σ)
       end.

(** A contact as it arrives in a request body: each field a string or
    absent. *)
Record ContactBody := {
  bodyName : option string;
  bodyEmail : option string;
  bodyPhone : option string
}.

Section contacts.
(** [String.prototype.trim] *)
Variable trim : string → string.

(** [contact.name && contact.name.trim() !== ''] *)
Definition hasName (b : ContactBody) : bool :=
  match truthy (bodyName b) with
  | Some n => negb (bool_decide (trim n = ""))
  | None => false
  end.

(** [{ name: name.trim(), email: email?.trim() || undefined,
       phone: phone?.trim() || undefined }] *)
Definition normalized (b : ContactBody) : IContact :=
  {| name := trim (default "" (bodyName b));
     phone := truthy (trim <$> bodyPhone b);
     mail := truthy (trim <$> bodyEmail b) |}.

Definition pushContacts (xs : list IContact) (c : ICampaign) : ICampaign :=
  setContacts (contacts c ++ xs) c.

(** controllers: addContactToCampaign.  [valid] is the verdict of the
    request validators, [findFails] and [saveFails] say whether the two
    store operations reject. *)
Definition addContactToCampaign (valid findFails saveFails : bool)
    (id uid : string) (b : ContactBody) (σ : Store) : Result Response * Store :=
  if negb valid
  then (Ok {| code := 400; success := false; message := "Validation failed" |}, σ)
  else
    match findOne findFails id uid σ with
    | Throw msg => (Throw msg, σ)
    | Ok None =>
        (Ok {| code := 404; success := false; message := "Campaign not found" |}, σ)
    | Ok (Some d) =>
        if negb (hasName b)
        then (Ok {| code := 400; success := false;
                    message := "Contact name is required" |}, σ)
        else
          match saveContacts saveFails (update (pushContacts [normalized b]) d) σ with
          | (Throw msg, σ') => (Throw msg, σ')
          | (Ok _, σ') =>
              (Ok {| code := 200; success := true;
                     message := "Contact added successfully" |}, σ')
          end
    end.

(** controllers: addContactsToCampaign.  [raws] is [req.body.contacts]
    when it is an array. *)
Definition addContactsToCampaign (valid findFails saveFails : bool)
    (id uid : string) (raws : option (list ContactBody)) (σ : Store)
    : Result Response * Store :=
  if negb valid
  then (Ok {| code := 400; success := false; message := "Validation failed" |}, σ)
  else
    match findOne findFails id uid σ with
    | Throw msg => (Throw msg, σ)
    | Ok None =>
        (Ok {| code := 404; success := false; message := "Campaign not found" |}, σ)
    | Ok (Some d) =>
        match raws with
        | None | Some [] =>
            (Ok {| code := 400; success := false;
                   message := "Contacts array is required and must not be empty" |}, σ)
        | Some bs =>
            let validContacts := map normalized (List.filter hasName bs) in
            match validContacts with
            | [] =>
                (Ok {| code := 400; success := false;
                       message := "No valid contacts provided. Each contact must have at least a name." |},
                 σ)
            | _ =>
                match saveContacts saveFails (update (pushContacts validContacts) d) σ with
                | (Throw msg, σ') => (Throw msg, σ')
                | (Ok _, σ') =>
                    (Ok {| code := 200; success := true;
                           message := pretty (length validContacts)
                                      +:+ " contacts added successfully" |}, σ')
                end
            end
        end
    end.

End contacts.

(** A stored contact as the two handlers above leave it: a name, and no
    empty string in place of a missing phone number or address. *)
Definition tidy (x : IContact) : Prop :=
  name x ≠ "" ∧ phone x ≠ Some "" ∧ mail x ≠ Some "".

(** ** Parsing uploaded contacts (utils/csvParser.ts)

    The rows are the objects the CSV reader emits, one per data line:
    column name to cell text. *)

(** [a || b || ... || ''] over cells that may be absent. *)
Fixpoint firstTruthy (cells : list (option string)) : string :=
  match cells with
  | [] => ""
  | cell :: rest =>
      match truthy cell with
      | Some v => v
      | None => firstTruthy rest
      end
  end.

Definition contactOfRow (row : gmap string string) : IContact :=
  {| name := firstTruthy [row !! "name"; row !! "Name"; row !! "NAME"];
     phone := Some (firstTruthy [row !! "phone"; row !! "Phone"; row !! "PHONE";
                                 row !! "mobile"; row !! "Mobile"]);
     mail := Some (firstTruthy [row !! "email"; row !! "Email"; row !! "EMAIL"]) |}.

(** The ['data'] handler over all rows: a contact is kept when its name
    is truthy. *)
Definition parseCSV (rows : list (gmap string string)) : list IContact :=
  List.filter (λ x, negb (bool_decide (name x = ""))) (map contactOfRow rows).

(** ** The gateway client's retry (services/leadGenerator.service.ts) *)

Module LeadGenerator.

(** What the client reads off a rejected request:
    [error.response?.status], [error.response?.data?.message] and
    [error.message]. *)
Record HttpError := {
  errStatus : option nat;
  errServerMessage : option string;
  errMessage : string
}.

Record HttpResponse := {
  httpStatus : nat;
  httpData : string
}.

Inductive Outcome :=
  | Resolved (r : HttpResponse)
  | Rejected (e : HttpError).

Definition MAX_RETRIES : nat := 3.

(** [error.response?.status >= 500] *)
Definition serverSide (e : HttpError) : bool :=
  match errStatus e with
  | Some st => 500 <=? st
  | None => false
  end.

(** [retryRequest(requestFn, retries)].  [requestFn k] is what the
    [k]-th invocation of the request settles to; the second component of
    the answer is the number of invocations made so far. *)
Fixpoint retryRequest (requestFn : nat → Outcome) (retries : nat) (made : nat)
    : Outcome * nat :=
  match requestFn made with
  | Resolved r => (Resolved r, S made)
  | Rejected e =>
      match retries with
      | S fewer =>
          if serverSide e then retryRequest requestFn fewer (S made)
          else (Rejected e, S made)
      | 0 => (Rejected e, S made)
      end
  end.

Inductive JsonValue :=
  | JString (s : string)
  | JBool (b : bool).

(** [error.response?.data?.message || error.message] *)
Definition reasonOf (e : HttpError) : string :=
  default (errMessage e) (truthy (errServerMessage e)).

(** [sendSMS(body, number)] over [axios.post], with the number of posts
    it made. *)
Definition sendSMS (post : nat → string → list (string * JsonValue) → Outcome)
    (baseUrl body number : string) : Result string * nat :=
  match retryRequest
          (λ k, post k (baseUrl +:+ "/sms/send")
                  [("body", JString body); ("number", JString number)])
          MAX_RETRIES 0 with
  | (Resolved r, n) => (Ok (httpData r), n)
  | (Rejected e, n) => (Throw ("Failed to send SMS: " +:+ reasonOf e), n)
  end.

(** [sendEmail(subject, body, receiverEmail, isHtml)] *)
Definition sendEmail (post : nat → string → list (string * JsonValue) → Outcome)
    (baseUrl subject body receiverEmail : string) (isHtml : bool)
    : Result string * nat :=
  match retryRequest
          (λ k, post k (baseUrl +:+ "/email/send")
                  [("subject", JString subject); ("body", JString body);
                   ("receiver_email", JString receiverEmail);
                   ("is_html", JBool isHtml)])
          MAX_RETRIES 0 with
  | (Resolved r, n) => (Ok (httpData r), n)
  | (Rejected e, n) => (Throw ("Failed to send email: " +:+ reasonOf e), n)
  end.

End LeadGenerator.

(** ** The in-memory cache (utils/cache.ts)

    [Date.now()] is an argument of every operation that reads the
    clock; times are in milliseconds. *)

Module Cache.

Section cache.
Context {V : Type}.

Record Item := {
  value : V;
  expiry : Z
}.

Definition set (now : Z) (key : string) (v : V) (ttlSeconds : Z)
    (m : gmap string Item) : gmap string Item :=
  <[key := {| value := v; expiry := (now + ttlSeconds * 1000)%Z |}]> m.

(** [get(key)]: the value, and the map after the lazy eviction. *)
Definition get (now : Z) (key : string) (m : gmap string Item)
    : option V * gmap string Item :=
  match m !! key with
  | None => (None, m)
  | Some item =>
      if (expiry item <? now)%Z then (None, delete key m)
      else (Some (value item), m)
  end.

Definition cleanup (now : Z) (m : gmap string Item) : gmap string Item :=
  filter (λ kv, ¬ (expiry kv.2 < now)%Z) m.

(** [withCache(key, ttl, fetchFn)]: [truthyV] is JavaScript truthiness
    on the cached values, [fetched] what [fetchFn()] settles to, and
    [now1], [now2] the clock at the lookup and at the store. *)
Definition withCache (truthyV : V → bool) (now1 now2 : Z) (key : string)
    (ttl : Z) (fetched : Result V) (m : gmap string Item)
    : Result V * gmap string Item :=
  let '(cached, m1) := get now1 key m in
  match cached with
  | Some v =>
      if truthyV v then (Ok v, m1)
      else match fetched with
           | Ok r => (Ok r, set now2 key r ttl m1)
           | Throw msg => (Throw msg, m1)
           end
  | None =>
      match fetched with
      | Ok r => (Ok r, set now2 key r ttl m1)
      | Throw msg => (Throw msg, m1)
      end
  end.

End cache.
Arguments Item : clear implicits.

End Cache.

(** ** Sample requests *)

(** A trim that strips blanks at both ends, for the examples. *)
Fixpoint dropBlanks (s : string) : string :=
  match s with
  | String " "%char rest => dropBlanks rest
  | _ => s
  end.

Definition trimBlanks (s : string) : string :=
  String.rev (dropBlanks (String.rev (dropBlanks s))).

Definition dora : ContactBody :=
  {| bodyName := Some " Dora "; bodyEmail := Some ""; bodyPhone := Some "+15550004" |}.
(** a body whose name is blank *)
Definition nameless : ContactBody :=
  {| bodyName := Some "  "; bodyEmail := None; bodyPhone := Some "+15550005" |}.

(** A server that answers 503 twice and then accepts. *)
Definition flaky (k : nat) : LeadGenerator.Outcome :=
  if k <? 2
  then LeadGenerator.Rejected
         {| LeadGenerator.errStatus := Some 503;
            LeadGenerator.errServerMessage := None;
            LeadGenerator.errMessage := "Request failed with status code 503" |}
  else LeadGenerator.Resolved
         {| LeadGenerator.httpStatus := 200; LeadGenerator.httpData := "{}" |}.

(** ** Worlds that change between the attempts of a job *)

(** The store rejects the save of every contact job. *)
Definition jobSaveDown : Env :=
  {| sendSMS := sendSMS quietEnv;
     sendEmail := sendEmail quietEnv;
     makeOutboundCall := makeOutboundCall quietEnv;
     findSettings := findSettings quietEnv;
     storeFails := λ s, match s with
                        | JobSave _ => true
                        | _ => false
                        end;
     pauseBefore := pauseBefore quietEnv |}.

(** The store is back from the second attempt on. *)
Definition clearing (k : nat) : Env :=
  match k with
  | 0 => jobSaveDown
  | _ => quietEnv
  end.


(** * Properties *)

(** ** Store operations *)

Lemma findById_ok id (σ : Store) :
  findById false id σ
  = Ok ((λ c, {| docId := id; fields := c; statusModified := false |}) <$> σ !! id).
Proof. reflexivity. Qed.

Lemma save_ok d (σ : Store) p :
  σ !! docId d = Some p →
  save false d σ
  = (Ok {| docId := docId d; fields := preSave (fields d); statusModified := false |},
     <[docId d := written d p]> σ).
Proof. intros Hp. unfold save. by rewrite Hp. Qed.

Lemma save_throw fails d (σ : Store) msg σ' :
  save fails d σ = (Throw msg, σ') → σ' = σ.
Proof.
  unfold save. destruct fails; [by inversion 1|].
  destruct (σ !! docId d); by inversion 1.
Qed.

Lemma save_lookup fails d (σ : Store) d' σ' :
  save fails d σ = (Ok d', σ') →
  ∃ p, σ !! docId d = Some p ∧ σ' !! docId d = Some (written d p)
       ∧ d' = {| docId := docId d; fields := preSave (fields d);
                 statusModified := false |}.
Proof.
  unfold save. destruct fails; [by inversion 1|].
  destruct (σ !! docId d) as [p|] eqn:Hp; [|by inversion 1].
  inversion 1; subst. exists p. by rewrite lookup_insert_eq.
Qed.

Lemma written_unassigned d p :
  statusModified d = false → static (fields d) = static p →
  written d p = setStatus (status p) (preSave (fields d)).
Proof.
  intros Hm Hs. unfold written. rewrite Hm.
  destruct d as [i f m], f, p; simpl in *.
  unfold static in Hs; simpl in Hs. by simplify_eq.
Qed.

Lemma written_assigned d p :
  statusModified d = true → static (fields d) = static p →
  written d p = preSave (fields d).
Proof.
  intros Hm Hs. unfold written. rewrite Hm.
  destruct d as [i f m], f, p; simpl in *.
  unfold static in Hs; simpl in Hs. by simplify_eq.
Qed.

(** A pause request changes nothing but the stored status, and that only
    from [running] to [paused]. *)
Lemma pauseCampaign_lookup id uid (σ : Store) p :
  σ !! id = Some p →
  ∃ p', (pauseCampaign id uid σ).2 !! id = Some p'
        ∧ static p' = static p ∧ progress p' = progress p
        ∧ (status p' = status p ∨ status p' = paused).
Proof.
  intros Hp. unfold pauseCampaign, findOne. rewrite Hp.
  case_bool_decide; simpl; [|by eauto 10].
  destruct (status p) eqn:Hst; simpl; try by eauto 10.
  unfold save; simpl. rewrite Hp. simpl. rewrite lookup_insert_eq.
  eexists; split; [done|]. by destruct p; auto.
Qed.

Lemma pauseCampaign_running id uid (σ : Store) p :
  σ !! id = Some p → userId p = uid → status p = running →
  (pauseCampaign id uid σ).2 !! id = Some (setStatus paused (preSave p)).
Proof.
  intros Hp Hu Hst. unfold pauseCampaign, findOne. rewrite Hp.
  rewrite bool_decide_eq_true_2 by done. simpl. rewrite Hst.
  unfold save; simpl. rewrite Hp. simpl. by rewrite lookup_insert_eq.
Qed.

Lemma served_quiet env id uid i (σ : Store) :
  pauseBefore env i = false → served env id uid i σ = σ.
Proof. unfold served. by intros ->. Qed.

Lemma served_lookup env id uid i (σ : Store) p :
  σ !! id = Some p →
  ∃ p', served env id uid i σ !! id = Some p'
        ∧ static p' = static p ∧ progress p' = progress p
        ∧ (status p' = status p ∨ status p' = paused).
Proof.
  intros Hp. unfold served. destruct (pauseBefore env i); [|by eauto 10].
  by apply pauseCampaign_lookup.
Qed.

(** ** The per-contact block *)

Section direct.
Context (env : Env) (id uid : string) (settings : option ISettings).

Lemma fold_executeMethod tmpl i contact todo ms a b :
  fold_left (executeMethod env settings tmpl i contact) todo (ms, a, b)
  = (ms ++ map (entryOf env settings tmpl i contact) todo,
     a + tally isSent (map (entryOf env settings tmpl i contact) todo),
     b + tally (λ e, negb (isSent e)) (map (entryOf env settings tmpl i contact) todo)).
Proof.
  revert ms a b. induction todo as [|m todo IH]; intros ms a b.
  - simpl. unfold tally. simpl. by rewrite app_nil_r, !Nat.add_0_r.
  - simpl. unfold entryOf at 1 3 5.
    destruct (attempt env settings tmpl i contact m) as [r|msg]; simpl;
      rewrite IH, <- app_assoc; simpl; unfold tally; simpl;
      repeat f_equal; lia.
Qed.

Lemma executeMethods_eq tmpl i contact todo :
  executeMethods env settings tmpl i contact todo
  = (map (entryOf env settings tmpl i contact) todo,
     tally isSent (map (entryOf env settings tmpl i contact) todo),
     tally (λ e, negb (isSent e)) (map (entryOf env settings tmpl i contact) todo)).
Proof. unfold executeMethods. by rewrite fold_executeMethod. Qed.

Lemma tally_le {A} (f : A → bool) l : tally f l ≤ length l.
Proof. unfold tally. apply List.filter_length_le. Qed.

Lemma forallb_tally (ms : list IMethodResult) :
  forallb isSent ms = (tally isSent ms =? length ms).
Proof.
  induction ms as [|e ms IH]; [done|]. unfold tally in *. simpl.
  destruct (isSent e); simpl.
  - by rewrite IH.
  - symmetry. apply Nat.eqb_neq.
    pose proof (List.filter_length_le isSent ms). lia.
Qed.

Lemma existsb_tally (ms : list IMethodResult) :
  existsb isSent ms = (0 <? tally isSent ms).
Proof.
  induction ms as [|e ms IH]; [done|]. unfold tally in *. simpl.
  destruct (isSent e); simpl; [done|]. by rewrite IH.
Qed.

(** When the block runs through, the counter it bumps is the one the
    pushed result's overall status calls for. *)
Lemma processContact_normal i contact d (σ : Store) :
  storeFails env (Reread i) = false →
  status <$> σ !! id ≠ Some paused →
  processContact env id settings i contact d σ
  = Some (methods (normalResult env settings (messageTemplate (fields d))
                     (type (fields d)) i contact),
          update (counted (overallStatus
                    (normalResult env settings (messageTemplate (fields d))
                       (type (fields d)) i contact))) d).
Proof.
  intros Hr Hst. unfold processContact. rewrite Hr, findById_ok.
  assert (status <$> (fields <$>
            ((λ c, {| docId := id; fields := c; statusModified := false |})
               <$> σ !! id)) = status <$> σ !! id) as ->.
  { by destruct (σ !! id). }
  rewrite executeMethods_eq. simpl.
  set (ms := map _ (methodsToExecute _)).
  assert (length (methodsToExecute (type (fields d))) = length ms) as ->.
  { unfold ms. by rewrite length_map. }
  rewrite <- forallb_tally, <- existsb_tally. unfold overallOf.
  destruct (status <$> σ !! id) as [[]|]; try congruence;
    destruct (forallb isSent ms); try reflexivity;
    destruct (existsb isSent ms); reflexivity.
Qed.

Lemma processContact_paused i contact d (σ : Store) :
  storeFails env (Reread i) = false →
  status <$> σ !! id = Some paused →
  processContact env id settings i contact d σ = None.
Proof.
  intros Hr Hst. unfold processContact. rewrite Hr, findById_ok.
  destruct (σ !! id) as [p|]; simpl in *; [|done].
  injection Hst as Hst. by rewrite Hst.
Qed.

Lemma processContact_unreadable i contact d (σ : Store) :
  storeFails env (Reread i) = true →
  processContact env id settings i contact d σ = Some ([], update incFailure d).
Proof. intros Hr. unfold processContact, findById. by rewrite Hr. Qed.

End direct.

(** ** The contact loop *)

Lemma written_static d p : static (written d p) = static p.
Proof. reflexivity. Qed.

Lemma written_progress d p : progress (written d p) = progress (fields d).
Proof. reflexivity. Qed.

Lemma written_status d p :
  status (written d p) = if statusModified d then status (fields d) else status p.
Proof. reflexivity. Qed.

Lemma written_totalContacts d p :
  totalContacts (written d p) = length (contacts (fields d)).
Proof. reflexivity. Qed.

Lemma static_counted o c : static (counted o c) = static c.
Proof. by destruct o. Qed.

Lemma static_pushResult r c : static (pushResult r c) = static c.
Proof. reflexivity. Qed.

Lemma static_preSave c : static (preSave c) = static c.
Proof. reflexivity. Qed.

Lemma static_setStatus s c : static (setStatus s c) = static c.
Proof. reflexivity. Qed.

Section loop.
Context (env : Env) (id uid : string) (settings : option ISettings).

(** The per-contact block only ever bumps one of the two counters. *)
Lemma processContact_frame i contact d (σ : Store) ms d1 :
  processContact env id settings i contact d σ = Some (ms, d1) →
  d1 = update incSuccess d ∨ d1 = update incFailure d.
Proof.
  unfold processContact.
  destruct (findById _ id σ) as [u|msg]; [|inversion 1; auto].
  destruct (status <$> (fields <$> u)) as [[]|];
    try (inversion 1; fail);
    destruct (executeMethods _ _ _ _ _ _) as [[ms' a] b];
    repeat case_match; inversion 1; auto.
Qed.

(** One uninterrupted turn of the loop. *)
Lemma contactLoop_step i x rest d (σ : Store) p :
  σ !! id = Some p → docId d = id → statusModified d = false → inSync d p →
  status p ≠ paused →
  storeFails env (Reread i) = false →
  storeFails env (SaveContact i) = false →
  pauseBefore env i = false →
  contactLoop env id uid settings i (x :: rest) d σ
  = contactLoop env id uid settings (S i) rest
      {| docId := id; fields := stepDoc env settings i x (fields d);
         statusModified := false |}
      (<[id := setStatus (status p) (stepDoc env settings i x (fields d))]> σ).
Proof.
  intros Hp Hid Hm [Hs _] Hst Hr Hsv Hq. simpl.
  rewrite served_quiet by done.
  rewrite processContact_normal; [|done|rewrite Hp; simpl; congruence].
  rewrite Hsv.
  set (r := normalResult _ _ _ _ _ _).
  change (resultFor i x (methods r)) with r.
  set (d1 := update (pushResult r) _).
  rewrite (save_ok d1 σ p) by (by rewrite <- Hid in Hp).
  change (docId d1) with (docId d). rewrite Hid.
  rewrite (written_unassigned d1 p); [done|done|].
  rewrite <- Hs.
  change (fields d1) with (pushResult r (counted (overallStatus r) (fields d))).
  by rewrite static_pushResult, static_counted.
Qed.

(** The loop over an uninterrupted prefix of the contacts. *)
Lemma contactLoop_prefix pre : ∀ rest i d (σ : Store) p,
  σ !! id = Some p → docId d = id → statusModified d = false → inSync d p →
  status p ≠ paused →
  (∀ j, i ≤ j < i + length pre →
        storeFails env (Reread j) = false
        ∧ storeFails env (SaveContact j) = false
        ∧ pauseBefore env j = false) →
  ∃ (σ' : Store) p',
    contactLoop env id uid settings i (pre ++ rest) d σ
    = contactLoop env id uid settings (i + length pre) rest
        {| docId := id; fields := processed env settings i pre (fields d);
           statusModified := false |} σ'
    ∧ σ' !! id = Some p'
    ∧ inSync {| docId := id; fields := processed env settings i pre (fields d);
                statusModified := false |} p'
    ∧ status p' = status p.
Proof.
  induction pre as [|x pre IH]; intros rest i d σ p Hp Hid Hm Hs Hst Hq.
  - exists σ, p. simpl. rewrite Nat.add_0_r.
    destruct d as [di f m]; simpl in *; subst. done.
  - destruct (Hq i) as (Hr & Hsv & Hpa); [simpl; lia|].
    simpl app. rewrite (contactLoop_step i x (pre ++ rest) d σ p) by done.
    set (d1 := {| docId := id; fields := stepDoc env settings i x (fields d);
                  statusModified := false |}).
    set (p1 := setStatus (status p) (stepDoc env settings i x (fields d))).
    destruct (IH rest (S i) d1 (<[id := p1]> σ) p1) as (σ' & p' & Heq & Hp' & Hs' & Hst').
    + by rewrite lookup_insert_eq.
    + done.
    + done.
    + split; [done|]. done.
    + done.
    + intros j Hj. apply Hq. simpl. lia.
    + exists σ', p'. simpl length. rewrite Nat.add_succ_r. simpl in *.
      rewrite Heq. done.
Qed.

End loop.

(** ** What an uninterrupted pass leaves in the document *)

Section processed.
Context (env : Env) (settings : option ISettings).

Lemma stepDoc_static i x c : static (stepDoc env settings i x c) = static c.
Proof.
  unfold stepDoc. by rewrite static_preSave, static_pushResult, static_counted.
Qed.

Lemma stepDoc_status i x c : status (stepDoc env settings i x c) = status c.
Proof. unfold stepDoc. simpl. by destruct (overallOf _). Qed.

Lemma stepDoc_results i x c :
  results (stepDoc env settings i x c)
  = results c ++ [normalResult env settings (messageTemplate c) (type c) i x].
Proof. unfold stepDoc. simpl. by destruct (overallOf _). Qed.

Lemma stepDoc_successCount i x c :
  successCount (stepDoc env settings i x c)
  = successCount c
    + tally succeededb [normalResult env settings (messageTemplate c) (type c) i x].
Proof.
  unfold stepDoc, tally, succeededb. simpl.
  destruct (overallOf _); simpl; lia.
Qed.

Lemma stepDoc_failureCount i x c :
  failureCount (stepDoc env settings i x c)
  = failureCount c
    + tally (λ r, negb (succeededb r))
        [normalResult env settings (messageTemplate c) (type c) i x].
Proof.
  unfold stepDoc, tally, succeededb. simpl.
  destruct (overallOf _); simpl; lia.
Qed.

Lemma stepDoc_totalContacts i x c :
  totalContacts (stepDoc env settings i x c) = length (contacts c).
Proof. unfold stepDoc. simpl. by destruct (overallOf _). Qed.

Lemma processed_static todo : ∀ i c,
  static (processed env settings i todo c) = static c.
Proof.
  induction todo as [|x todo IH]; intros i c; simpl; [done|].
  by rewrite IH, stepDoc_static.
Qed.

Lemma processed_status todo : ∀ i c,
  status (processed env settings i todo c) = status c.
Proof.
  induction todo as [|x todo IH]; intros i c; simpl; [done|].
  by rewrite IH, stepDoc_status.
Qed.

Lemma freshResults_static c c' i todo :
  static c' = static c →
  freshResults env settings c' i todo = freshResults env settings c i todo.
Proof.
  unfold freshResults, static. intros Hs.
  injection Hs as _ _ Ht _ Hm. by rewrite Ht, Hm.
Qed.

Lemma freshResults_cons c i x todo :
  freshResults env settings c i (x :: todo)
  = normalResult env settings (messageTemplate c) (type c) i x
    :: freshResults env settings c (S i) todo.
Proof.
  unfold freshResults. rewrite imap_cons, Nat.add_0_r. f_equal.
  apply imap_ext. intros k y _. simpl. by rewrite Nat.add_succ_r.
Qed.

Lemma length_freshResults c i todo :
  length (freshResults env settings c i todo) = length todo.
Proof. unfold freshResults. by rewrite length_imap. Qed.

Lemma processed_results todo : ∀ i c,
  results (processed env settings i todo c)
  = results c ++ freshResults env settings c i todo.
Proof.
  induction todo as [|x todo IH]; intros i c; simpl.
  - by rewrite app_nil_r.
  - rewrite IH, stepDoc_results, freshResults_cons, <- app_assoc. simpl.
    by rewrite (freshResults_static c) by apply stepDoc_static.
Qed.

Lemma tally_app {A} (f : A → bool) l1 l2 :
  tally f (l1 ++ l2) = tally f l1 + tally f l2.
Proof. unfold tally. by rewrite List.filter_app, length_app. Qed.

Lemma tally_cons {A} (f : A → bool) x l :
  tally f (x :: l) = tally f [x] + tally f l.
Proof. apply (tally_app f [x] l). Qed.

Lemma tally_singleton {A} (f : A → bool) x :
  tally f [x] = if f x then 1 else 0.
Proof. unfold tally. simpl. by destruct (f x). Qed.

Lemma processed_successCount todo : ∀ i c,
  successCount (processed env settings i todo c)
  = successCount c + tally succeededb (freshResults env settings c i todo).
Proof.
  induction todo as [|x todo IH]; intros i c; simpl.
  - unfold tally. simpl. lia.
  - rewrite IH, stepDoc_successCount, freshResults_cons.
    rewrite (freshResults_static c) by apply stepDoc_static.
    rewrite (tally_cons _ _ (freshResults _ _ _ _ _)). lia.
Qed.

Lemma processed_failureCount todo : ∀ i c,
  failureCount (processed env settings i todo c)
  = failureCount c
    + tally (λ r, negb (succeededb r)) (freshResults env settings c i todo).
Proof.
  induction todo as [|x todo IH]; intros i c; simpl.
  - unfold tally. simpl. lia.
  - rewrite IH, stepDoc_failureCount, freshResults_cons.
    rewrite (freshResults_static c) by apply stepDoc_static.
    rewrite (tally_cons _ _ (freshResults _ _ _ _ _)). lia.
Qed.

Lemma freshResults_ids c i todo :
  contactId <$> freshResults env settings c i todo = pretty <$> seq i (length todo).
Proof.
  revert i. induction todo as [|x todo IH]; intros i; [done|].
  rewrite freshResults_cons. simpl. by rewrite IH.
Qed.

Lemma freshResults_lookup c i todo k x :
  todo !! k = Some x →
  freshResults env settings c i todo !! k
  = Some (normalResult env settings (messageTemplate c) (type c) (i + k) x).
Proof. intros Hk. unfold freshResults. by rewrite list_lookup_imap, Hk. Qed.

End processed.

(** ** The uninterrupted direct run *)

Lemma direct_run_closed env id uid settings (σ : Store) c :
  σ !! id = Some c →
  status c ≠ paused →
  undisturbed env uid settings (length (contacts c)) →
  ∃ σ' : Store,
    processCampaignDirectly env id uid σ = (Ok (), σ')
    ∧ σ' !! id
      = Some (setStatus completed
                (preSave (processed env settings 0 (contacts c) c))).
Proof.
  intros Hc Hst (Hload & Hfinal & Hset & Hq).
  unfold processCampaignDirectly, runBody.
  rewrite Hload, findById_ok, Hc. simpl. rewrite Hset.
  destruct (contactLoop_prefix env id uid settings (contacts c) [] 0
              {| docId := id; fields := c; statusModified := false |} σ c)
    as (σ1 & p1 & Heq & Hp1 & [Hs1 _] & Hst1); try done.
  { intros j Hj. apply Hq. simpl in Hj. lia. }
  rewrite app_nil_r in Heq. rewrite Heq. simpl contactLoop.
  rewrite Hfinal.
  set (d1 := assignStatus completed _).
  rewrite (save_ok d1 σ1 p1) by done.
  eexists. split; [done|].
  change (docId d1) with id. rewrite lookup_insert_eq.
  by rewrite (written_assigned d1 p1).
Qed.

(** ** startCampaign *)

Lemma startCampaign_accepts env id uid (σ : Store) c :
  σ !! id = Some c → userId c = uid →
  status c ≠ running → status c ≠ completed →
  storeFails env StartFind = false → storeFails env StartSave = false →
  startCampaign env id uid σ
  = (Ok started, <[id := setStatus running (preSave c)]> σ, true).
Proof.
  intros Hc Hu Hr Hd Hf Hs. unfold startCampaign, findOne.
  rewrite Hf, Hc, bool_decide_eq_true_2 by done. simpl.
  rewrite Hs. unfold save. simpl. rewrite Hc.
  by destruct (status c).
Qed.

Lemma startCampaign_launched env id uid (σ : Store) r (σ1 : Store) :
  startCampaign env id uid σ = (r, σ1, true) →
  status <$> σ1 !! id = Some running.
Proof.
  unfold startCampaign, findOne.
  destruct (storeFails env StartFind); [by inversion 1|].
  destruct (σ !! id) as [c|] eqn:Hc; [|by inversion 1].
  case_bool_decide; [|by inversion 1]. simpl.
  unfold save. simpl. rewrite Hc.
  destruct (status c), (storeFails env StartSave);
    inversion 1; subst; by rewrite lookup_insert_eq.
Qed.

(** C6: a start request for a campaign that is running or completed is
    turned down (HTTP 400, the handler's conflict answer) with the store
    left as it was and no run launched; for any other status the handler
    stores [running] and only then launches the run, which starts from
    the store that already holds [running].  Whenever a run is launched,
    [running] is what the store holds. *)
Theorem start_guard env id uid (σ : Store) c :
  σ !! id = Some c → userId c = uid → storeFails env StartFind = false →
  (status c = running ∨ status c = completed →
     ∃ msg, startCampaign env id uid σ
            = (Ok {| code := 400; success := false; message := msg |}, σ, false)
            ∧ startAndRun env id uid σ = σ)
  ∧ (status c ≠ running → status c ≠ completed →
     storeFails env StartSave = false →
     ∃ (σ1 : Store) c1,
       startCampaign env id uid σ = (Ok started, σ1, true)
       ∧ σ1 !! id = Some c1 ∧ status c1 = running
       ∧ progress c1 = progress c
       ∧ startAndRun env id uid σ = (processCampaignDirectly env id uid σ1).2)
  ∧ (∀ r (σ1 : Store), startCampaign env id uid σ = (r, σ1, true) →
       status <$> σ1 !! id = Some running).
Proof.
  intros Hc Hu Hf. split; [|split].
  - intros Hst. unfold startAndRun, startCampaign, findOne.
    rewrite Hf, Hc, bool_decide_eq_true_2 by done. simpl.
    destruct Hst as [-> | ->]; eauto.
  - intros Hr Hd Hs.
    exists (<[id := setStatus running (preSave c)]> σ), (setStatus running (preSave c)).
    unfold startAndRun.
    rewrite (startCampaign_accepts env id uid σ c) by done.
    by rewrite lookup_insert_eq.
  - intros r σ1. apply startCampaign_launched.
Qed.

(** Applied to a running campaign, and to the same campaign as drafted. *)
Lemma start_guard_witness :
  (∃ msg,
     startCampaign quietEnv "c1" "u1" (storeOf underway)
     = (Ok {| code := 400; success := false; message := msg |},
        storeOf underway, false)
     ∧ startAndRun quietEnv "c1" "u1" (storeOf underway) = storeOf underway)
  ∧ (∃ (σ1 : Store) c1,
       startCampaign quietEnv "c1" "u1" (storeOf drafted) = (Ok started, σ1, true)
       ∧ σ1 !! "c1" = Some c1 ∧ status c1 = running
       ∧ progress c1 = progress drafted
       ∧ startAndRun quietEnv "c1" "u1" (storeOf drafted)
         = (processCampaignDirectly quietEnv "c1" "u1" σ1).2).
Proof.
  split.
  - apply (start_guard quietEnv "c1" "u1" (storeOf underway) underway);
      [vm_compute; reflexivity .. | left; reflexivity].
  - apply (start_guard quietEnv "c1" "u1" (storeOf drafted) drafted);
      vm_compute; (reflexivity || discriminate).
Defined.

(** ** C4 and C10: runs that nothing disturbs *)

(** C4 (amended): a direct run that no pause and no store fault disturbs
    terminates normally, leaves the campaign completed, and has appended
    to the results the campaign started with exactly one result per
    contact, in contact-list order; so [results.length] is its length at
    the start plus [totalContacts]. *)
Theorem uninterrupted_run_completes env id uid settings (σ : Store) c :
  σ !! id = Some c →
  status c ≠ paused →
  undisturbed env uid settings (length (contacts c)) →
  ∃ (σ' : Store) c',
    processCampaignDirectly env id uid σ = (Ok (), σ')
    ∧ σ' !! id = Some c'
    ∧ status c' = completed
    ∧ results c' = results c ++ freshResults env settings c 0 (contacts c)
    ∧ (∀ k x, contacts c !! k = Some x →
         ∃ r, results c' !! (length (results c) + k) = Some r
              ∧ contactId r = pretty k ∧ contactName r = name x)
    ∧ totalContacts c' = length (contacts c')
    ∧ length (results c') = length (results c) + totalContacts c'.
Proof.
  intros Hc Hst Hu.
  destruct (direct_run_closed env id uid settings σ c) as (σ' & Hrun & Hl); try done.
  eexists σ', _. split; [done|]. split; [done|].
  pose proof (processed_static env settings (contacts c) 0 c) as Hs.
  assert (contacts (processed env settings 0 (contacts c) c) = contacts c) as Hcs.
  { unfold static in Hs. by simplify_eq. }
  simpl. rewrite processed_results, Hcs.
  repeat split; try done.
  - intros k x Hk. eexists. split.
    + rewrite lookup_app_r by lia.
      replace (length (results c) + k - length (results c)) with k by lia.
      by apply freshResults_lookup.
    + done.
  - by rewrite length_app, length_freshResults.
Qed.

Lemma uninterrupted_run_completes_witness :
  ∃ (σ' : Store) c',
    processCampaignDirectly quietEnv "c1" "u1" (storeOf underway) = (Ok (), σ')
    ∧ σ' !! "c1" = Some c'
    ∧ status c' = completed
    ∧ results c' = results underway ++ freshResults quietEnv None underway 0 (contacts underway)
    ∧ (∀ k x, contacts underway !! k = Some x →
         ∃ r, results c' !! (length (results underway) + k) = Some r
              ∧ contactId r = pretty k ∧ contactName r = name x)
    ∧ totalContacts c' = length (contacts c')
    ∧ length (results c') = length (results underway) + totalContacts c'.
Proof.
  apply (uninterrupted_run_completes quietEnv "c1" "u1" None (storeOf underway) underway).
  - vm_compute; reflexivity.
  - discriminate.
  - repeat split; reflexivity.
Defined.

(** C4 as stated fails on a campaign that already holds results: the
    parked campaign, started again and run without any disturbance, ends
    with two results for its one contact. *)
Lemma restarted_run_exceeds_totalContacts :
  undisturbed quietEnv "u1" None 1
  ∧ ∃ c', startAndRun quietEnv "c1" "u1" (storeOf parked) !! "c1" = Some c'
          ∧ status c' = completed
          ∧ totalContacts c' = 1
          ∧ length (results c') = 2.
Proof.
  split; [repeat split; reflexivity|].
  eexists. split; [vm_compute; reflexivity|]. by vm_compute.
Qed.

(** C10: a campaign without contacts is accepted by startCampaign when
    its status permits, and its direct run marks it completed at once
    without touching the results or the counters: a campaign that holds
    no results and zero counters (as every campaign without contacts
    does by the schema's defaults) ends with results empty,
    [successCount = 0] and [failureCount = 0]. *)
Theorem empty_campaign_completes env id uid settings (σ : Store) c :
  σ !! id = Some c → userId c = uid →
  contacts c = [] →
  status c ≠ running → status c ≠ completed →
  storeFails env StartFind = false → storeFails env StartSave = false →
  undisturbed env uid settings 0 →
  ∃ (σ1 σ2 : Store) c',
    startCampaign env id uid σ = (Ok started, σ1, true)
    ∧ processCampaignDirectly env id uid σ1 = (Ok (), σ2)
    ∧ startAndRun env id uid σ = σ2
    ∧ σ2 !! id = Some c'
    ∧ status c' = completed
    ∧ progress c' = progress c
    ∧ (results c = [] → successCount c = 0 → failureCount c = 0 →
       results c' = [] ∧ successCount c' = 0 ∧ failureCount c' = 0).
Proof.
  intros Hc Hu Hcs Hr Hd Hf Hs Hq.
  pose proof (startCampaign_accepts env id uid σ c Hc Hu Hr Hd Hf Hs) as Hstart.
  set (σ1 := <[id := setStatus running (preSave c)]> σ) in *.
  destruct (direct_run_closed env id uid settings σ1 (setStatus running (preSave c)))
    as (σ2 & Hrun & Hl).
  { unfold σ1. by rewrite lookup_insert_eq. }
  { done. }
  { simpl. by rewrite Hcs. }
  exists σ1, σ2. eexists. split; [done|]. split; [done|].
  split; [unfold startAndRun; by rewrite Hstart, Hrun|].
  split; [done|].
  simpl contacts in *. rewrite Hcs. simpl. done.
Qed.

Lemma empty_campaign_completes_witness :
  ∃ (σ1 σ2 : Store) c',
    startCampaign quietEnv "c1" "u1" (storeOf hollow) = (Ok started, σ1, true)
    ∧ processCampaignDirectly quietEnv "c1" "u1" σ1 = (Ok (), σ2)
    ∧ startAndRun quietEnv "c1" "u1" (storeOf hollow) = σ2
    ∧ σ2 !! "c1" = Some c'
    ∧ status c' = completed
    ∧ progress c' = progress hollow
    ∧ results c' = [] ∧ successCount c' = 0 ∧ failureCount c' = 0.
Proof.
  destruct (empty_campaign_completes quietEnv "c1" "u1" None (storeOf hollow) hollow)
    as (σ1 & σ2 & c' & H1 & H2 & H3 & H4 & H5 & H6 & H7);
    try (vm_compute; reflexivity); try discriminate.
  { repeat split; try reflexivity; lia. }
  exists σ1, σ2, c'. repeat (split; [assumption|]).
  apply H7; reflexivity.
Defined.

(** ** C1: leaving the loop on a pause *)

(** C1, as the code has it: when the status re-read for contact [k]
    finds the campaign paused, the loop is left with the first [k]
    contacts processed and nothing more is sent, but the statement after
    the loop still stores [completed], where C1 requires the stored
    status to stay [paused]. *)
Theorem pause_exit_marks_completed env id uid settings (σ : Store) c k :
  σ !! id = Some c → userId c = uid → status c = running →
  k < length (contacts c) →
  undisturbed env uid settings k →
  pauseBefore env k = true →
  storeFails env (Reread k) = false →
  ∃ (σ' : Store) c',
    processCampaignDirectly env id uid σ = (Ok (), σ')
    ∧ σ' !! id = Some c'
    ∧ status c' = completed
    ∧ results c' = results c ++ freshResults env settings c 0 (take k (contacts c))
    ∧ length (results c') = length (results c) + k.
Proof.
  intros Hc Hu Hst Hk (Hload & Hfinal & Hset & Hq) Hpause Hread.
  unfold processCampaignDirectly, runBody.
  rewrite Hload, findById_ok, Hc. simpl. rewrite Hset.
  pose proof (take_drop k (contacts c)) as Htd.
  destruct (drop k (contacts c)) as [|x rest] eqn:Hdrop.
  { apply (f_equal length) in Hdrop. rewrite length_drop in Hdrop.
    simpl in Hdrop. lia. }
  assert (length (take k (contacts c)) = k) as Hlen.
  { rewrite length_take. lia. }
  destruct (contactLoop_prefix env id uid settings (take k (contacts c)) (x :: rest) 0
              {| docId := id; fields := c; statusModified := false |} σ c)
    as (σ1 & p1 & Heq & Hp1 & [Hs1 _] & Hst1); try done.
  { rewrite Hst. discriminate. }
  { intros j Hj. apply Hq. lia. }
  rewrite Htd in Heq. rewrite Heq, Hlen. simpl.
  set (c1 := processed env settings 0 (take k (contacts c)) c) in *.
  assert (userId p1 = uid ∧ status p1 = running) as [Hu1 Hr1].
  { split; [|congruence]. rewrite <- Hu. unfold static in Hs1. simpl in Hs1.
    pose proof (processed_static env settings (take k (contacts c)) 0 c) as Hs.
    unfold static in Hs. injection Hs1; injection Hs; intros; congruence. }
  unfold served. rewrite Hpause.
  pose proof (pauseCampaign_running id uid σ1 p1 Hp1 Hu1 Hr1) as Hp2.
  set (σ2 := (pauseCampaign id uid σ1).2) in *.
  rewrite processContact_paused; [|done|by rewrite Hp2].
  rewrite Hfinal.
  set (d1 := assignStatus completed _).
  rewrite (save_ok d1 σ2 _ Hp2).
  eexists _, _. split; [done|]. change (docId d1) with id.
  rewrite lookup_insert_eq. split; [done|].
  rewrite (written_assigned d1) by done.
  simpl. fold c1. split; [done|]. unfold c1.
  rewrite processed_results. split; [done|].
  by rewrite length_app, length_freshResults, Hlen.
Qed.

(** At the failing input: three contacts, a pause request served after
    the first was recorded. *)
Lemma pause_exit_marks_completed_witness :
  ∃ (σ' : Store) c',
    processCampaignDirectly (pausingAt 1) "c1" "u1" (storeOf underway) = (Ok (), σ')
    ∧ σ' !! "c1" = Some c'
    ∧ status c' = completed
    ∧ results c'
      = results underway
        ++ freshResults (pausingAt 1) None underway 0 (take 1 (contacts underway))
    ∧ length (results c') = length (results underway) + 1.
Proof.
  apply (pause_exit_marks_completed (pausingAt 1) "c1" "u1" None
           (storeOf underway) underway 1); try (vm_compute; reflexivity).
  - simpl. lia.
  - repeat split; try reflexivity;
      destruct j as [|j]; try reflexivity; lia.
Defined.

(** ** Runs in an arbitrary environment *)

Section any_run.
Context (env : Env) (id uid : string).

Lemma progress_results c c' : progress c = progress c' → results c = results c'.
Proof. unfold progress. intros H. by injection H. Qed.

(** Whatever the environment does, the loop only appends to the stored
    results, one result at a time, numbered from the loop index. *)
Lemma contactLoop_appends settings todo : ∀ i d (σ : Store) p r (σ' : Store),
  σ !! id = Some p → docId d = id → statusModified d = false → inSync d p →
  contactLoop env id uid settings i todo d σ = (r, σ') →
  ∃ p' new,
    σ' !! id = Some p'
    ∧ results p' = results p ++ new
    ∧ contactId <$> new = pretty <$> seq i (length new)
    ∧ length new ≤ length todo
    ∧ static p' = static p
    ∧ match r with
      | Ok d' => docId d' = id ∧ statusModified d' = false ∧ inSync d' p'
      | Throw _ => True
      end.
Proof.
  induction todo as [|x rest IH]; intros i d σ p r σ' Hp Hid Hm Hs Hloop.
  - simpl in Hloop. inversion Hloop; subst. destruct Hs as [Hst Hpr].
    exists p, []. rewrite app_nil_r. by repeat split.
  - simpl in Hloop.
    destruct (served_lookup env id uid i σ p Hp) as (p1 & Hp1 & Hs1 & Hpr1 & _).
    set (σ1 := served env id uid i σ) in *.
    destruct Hs as [Hst Hpr].
    destruct (processContact env id settings i x d σ1) as [[ms d1]|] eqn:Hpc.
    + set (r0 := resultFor i x ms) in *.
      assert (docId d1 = id ∧ statusModified d1 = false
              ∧ static (fields d1) = static (fields d)
              ∧ results (fields d1) = results (fields d)) as (Hid1 & Hm1 & Hst1 & Hr1).
      { destruct (processContact_frame env id settings i x d σ1 ms d1 Hpc)
          as [-> | ->]; by repeat split. }
      set (dd := update (pushResult r0) d1) in *.
      destruct (save (storeFails env (SaveContact i)) dd σ1) as [[d2|msg] σ2] eqn:Hsave.
      * apply save_lookup in Hsave as (p0 & Hp0 & Hp2 & ->).
        change (docId dd) with (docId d1) in *. rewrite Hid1 in *.
        assert (p0 = p1) as -> by congruence.
        apply IH with (p := written dd p1) in Hloop; try done.
        2:{ split; [|done].
            change (static (fields d1) = static p1). congruence. }
        destruct Hloop as (p' & new & Hp' & Hres & Hids & Hlen & Hst' & Hr).
        exists p', (r0 :: new). split; [done|]. split.
        { rewrite Hres. simpl. rewrite Hr1, (progress_results _ _ Hpr).
          by rewrite <- app_assoc. }
        split.
        { rewrite fmap_cons. simpl length. rewrite <- cons_seq, fmap_cons.
          by rewrite Hids. }
        split; [simpl; lia|]. split; [|done].
        rewrite Hst', written_static. congruence.
      * apply save_throw in Hsave as ->. inversion Hloop; subst.
        exists p1, []. rewrite app_nil_r.
        split; [done|]. split; [by apply progress_results|].
        repeat split; [simpl; lia|done].
    + inversion Hloop; subst. exists p1, []. rewrite app_nil_r.
      split; [done|]. split; [by apply progress_results|].
      repeat split; try done; [simpl; lia|congruence..].
Qed.

Lemma runBody_appends (σ : Store) c r (σ1 : Store) :
  σ !! id = Some c →
  runBody env id uid σ = (r, σ1) →
  ∃ p1 new,
    σ1 !! id = Some p1
    ∧ results p1 = results c ++ new
    ∧ contactId <$> new = pretty <$> seq 0 (length new)
    ∧ length new ≤ length (contacts c)
    ∧ static p1 = static c.
Proof.
  intros Hc. unfold runBody, findById.
  assert (∃ p1 new, σ !! id = Some p1 ∧ results p1 = results c ++ new
            ∧ contactId <$> new = pretty <$> seq 0 (length new)
            ∧ length new ≤ length (contacts c) ∧ static p1 = static c) as Hsame.
  { exists c, []. rewrite app_nil_r. repeat split; try done. simpl; lia. }
  destruct (storeFails env Load); [inversion 1; by subst|].
  rewrite Hc. simpl.
  destruct (findSettings env uid) as [settings|msg]; [|inversion 1; by subst].
  destruct (contactLoop env id uid settings 0 (contacts c) _ σ) as [[d1|msg] σ2] eqn:Hloop.
  - apply contactLoop_appends with (p := c) in Hloop as
      (p' & new & Hp' & Hres & Hids & Hlen & Hst & Hid1 & Hm1 & Hs1 & Hpr1); try done.
    destruct (save (storeFails env SaveFinal) (assignStatus completed d1) σ2)
      as [[d2|msg] σ3] eqn:Hsave.
    + apply save_lookup in Hsave as (p0 & Hp0 & Hp2 & _).
      change (docId (assignStatus completed d1)) with (docId d1) in *.
      rewrite Hid1 in *. inversion 1; subst.
      eexists _, new. split; [done|]. rewrite written_static.
      split; [|by repeat split; try congruence].
      change (results (written _ p0)) with (results (fields d1)).
      rewrite (progress_results _ _ Hpr1). congruence.
    + apply save_throw in Hsave as ->. inversion 1; subst. by exists p', new.
  - apply contactLoop_appends with (p := c) in Hloop as
      (p' & new & Hp' & Hres & Hids & Hlen & Hst & _); try done.
    inversion 1; subst. by exists p', new.
Qed.

Lemma recover_lookup (σ1 : Store) p1 r (σ' : Store) :
  σ1 !! id = Some p1 →
  recover env id σ1 = (r, σ') →
  ∃ c', σ' !! id = Some c' ∧ static c' = static p1 ∧ progress c' = progress p1.
Proof.
  intros Hp1. unfold recover, findById.
  destruct (storeFails env RecoverLoad); [inversion 1; subst; by eauto|].
  rewrite Hp1. simpl.
  destruct (save _ _ σ1) as [[d2|msg] σ2] eqn:Hsave.
  - apply save_lookup in Hsave as (p0 & Hp0 & Hp2 & _). simpl in *.
    assert (p0 = p1) as -> by congruence.
    inversion 1; subst. eexists. split; [done|]. by split.
  - apply save_throw in Hsave as ->. inversion 1; subst. by eauto.
Qed.

Lemma processCampaignDirectly_appends (σ : Store) c :
  σ !! id = Some c →
  ∃ c' new,
    (processCampaignDirectly env id uid σ).2 !! id = Some c'
    ∧ results c' = results c ++ new
    ∧ contactId <$> new = pretty <$> seq 0 (length new)
    ∧ length new ≤ length (contacts c)
    ∧ static c' = static c.
Proof.
  intros Hc. unfold processCampaignDirectly.
  destruct (runBody env id uid σ) as [[[]|msg] σ1] eqn:Hbody;
    apply runBody_appends with (c := c) in Hbody as
      (p1 & new & Hp1 & Hres & Hids & Hlen & Hst); try done.
  - by exists p1, new.
  - destruct (recover env id σ1) as [r σ'] eqn:Hrec.
    apply recover_lookup with (p1 := p1) in Hrec as (c' & Hc' & Hs' & Hpr'); [|done].
    exists c', new. simpl. split; [done|].
    rewrite (progress_results _ _ Hpr'). split; [done|]. by rewrite Hs'.
Qed.

End any_run.

(** ** C3: growth of the results, and starting again *)

Lemma startCampaign_lookup env id uid (σ : Store) c :
  σ !! id = Some c →
  ∃ c1, (startCampaign env id uid σ).1.2 !! id = Some c1
        ∧ static c1 = static c ∧ progress c1 = progress c.
Proof.
  intros Hc. unfold startCampaign, findOne.
  destruct (storeFails env StartFind); [by eauto|].
  rewrite Hc. case_bool_decide; [|by eauto]. simpl.
  unfold save. simpl. rewrite Hc.
  destruct (status c), (storeFails env StartSave); simpl; eauto;
    rewrite lookup_insert_eq; by eauto.
Qed.

(** A start request and its run only append to the stored results. *)
Lemma startAndRun_appends env id uid (σ : Store) c :
  σ !! id = Some c →
  ∃ c' new,
    startAndRun env id uid σ !! id = Some c'
    ∧ results c' = results c ++ new
    ∧ contactId <$> new = pretty <$> seq 0 (length new)
    ∧ length new ≤ length (contacts c).
Proof.
  intros Hc.
  destruct (startCampaign_lookup env id uid σ c Hc) as (c1 & Hc1 & Hs1 & Hpr1).
  unfold startAndRun.
  destruct (startCampaign env id uid σ) as [[r σ1] []]; simpl in Hc1.
  - destruct (processCampaignDirectly_appends env id uid σ1 c1 Hc1)
      as (c' & new & Hc' & Hres & Hids & Hlen & _).
    exists c', new. split; [done|].
    rewrite Hres, (progress_results _ _ Hpr1). repeat split; try done.
    unfold static in Hs1. injection Hs1 as _ _ _ Hcs _. by rewrite <- Hcs.
  - exists c1, []. rewrite app_nil_r.
    split; [done|]. split; [by apply progress_results|].
    split; [done|]. simpl; lia.
Qed.

(** An accepted start followed by an undisturbed run, in closed form. *)
Lemma startAndRun_closed env id uid settings (σ : Store) c :
  σ !! id = Some c → userId c = uid →
  status c ≠ running → status c ≠ completed →
  storeFails env StartFind = false → storeFails env StartSave = false →
  undisturbed env uid settings (length (contacts c)) →
  ∃ c', startAndRun env id uid σ !! id = Some c'
        ∧ status c' = completed
        ∧ results c' = results c ++ freshResults env settings c 0 (contacts c).
Proof.
  intros Hc Hu Hr Hd Hf Hs Hq. unfold startAndRun.
  rewrite (startCampaign_accepts env id uid σ c) by done.
  destruct (direct_run_closed env id uid settings
              (<[id := setStatus running (preSave c)]> σ)
              (setStatus running (preSave c))) as (σ' & Hrun & Hl);
    [by rewrite lookup_insert_eq|done|done|].
  rewrite Hrun. simpl. rewrite Hl. eexists. split; [done|]. split; [done|].
  simpl. by rewrite processed_results.
Qed.

(** C3 (amended): a start request and the run it launches only ever
    append to the stored results, whatever the environment does; the
    results a run appends are numbered from contact index 0, at most one
    per contact.  Started again on a paused campaign that holds [k]
    results and not disturbed, the run processes every contact from
    index 0 again and ends completed with [k + totalContacts] results. *)
Theorem results_grow_and_restart_from_zero env id uid settings (σ : Store) c :
  σ !! id = Some c →
  ∃ c' new,
    startAndRun env id uid σ !! id = Some c'
    ∧ results c' = results c ++ new
    ∧ contactId <$> new = pretty <$> seq 0 (length new)
    ∧ length new ≤ length (contacts c)
    ∧ (status c = paused → userId c = uid →
       storeFails env StartFind = false → storeFails env StartSave = false →
       undisturbed env uid settings (length (contacts c)) →
       new = freshResults env settings c 0 (contacts c)
       ∧ status c' = completed
       ∧ length (results c') = length (results c) + length (contacts c)).
Proof.
  intros Hc.
  destruct (startAndRun_appends env id uid σ c Hc)
    as (c' & new & Hc' & Hres & Hids & Hlen).
  exists c', new.
  split; [done|]. split; [done|]. split; [done|]. split; [done|].
  intros Hst Hu Hf Hs Hq.
  destruct (startAndRun_closed env id uid settings σ c) as (c2 & Hc2 & Hst2 & Hres2);
    try done; try (rewrite Hst; discriminate).
  assert (c2 = c') as -> by congruence.
  assert (new = freshResults env settings c 0 (contacts c)) as ->.
  { rewrite Hres2 in Hres. by apply app_inv_head in Hres. }
  split; [done|]. split; [done|].
  by rewrite Hres, length_app, length_freshResults.
Qed.

Lemma results_grow_and_restart_from_zero_witness :
  ∃ c' new,
    startAndRun quietEnv "c1" "u1" (storeOf parkedMidway) !! "c1" = Some c'
    ∧ results c' = results parkedMidway ++ new
    ∧ contactId <$> new = pretty <$> seq 0 (length new)
    ∧ length new ≤ length (contacts parkedMidway)
    ∧ new = freshResults quietEnv None parkedMidway 0 (contacts parkedMidway)
    ∧ status c' = completed
    ∧ length (results c')
      = length (results parkedMidway) + length (contacts parkedMidway).
Proof.
  destruct (results_grow_and_restart_from_zero quietEnv "c1" "u1" None
              (storeOf parkedMidway) parkedMidway)
    as (c' & new & Hc' & Hres & Hids & Hlen & Hrestart).
  { vm_compute; reflexivity. }
  exists c', new. repeat (split; [assumption|]).
  apply Hrestart; try reflexivity. repeat split; reflexivity.
Defined.

(** C3 as stated fails: the campaign parked after its first of two
    contacts, started again, gets a second result for contact 0 and ends
    with more results than contacts. *)
Lemma restart_reprocesses_contact_zero :
  ∃ c', startAndRun quietEnv "c1" "u1" (storeOf parkedMidway) !! "c1" = Some c'
        ∧ contactId <$> results c' = ["0"; "0"; "1"]
        ∧ totalContacts c' = 2
        ∧ length (results c') = 3.
Proof.
  eexists. split; [vm_compute; reflexivity|]. by vm_compute.
Qed.

(** ** C8: exceptions that leave the outer try *)

(** C8 (amended): when an exception leaves the body of the outer [try]
    and the recovery's own re-load and save succeed, the run stops with
    the stored status set to [paused] and the tallies as the body left
    them. *)
Theorem escaped_exception_parks_campaign env id uid (σ : Store) c msg :
  σ !! id = Some c →
  (runBody env id uid σ).1 = Throw msg →
  storeFails env RecoverLoad = false →
  storeFails env RecoverSave = false →
  ∃ (σ' : Store) p1 c',
    processCampaignDirectly env id uid σ = (Ok (), σ')
    ∧ (runBody env id uid σ).2 !! id = Some p1
    ∧ σ' !! id = Some c'
    ∧ status c' = paused
    ∧ progress c' = progress p1.
Proof.
  intros Hc Hthrow Hload Hsave. unfold processCampaignDirectly.
  destruct (runBody env id uid σ) as [r σ1] eqn:Hbody. simpl in Hthrow. subst r.
  destruct (runBody_appends env id uid σ c _ _ Hc Hbody) as (p1 & new & Hp1 & _).
  unfold recover. rewrite Hload, findById_ok, Hp1. simpl. rewrite Hsave.
  unfold save. simpl. rewrite Hp1.
  eexists _, p1, _. split; [done|]. split; [done|].
  rewrite lookup_insert_eq. by split.
Qed.

(** The save after the second contact rejects; the store is back for
    the recovery. *)
Lemma escaped_exception_parks_campaign_witness :
  ∃ (σ' : Store) p1 c',
    processCampaignDirectly (failingSaveAt 1) "c1" "u1" (storeOf underway) = (Ok (), σ')
    ∧ (runBody (failingSaveAt 1) "c1" "u1" (storeOf underway)).2 !! "c1" = Some p1
    ∧ σ' !! "c1" = Some c'
    ∧ status c' = paused
    ∧ progress c' = progress p1.
Proof.
  apply (escaped_exception_parks_campaign (failingSaveAt 1) "c1" "u1"
           (storeOf underway) underway "store unavailable");
    vm_compute; reflexivity.
Defined.

(** C8 as stated fails when the store stays unavailable: the save after
    the first contact rejects, the exception leaves the per-contact
    block and the outer try, the recovery's re-load rejects as well, and
    the campaign is left running. *)
Lemma outage_leaves_campaign_running :
  (runBody outage "c1" "u1" (storeOf underway)).1 = Throw "store unavailable"
  ∧ (processCampaignDirectly outage "c1" "u1" (storeOf underway)).1
    = Throw "store unavailable"
  ∧ ∃ c', (processCampaignDirectly outage "c1" "u1" (storeOf underway)).2 !! "c1"
          = Some c'
          ∧ status c' = running.
Proof.
  split; [vm_compute; reflexivity|]. split; [vm_compute; reflexivity|].
  eexists. split; [vm_compute; reflexivity|]. reflexivity.
Qed.

(** ** C9 and C5: a status re-read that rejects *)

(** C9: when the per-contact block throws before any method result is
    recorded (its status re-read rejects), the loop still appends a
    result for that contact, with no methods and overall status
    [success], bumps [failureCount] and not [successCount], saves, and
    goes on with the next contact. *)
Theorem unreadable_status_yields_empty_success env id uid settings i x rest d
    (σ : Store) p :
  served env id uid i σ !! id = Some p →
  docId d = id →
  storeFails env (Reread i) = true →
  storeFails env (SaveContact i) = false →
  ∃ d2 (σ2 : Store) p2,
    contactLoop env id uid settings i (x :: rest) d σ
    = contactLoop env id uid settings (S i) rest d2 σ2
    ∧ σ2 !! id = Some p2
    ∧ results p2
      = results (fields d)
        ++ [{| contactId := pretty i; contactName := name x; methods := [];
               overallStatus := Overall.success |}]
    ∧ failureCount p2 = S (failureCount (fields d))
    ∧ successCount p2 = successCount (fields d)
    ∧ progress (fields d2) = progress p2.
Proof.
  intros Hp <- Hr Hs. simpl.
  rewrite processContact_unreadable by done. rewrite Hs.
  set (dd := update (pushResult _) _).
  rewrite (save_ok dd _ p) by done.
  eexists _, _, _. split; [done|].
  change (docId dd) with (docId d). rewrite lookup_insert_eq.
  split; [done|]. by repeat split.
Qed.

Lemma unreadable_status_yields_empty_success_witness :
  ∃ d2 (σ2 : Store) p2,
    contactLoop (unreadableAt 0) "c1" "u1" None 0 [alice]
      {| docId := "c1"; fields := single; statusModified := false |} (storeOf single)
    = contactLoop (unreadableAt 0) "c1" "u1" None 1 [] d2 σ2
    ∧ σ2 !! "c1" = Some p2
    ∧ results p2
      = results single
        ++ [{| contactId := pretty 0; contactName := name alice; methods := [];
               overallStatus := Overall.success |}]
    ∧ failureCount p2 = S (failureCount single)
    ∧ successCount p2 = successCount single
    ∧ progress (fields d2) = progress p2.
Proof.
  apply (unreadable_status_yields_empty_success (unreadableAt 0) "c1" "u1" None 0
           alice [] {| docId := "c1"; fields := single; statusModified := false |}
           (storeOf single) single);
    vm_compute; reflexivity.
Defined.

(** C5 at its failing input: the one contact has a phone number and the
    gateway would accept the send, but the status re-read rejects.  The
    stored result says [success] although no method succeeded (none was
    attempted), and the contact is tallied under [failureCount]. *)
Theorem unreadable_status_breaks_tally :
  ∃ c', (processCampaignDirectly (unreadableAt 0) "c1" "u1" (storeOf single)).2 !! "c1"
        = Some c'
        ∧ results c'
          = [{| contactId := "0"; contactName := "A"; methods := [];
                overallStatus := Overall.success |}]
        ∧ successCount c' = 0
        ∧ failureCount c' = 1.
Proof.
  eexists. split; [vm_compute; reflexivity|]. by vm_compute.
Qed.

(** For a contact whose block runs through, the tally does follow the
    recorded overall status. *)
Lemma normal_contact_tally env id settings i x d (σ : Store) :
  storeFails env (Reread i) = false →
  status <$> σ !! id ≠ Some paused →
  ∃ ms d1,
    processContact env id settings i x d σ = Some (ms, d1)
    ∧ ms = map (entryOf env settings (messageTemplate (fields d)) i x)
             (methodsToExecute (type (fields d)))
    ∧ (overallOf ms = Overall.success ↔ ∀ e, e ∈ ms → mstatus e = Method.sent)
    ∧ (overallOf ms = Overall.failed ↔ ∀ e, e ∈ ms → mstatus e ≠ Method.sent)
    ∧ fields d1 = counted (overallOf ms) (fields d).
Proof.
  intros Hr Hst. eexists _, _. split; [by apply processContact_normal|].
  split; [done|]. simpl. set (ms := map _ _).
  assert (forallb isSent ms = true ↔ ∀ e, e ∈ ms → mstatus e = Method.sent) as Hall.
  { rewrite forallb_forall. unfold isSent.
    split; intros H e He.
    - apply list_elem_of_In in He. by apply H, bool_decide_eq_true in He.
    - apply bool_decide_eq_true, H. by apply list_elem_of_In. }
  assert (existsb isSent ms = false ↔ ∀ e, e ∈ ms → mstatus e ≠ Method.sent) as Hnone.
  { rewrite <- not_true_iff_false, existsb_exists. unfold isSent.
    split.
    - intros H e He Hs. apply H. exists e. split; [by apply list_elem_of_In|].
      by apply bool_decide_eq_true.
    - intros H (e & He & Hs). apply bool_decide_eq_true in Hs.
      by apply (H e); [apply list_elem_of_In|]. }
  unfold overallOf. split; [|split; [|done]].
  - rewrite <- Hall. destruct (forallb isSent ms); [done|].
    by destruct (existsb isSent ms).
  - rewrite <- Hnone. destruct (forallb isSent ms) eqn:Hf.
    + split; [done|]. intros He. destruct ms as [|e ms'] eqn:Hms.
      * unfold ms in Hms. by destruct (type (fields d)).
      * simpl in Hf, He. apply andb_true_iff in Hf as [Hf _].
        rewrite Hf in He. done.
    + by destruct (existsb isSent ms).
Qed.

(** ** The queue path without disturbance *)

Arguments save : simpl never.

Section queue.
Context (env : Env) (id uid : string).

Lemma jobsFrom_cons tmpl t i x todo :
  jobsFrom id uid tmpl t i (x :: todo)
  = jobFor id uid tmpl t i x :: jobsFrom id uid tmpl t (S i) todo.
Proof.
  unfold jobsFrom. rewrite imap_cons, Nat.add_0_r. f_equal.
  apply imap_ext. intros k y _. simpl. by rewrite Nat.add_succ_r.
Qed.

Lemma addJobs_ok addFails mk todo : ∀ i queue,
  (∀ k, k < length todo → addFails (i + k) = false) →
  addJobs addFails mk i todo queue
  = (Ok (), queue ++ imap (λ k x, mk (i + k) x) todo).
Proof.
  induction todo as [|x todo IH]; intros i queue Hf; simpl.
  - by rewrite app_nil_r.
  - pose proof (Hf 0) as H0. rewrite Nat.add_0_r in H0.
    rewrite H0 by (simpl; lia).
    rewrite IH, <- app_assoc, Nat.add_0_r.
    + do 3 f_equal. apply imap_ext. intros k y _. simpl. by rewrite Nat.add_succ_r.
    + intros k Hk. rewrite Nat.add_succ_comm. apply Hf. simpl. lia.
Qed.

(** The 'start-campaign' job when neither the store nor the queue fails. *)
Lemma startCampaignJob_ok addFails (σ : Store) queue c :
  σ !! id = Some c →
  storeFails env JobStartLoad = false →
  storeFails env JobStartSave = false →
  (∀ i, i < length (contacts c) → addFails i = false) →
  startCampaignJob env addFails id uid (σ, queue)
  = (Ok (length (contacts c)),
     (<[id := setStatus running (preSave c)]> σ,
      queue ++ jobsFrom id uid (messageTemplate c) (type c) 0 (contacts c))).
Proof.
  intros Hc Hl Hs Hf. unfold startCampaignJob. cbn [fst snd].
  rewrite Hl, findById_ok, Hc. simpl. rewrite Hs.
  erewrite save_ok by (simpl; exact Hc). simpl.
  by rewrite addJobs_ok.
Qed.

(** With a queue that accepts every add, a 'start-campaign' job that
    throws has changed nothing. *)
Lemma startCampaignJob_throw (s : Store * list Job) msg s' :
  startCampaignJob env (λ _, false) id uid s = (Throw msg, s') → s' = s.
Proof.
  destruct s as [σ queue]. unfold startCampaignJob, findById. cbn [fst snd].
  destruct (storeFails env JobStartLoad); [by inversion 1|].
  destruct (σ !! id); simpl; [|by inversion 1].
  destruct (save _ _ σ) as [[d2|m] σ2] eqn:Hsave.
  - rewrite addJobs_ok by done. by inversion 1.
  - apply save_throw in Hsave as ->. by inversion 1.
Qed.

(** One single-channel job on a campaign that is not paused. *)
Lemma processContactJob_step (j : ContactJobData) m (σ : Store) p :
  σ !! campaignId j = Some p →
  status p ≠ paused →
  campaignType j = OneOf m →
  storeFails env (JobLoad (contactIndex j)) = false →
  storeFails env (JobSave (contactIndex j)) = false →
  ∃ ret,
    processContactJob env j σ
    = (Ok ret, <[campaignId j := jobStep env j m p]> σ).
Proof.
  intros Hp Hst Ht Hl Hs. unfold processContactJob.
  rewrite Hl, findById_ok, Hp, Ht. simpl. rewrite Hs.
  assert (∀ A (a b : A), match status p with paused => a | _ => b end = b) as Hm.
  { intros. destruct (status p); congruence. }
  rewrite Hm. unfold jobStep, jobResult, validateMethod.
  destruct (attemptJob env j) as [r|msg]; simpl;
    rewrite length_app, Nat.add_1_r;
    destruct (_ <=? _) eqn:Hle; simpl;
    (erewrite save_ok by (simpl; exact Hp)); simpl;
    eexists; f_equal; f_equal; unfold written; simpl;
    by destruct p.
Qed.

Lemma jobStep_static j m p : static (jobStep env j m p) = static p.
Proof.
  unfold jobStep. rewrite static_preSave.
  case_match; rewrite ?static_setStatus, static_pushResult; apply static_counted.
Qed.

Lemma jobStep_contacts j m p : contacts (jobStep env j m p) = contacts p.
Proof.
  pose proof (jobStep_static j m p) as Hs. unfold static in Hs.
  injection Hs as _ _ _ Hcs _. exact Hcs.
Qed.

Lemma jobStep_results j m p :
  results (jobStep env j m p) = results p ++ [jobResult env j m].
Proof.
  unfold jobStep. case_match; simpl; by destruct (attemptJob env j).
Qed.

Lemma jobStep_totalContacts j m p :
  totalContacts (jobStep env j m p) = length (contacts p).
Proof.
  unfold jobStep. case_match; simpl; by destruct (attemptJob env j).
Qed.

Lemma jobStep_successCount j m p :
  successCount (jobStep env j m p)
  = successCount p + tally succeededb [jobResult env j m].
Proof.
  unfold jobStep, tally, succeededb.
  case_match; simpl; destruct (attemptJob env j); simpl; lia.
Qed.

Lemma jobStep_failureCount j m p :
  failureCount (jobStep env j m p)
  = failureCount p + tally (λ r, negb (succeededb r)) [jobResult env j m].
Proof.
  unfold jobStep, tally, succeededb.
  case_match; simpl; destruct (attemptJob env j); simpl; lia.
Qed.

Lemma jobStep_status j m p :
  status (jobStep env j m p)
  = if totalContacts p <=? S (length (results p)) then completed else status p.
Proof.
  unfold jobStep.
  assert (∀ r c, totalContacts (pushResult r (counted (overallStatus r) c))
                 = totalContacts c) as Ht.
  { intros r c. by destruct (overallStatus r). }
  assert (∀ r c, length (results (pushResult r (counted (overallStatus r) c)))
                 = S (length (results c))) as Hl.
  { intros r c. destruct (overallStatus r); simpl; rewrite length_app; simpl; lia. }
  rewrite Ht, Hl. case_match; simpl; [done|].
  by destruct (attemptJob env j).
Qed.

End queue.

Section queue_run.
Context (env : Env) (id uid : string) (tmpl : IMessageTemplate) (m : Channel).

Lemma queued_static todo : ∀ i p,
  static (queued env id uid tmpl m i todo p) = static p.
Proof.
  induction todo as [|x todo IH]; intros i p; simpl; [done|].
  by rewrite IH, jobStep_static.
Qed.

Lemma queueResults_cons i x todo :
  queueResults env id uid tmpl m i (x :: todo)
  = jobResult env (data (jobFor id uid tmpl (OneOf m) i x)) m
    :: queueResults env id uid tmpl m (S i) todo.
Proof.
  unfold queueResults. rewrite imap_cons, Nat.add_0_r. f_equal.
  apply imap_ext. intros k y _. simpl. by rewrite Nat.add_succ_r.
Qed.

Lemma length_queueResults i todo :
  length (queueResults env id uid tmpl m i todo) = length todo.
Proof. unfold queueResults. by rewrite length_imap. Qed.

Lemma queueResults_lookup i todo k x :
  todo !! k = Some x →
  queueResults env id uid tmpl m i todo !! k
  = Some (jobResult env (data (jobFor id uid tmpl (OneOf m) (i + k) x)) m).
Proof. intros Hk. unfold queueResults. by rewrite list_lookup_imap, Hk. Qed.

Lemma queued_results todo : ∀ i p,
  results (queued env id uid tmpl m i todo p)
  = results p ++ queueResults env id uid tmpl m i todo.
Proof.
  induction todo as [|x todo IH]; intros i p; simpl.
  - by rewrite app_nil_r.
  - by rewrite IH, jobStep_results, queueResults_cons, <- app_assoc.
Qed.

Lemma queued_successCount todo : ∀ i p,
  successCount (queued env id uid tmpl m i todo p)
  = successCount p + tally succeededb (queueResults env id uid tmpl m i todo).
Proof.
  induction todo as [|x todo IH]; intros i p; cbn [queued].
  - unfold tally. simpl. lia.
  - rewrite IH, jobStep_successCount, queueResults_cons.
    rewrite (tally_cons _ _ (queueResults _ _ _ _ _ _ _)). lia.
Qed.

Lemma queued_failureCount todo : ∀ i p,
  failureCount (queued env id uid tmpl m i todo p)
  = failureCount p
    + tally (λ r, negb (succeededb r)) (queueResults env id uid tmpl m i todo).
Proof.
  induction todo as [|x todo IH]; intros i p; cbn [queued].
  - unfold tally. simpl. lia.
  - rewrite IH, jobStep_failureCount, queueResults_cons.
    rewrite (tally_cons _ _ (queueResults _ _ _ _ _ _ _)). lia.
Qed.

Lemma jobStep_not_paused j p :
  status p ≠ paused → status (jobStep env j m p) ≠ paused.
Proof. intros Hst. rewrite jobStep_status. by case_match. Qed.

(** Completion by count: the last job of a pass that brings the results
    up to [totalContacts] stores [completed]. *)
Lemma queued_status todo : ∀ i p,
  todo ≠ [] →
  totalContacts p = length (contacts p) →
  length (contacts p) ≤ length (results p) + length todo →
  status (queued env id uid tmpl m i todo p) = completed.
Proof.
  induction todo as [|x todo IH]; intros i p Hne Ht Hlen; [done|].
  cbn [queued]. set (j := data (jobFor id uid tmpl (OneOf m) i x)).
  pose proof (jobStep_contacts env j m p) as Hcs.
  destruct todo as [|y todo].
  - cbn [queued]. rewrite jobStep_status.
    rewrite (proj2 (Nat.leb_le _ _)); [done|]. simpl in Hlen. lia.
  - apply IH; [done| |].
    + by rewrite jobStep_totalContacts, Hcs.
    + rewrite Hcs, jobStep_results, length_app. simpl in *. lia.
Qed.

Lemma runContactJobs_closed todo : ∀ i p (σ : Store),
  σ !! id = Some p →
  status p ≠ paused →
  (∀ j, i ≤ j < i + length todo →
        storeFails env (JobLoad j) = false
        ∧ storeFails env (JobSave j) = false
        ∧ pauseBefore env j = false) →
  runContactJobs env (jobsFrom id uid tmpl (OneOf m) i todo) σ !! id
  = Some (queued env id uid tmpl m i todo p).
Proof.
  induction todo as [|x todo IH]; intros i p σ Hp Hst Hq; [done|].
  rewrite jobsFrom_cons. cbn [runContactJobs].
  destruct (Hq i) as (Hl & Hs & Hpa); [simpl; lia|].
  set (j := data (jobFor id uid tmpl (OneOf m) i x)).
  change (campaignId j) with id. change (jobUserId j) with uid.
  change (contactIndex j) with i.
  rewrite served_quiet by done.
  destruct (processContactJob_step env j m σ p) as [ret Hjob]; try done.
  unfold attempts. cbn [retry]. rewrite Hjob. cbn [snd].
  change (campaignId j) with id.
  apply IH.
  - by rewrite lookup_insert_eq.
  - by apply jobStep_not_paused.
  - intros k Hk. apply Hq. simpl. lia.
Qed.

End queue_run.

(** The queue path on a single-channel campaign, in closed form. *)
Lemma queuePath_closed env id uid (σ : Store) c m :
  σ !! id = Some c →
  type c = OneOf m →
  queueUndisturbed env (length (contacts c)) →
  (∀ j, j < length (contacts c) → pauseBefore env j = false) →
  queuePath env id uid σ !! id
  = Some (queued env id uid (messageTemplate c) m 0 (contacts c)
            (setStatus running (preSave c))).
Proof.
  intros Hc Ht (Hl & Hs & Hq) Hpa. unfold queuePath, attempts. cbn [retry].
  rewrite (startCampaignJob_ok env id uid (λ _, false) σ [] c) by done.
  cbn [fst snd app].
  rewrite Ht.
  apply (runContactJobs_closed env id uid (messageTemplate c) m (contacts c) 0
           (setStatus running (preSave c))).
  - by rewrite lookup_insert_eq.
  - done.
  - intros j Hj. destruct (Hq j) as [? ?]; [lia|].
    repeat split; try done. apply Hpa. lia.
Qed.

(** ** C2: the two paths side by side *)

Section agreement.
Context (env : Env) (id uid : string) (tmpl : IMessageTemplate) (m : Channel).

(** On a single channel both paths send the same request or both refuse;
    only the wording of a refusal may differ. *)
Lemma attempt_agree settings i x :
  findSettings env uid = Ok settings →
  (m = call → callReady settings) →
  match attempt env settings tmpl i x m,
        attemptJob env (data (jobFor id uid tmpl (OneOf m) i x)) with
  | Ok r, Ok r' => r = r'
  | Throw _, Throw _ => True
  | _, _ => False
  end.
Proof.
  intros Hsettings Hready.
  unfold attempt, attemptJob. simpl. destruct m.
  - destruct (truthy (phone x)); [|done]. by destruct (sendSMS _ _ _ _).
  - destruct (truthy (mail x)); [|done]. by destruct (sendEmail _ _ _ _ _ _).
  - destruct (truthy (phone x)); [|done]. rewrite Hsettings.
    destruct settings as [st|]; [|done].
    destruct (Hready eq_refl) as [Hd Ha].
    rewrite !bool_decide_eq_false_2 by done. simpl.
    by destruct (makeOutboundCall _ _ _ _ _).
Qed.

Lemma result_shape_agree settings i x :
  findSettings env uid = Ok settings →
  (m = call → callReady settings) →
  shape (jobResult env (data (jobFor id uid tmpl (OneOf m) i x)) m)
  = shape (normalResult env settings tmpl (OneOf m) i x).
Proof.
  intros Hsettings Hready.
  pose proof (attempt_agree settings i x Hsettings Hready) as H.
  unfold jobResult, normalResult, resultFor, shape, entryOf. simpl.
  destruct (attempt env settings tmpl i x m) as [r|msg],
           (attemptJob env _) as [r'|msg']; try done.
  by subst.
Qed.

Lemma shape_succeededb r r' : shape r = shape r' → succeededb r = succeededb r'.
Proof. unfold shape, succeededb. intros H. injection H as _ _ _ ->. done. Qed.

Lemma results_shape_agree settings (c : ICampaign) todo : ∀ i,
  findSettings env uid = Ok settings →
  (m = call → callReady settings) →
  messageTemplate c = tmpl → type c = OneOf m →
  shape <$> queueResults env id uid tmpl m i todo
  = shape <$> freshResults env settings c i todo
  ∧ tally succeededb (queueResults env id uid tmpl m i todo)
    = tally succeededb (freshResults env settings c i todo)
  ∧ tally (λ r, negb (succeededb r)) (queueResults env id uid tmpl m i todo)
    = tally (λ r, negb (succeededb r)) (freshResults env settings c i todo).
Proof.
  intros i Hsettings Hready Htm Ht. revert i.
  induction todo as [|x todo IH]; intros i; [done|].
  destruct (IH (S i)) as (IH1 & IH2 & IH3).
  rewrite queueResults_cons, freshResults_cons, Htm, Ht.
  pose proof (result_shape_agree settings i x Hsettings Hready) as Hsh.
  pose proof (shape_succeededb _ _ Hsh) as Hsu.
  rewrite !fmap_cons, Hsh, IH1.
  rewrite (tally_cons succeededb _ (queueResults _ _ _ _ _ _ _)).
  rewrite (tally_cons succeededb _ (freshResults _ _ _ _ _)).
  rewrite (tally_cons (λ r, negb (succeededb r)) _ (queueResults _ _ _ _ _ _ _)).
  rewrite (tally_cons (λ r, negb (succeededb r)) _ (freshResults _ _ _ _ _)).
  rewrite IH2, IH3, !tally_singleton, Hsu. done.
Qed.

End agreement.

(** C2 (amended): for a campaign of a single channel with at least one
    contact, not paused, with no pause request and no store fault on
    either path, the same gateway answers and voice settings that are
    complete or absent, the queue path and the direct path leave the same
    outcome: one result per contact in contact-list order with the same
    contact, channel, method status, response and overall status (the
    wording of a failure may differ), the same counters, and status
    [completed]. *)
Theorem single_channel_paths_agree env id uid settings (σ : Store) c m :
  σ !! id = Some c →
  type c = OneOf m →
  contacts c ≠ [] →
  status c ≠ paused →
  undisturbed env uid settings (length (contacts c)) →
  queueUndisturbed env (length (contacts c)) →
  (m = call → callReady settings) →
  ∃ cq cd,
    queuePath env id uid σ !! id = Some cq
    ∧ (processCampaignDirectly env id uid σ).2 !! id = Some cd
    ∧ shape <$> results cq = shape <$> results cd
    ∧ contactId <$> results cd
      = (contactId <$> results c) ++ (pretty <$> seq 0 (length (contacts c)))
    ∧ status cq = completed ∧ status cd = completed
    ∧ successCount cq = successCount cd
    ∧ failureCount cq = failureCount cd.
Proof.
  intros Hc Ht Hne Hst Hu Hqu Hready.
  pose proof Hu as (_ & _ & Hset & Hq).
  destruct (direct_run_closed env id uid settings σ c) as (σd & Hrun & Hd); try done.
  rewrite Hrun. simpl.
  rewrite (queuePath_closed env id uid σ c m) by (try done; intros j Hj; by apply Hq).
  eexists _, _. split; [done|]. split; [done|].
  destruct (results_shape_agree env id uid (messageTemplate c) m settings
              c (contacts c) 0 Hset Hready eq_refl Ht) as (Hsh & Hok & Hko).
  simpl.
  rewrite queued_results, queued_successCount, queued_failureCount.
  rewrite processed_results, processed_successCount, processed_failureCount.
  simpl. rewrite !fmap_app, Hsh, Hok, Hko, freshResults_ids.
  repeat split; try done.
  apply queued_status; [done|done|]. simpl. lia.
Qed.

Lemma single_channel_paths_agree_witness :
  ∃ cq cd,
    queuePath quietEnv "c1" "u1" (storeOf underway) !! "c1" = Some cq
    ∧ (processCampaignDirectly quietEnv "c1" "u1" (storeOf underway)).2 !! "c1" = Some cd
    ∧ shape <$> results cq = shape <$> results cd
    ∧ contactId <$> results cd
      = (contactId <$> results underway)
        ++ (pretty <$> seq 0 (length (contacts underway)))
    ∧ status cq = completed ∧ status cd = completed
    ∧ successCount cq = successCount cd
    ∧ failureCount cq = failureCount cd.
Proof.
  apply (single_channel_paths_agree quietEnv "c1" "u1" None (storeOf underway)
           underway sms).
  - vm_compute; reflexivity.
  - reflexivity.
  - discriminate.
  - discriminate.
  - repeat split; reflexivity.
  - repeat split; reflexivity.
  - discriminate.
Defined.

(** C2 as stated fails.  On a campaign of type 'all' the direct path
    records three channel attempts while the job handler, which has no
    case for 'all', stores nothing and never completes the campaign; on
    a contact without a phone number the two paths record different
    method entries; and after a pause request the direct path ends
    [completed] where the queue path stays [paused]. *)
Lemma paths_differ :
  (∃ cq cd,
     queuePath quietEnv "c1" "u1" (storeOf everyChannel) !! "c1" = Some cq
     ∧ (processCampaignDirectly quietEnv "c1" "u1" (storeOf everyChannel)).2 !! "c1"
       = Some cd
     ∧ results cq = [] ∧ status cq = running
     ∧ (λ r, (method <$> methods r, overallStatus r)) <$> results cd
       = [([sms; email; call], Overall.partial)]
     ∧ status cd = completed)
  ∧ (∃ cq cd,
       queuePath quietEnv "c1" "u1" (storeOf unreachable) !! "c1" = Some cq
       ∧ (processCampaignDirectly quietEnv "c1" "u1" (storeOf unreachable)).2 !! "c1"
         = Some cd
       ∧ methods <$> results cq
         = [[{| method := sms; mstatus := Method.failed; response := None;
                error := Some "Phone number is required for SMS" |}]]
       ∧ methods <$> results cd
         = [[{| method := sms; mstatus := Method.failed; response := None;
                error := Some "Phone number required for SMS" |}]])
  ∧ (∃ cq cd,
       queuePath (pausingAt 1) "c1" "u1" (storeOf underway) !! "c1" = Some cq
       ∧ (processCampaignDirectly (pausingAt 1) "c1" "u1" (storeOf underway)).2 !! "c1"
         = Some cd
       ∧ length (results cq) = 1 ∧ length (results cd) = 1
       ∧ status cq = paused ∧ status cd = completed).
Proof.
  split; [|split]; eexists _, _;
    (split; [vm_compute; reflexivity|]);
    (split; [vm_compute; reflexivity|]); by vm_compute.
Qed.

(** ** C7: a contact that lacks the field a channel needs *)

Lemma truthy_Some s v : truthy s = Some v → s = Some v.
Proof. destruct s as [[|a s]|]; simpl; congruence. Qed.

Lemma entryOf_lacks env settings tmpl i x m :
  lacks m x →
  entryOf env settings tmpl i x m = entryFrom m (Throw (directComplaint m)).
Proof. unfold lacks, entryOf, attempt. by destruct m; intros ->. Qed.

(** With the field present the entry records what the gateway answered
    to the request made for the contact. *)
Lemma entryOf_request env settings tmpl i x m :
  ¬ lacks m x →
  entryOf env settings tmpl i x m = entryFrom m (request env settings tmpl i x m).
Proof.
  unfold lacks, entryOf, attempt, request, entryFrom. intros Hhas.
  destruct m.
  - destruct (truthy (phone x)) as [number|] eqn:Hn; [|done].
    by rewrite (truthy_Some _ _ Hn).
  - destruct (truthy (mail x)) as [recipient|] eqn:Hn; [|done].
    by rewrite (truthy_Some _ _ Hn).
  - destruct (truthy (phone x)) as [number|] eqn:Hn; [|done].
    rewrite (truthy_Some _ _ Hn). by destruct settings.
Qed.

Lemma jobResult_lacks env id uid tmpl i x m :
  lacks m x →
  jobResult env (data (jobFor id uid tmpl (OneOf m) i x)) m
  = {| contactId := pretty i; contactName := name x;
       methods := [entryFrom m (Throw (queueComplaint m))];
       overallStatus := Overall.failed |}.
Proof. unfold lacks, jobResult, attemptJob. simpl. by destruct m; intros ->. Qed.

Lemma jobResult_request env id uid tmpl i x m :
  ¬ lacks m x →
  jobResult env (data (jobFor id uid tmpl (OneOf m) i x)) m
  = {| contactId := pretty i; contactName := name x;
       methods := [entryFrom m (jobRequest env uid tmpl i x m)];
       overallStatus := if isSent (entryFrom m (jobRequest env uid tmpl i x m))
                        then Overall.success else Overall.failed |}.
Proof.
  unfold lacks, jobResult, attemptJob, jobRequest, entryFrom. simpl. intros Hhas.
  destruct m.
  - destruct (truthy (phone x)) as [number|] eqn:Hn; [|done].
    rewrite (truthy_Some _ _ Hn). simpl. by destruct (sendSMS _ _ _ _).
  - destruct (truthy (mail x)) as [recipient|] eqn:Hn; [|done].
    rewrite (truthy_Some _ _ Hn). simpl. by destruct (sendEmail _ _ _ _ _ _).
  - destruct (truthy (phone x)) as [number|] eqn:Hn; [|done].
    rewrite (truthy_Some _ _ Hn). simpl.
    destruct (findSettings env uid) as [[st|]|msg]; [|done..].
    destruct (_ || _); [done|]. by destruct (makeOutboundCall _ _ _ _ _).
Qed.

Lemma entryOf_method env settings tmpl i x (l : list Channel) :
  method <$> (entryOf env settings tmpl i x <$> l) = l.
Proof.
  induction l as [|m l IH]; [done|]. rewrite !fmap_cons, IH. f_equal.
  unfold entryOf. by destruct (attempt _ _ _ _ _ _).
Qed.

Lemma entryOf_own_method env settings tmpl i x m :
  method (entryOf env settings tmpl i x m) = m.
Proof. unfold entryOf. by destruct (attempt _ _ _ _ _ _). Qed.

(** What an undisturbed direct run records for the contact at [k]. *)
Lemma direct_result_at env id uid settings (σ : Store) c k x :
  σ !! id = Some c →
  status c ≠ paused →
  undisturbed env uid settings (length (contacts c)) →
  contacts c !! k = Some x →
  ∃ cd,
    (processCampaignDirectly env id uid σ).2 !! id = Some cd
    ∧ status cd = completed
    ∧ length (results cd) = length (results c) + length (contacts c)
    ∧ results cd !! (length (results c) + k)
      = Some (normalResult env settings (messageTemplate c) (type c) k x).
Proof.
  intros Hc Hst Hu Hk.
  destruct (direct_run_closed env id uid settings σ c) as (σd & Hrun & Hd); try done.
  rewrite Hrun. simpl. eexists. split; [done|]. simpl.
  rewrite processed_results. split; [done|].
  split; [by rewrite length_app, length_freshResults|].
  rewrite lookup_app_r by lia.
  replace (length (results c) + k - length (results c)) with k by lia.
  by apply freshResults_lookup.
Qed.

(** C7 (amended): in a run that nothing disturbs, a contact that lacks
    the field a requested channel needs gets a result in which that
    channel's entry is [failed] with the path's message for the missing
    field.  On the direct path, for every campaign type, every contact
    of the campaign (the later ones included) has its result, with one
    entry per requested channel in order: the complaint where the
    contact lacks the channel's field, and otherwise what the gateway
    answered to the request made for that contact; the overall status
    of the contact with the missing field is [partial] when another
    channel was sent and [failed] otherwise.  The job handler does the
    same on a campaign of a single channel. *)
Theorem missing_field_fails_that_channel_only env id uid settings (σ : Store) c k x m :
  σ !! id = Some c →
  status c ≠ paused →
  undisturbed env uid settings (length (contacts c)) →
  contacts c !! k = Some x →
  m ∈ methodsToExecute (type c) →
  lacks m x →
  (∃ cd,
     (processCampaignDirectly env id uid σ).2 !! id = Some cd
     ∧ status cd = completed
     ∧ length (results cd) = length (results c) + length (contacts c)
     ∧ (∀ k' x', contacts c !! k' = Some x' →
          ∃ r,
            results cd !! (length (results c) + k') = Some r
            ∧ contactId r = pretty k'
            ∧ contactName r = name x'
            ∧ method <$> methods r = methodsToExecute (type c)
            ∧ ∀ e, e ∈ methods r →
                (lacks (method e) x' →
                   e = entryFrom (method e) (Throw (directComplaint (method e))))
                ∧ (¬ lacks (method e) x' →
                   e = entryFrom (method e)
                         (request env settings (messageTemplate c) k' x' (method e))))
     ∧ ∃ r,
         results cd !! (length (results c) + k) = Some r
         ∧ entryFrom m (Throw (directComplaint m)) ∈ methods r
         ∧ overallStatus r
           = (if existsb isSent (methods r) then Overall.partial else Overall.failed)
         ∧ (type c = OneOf m → overallStatus r = Overall.failed))
  ∧ (type c = OneOf m →
     queueUndisturbed env (length (contacts c)) →
     ∃ cq,
       queuePath env id uid σ !! id = Some cq
       ∧ length (results cq) = length (results c) + length (contacts c)
       ∧ (∀ k' x', contacts c !! k' = Some x' →
            ∃ r e,
              results cq !! (length (results c) + k') = Some r
              ∧ contactId r = pretty k'
              ∧ contactName r = name x'
              ∧ methods r = [e]
              ∧ method e = m
              ∧ (lacks m x' → e = entryFrom m (Throw (queueComplaint m)))
              ∧ (¬ lacks m x' →
                 e = entryFrom m (jobRequest env uid (messageTemplate c) k' x' m))
              ∧ overallStatus r
                = (if isSent e then Overall.success else Overall.failed))
       ∧ ∃ r,
           results cq !! (length (results c) + k) = Some r
           ∧ methods r = [entryFrom m (Throw (queueComplaint m))]
           ∧ overallStatus r = Overall.failed).
Proof.
  intros Hc Hst Hu Hk Hm Hlacks. split.
  - destruct (direct_result_at env id uid settings σ c k x) as (cd & Hcd & Hdone & Hlen & Hr);
      try done.
    exists cd. split; [done|]. split; [done|]. split; [done|]. split.
    + intros k' x' Hk'.
      destruct (direct_result_at env id uid settings σ c k' x')
        as (cd' & Hcd' & _ & _ & Hr'); try done.
      assert (cd' = cd) as -> by congruence.
      eexists. split; [exact Hr'|]. split; [done|]. split; [done|].
      split; [apply entryOf_method|].
      intros e He. apply list_elem_of_fmap in He as (m' & -> & _).
      rewrite entryOf_own_method. split; intros Hx.
      * by apply entryOf_lacks.
      * by apply entryOf_request.
    + eexists. split; [exact Hr|]. simpl. split.
      { apply list_elem_of_fmap. exists m. split; [|done]. by rewrite entryOf_lacks. }
      split.
      { unfold overallOf.
        destruct (forallb isSent _) eqn:Hall; [|done].
        rewrite forallb_forall in Hall.
        assert (isSent (entryOf env settings (messageTemplate c) k x m) = true) as Hsent.
        { apply Hall, in_map, list_elem_of_In, Hm. }
        by rewrite entryOf_lacks in Hsent. }
      intros Ht. rewrite Ht. simpl. by rewrite entryOf_lacks.
  - intros Ht Hqu. destruct Hu as (_ & _ & _ & Hq).
    exists (queued env id uid (messageTemplate c) m 0 (contacts c)
              (setStatus running (preSave c))).
    split.
    { apply queuePath_closed; try done. intros j Hj. by apply Hq. }
    rewrite queued_results. simpl.
    split; [by rewrite length_app, length_queueResults|].
    assert (∀ k' x', contacts c !! k' = Some x' →
              (results c ++ queueResults env id uid (messageTemplate c) m 0 (contacts c))
                !! (length (results c) + k')
              = Some (jobResult env
                        (data (jobFor id uid (messageTemplate c) (OneOf m) k' x')) m))
      as Hat.
    { intros k' x' Hk'. rewrite lookup_app_r by lia.
      replace (length (results c) + k' - length (results c)) with k' by lia.
      by rewrite (queueResults_lookup _ _ _ _ _ _ _ _ x'). }
    split.
    + intros k' x' Hk'. rewrite (Hat k' x' Hk').
      destruct (decide (lacks m x')) as [Hx|Hx].
      * rewrite jobResult_lacks by done.
        eexists _, _. split; [done|]. by repeat split.
      * rewrite jobResult_request by done.
        eexists _, _. split; [done|]. repeat split; try done.
        unfold entryFrom. by destruct (jobRequest _ _ _ _ _ _).
    + rewrite (Hat k x Hk), jobResult_lacks by done. by eexists.
Qed.

(** The second of three contacts has an address and no phone number:
    in a campaign of type 'all' the direct path records the two
    complaints and the e-mail that was sent, and goes on to the third
    contact; in an SMS campaign both paths record the complaint. *)
Lemma missing_field_fails_that_channel_only_witness :
  (∃ cd,
     (processCampaignDirectly quietEnv "c1" "u1" (storeOf mixed)).2 !! "c1" = Some cd
     ∧ status cd = completed
     ∧ length (results cd) = 3
     ∧ (∃ r,
          results cd !! 1 = Some r
          ∧ contactName r = "D"
          ∧ methods r
            = [entryFrom sms (Throw "Phone number required for SMS");
               entryFrom email (Ok (Some "{}"));
               entryFrom call (Throw "Phone number required for call")]
          ∧ overallStatus r = Overall.partial)
     ∧ ∃ r,
         results cd !! 2 = Some r
         ∧ contactName r = "C"
         ∧ method <$> methods r = [sms; email; call])
  ∧ (∃ cq,
       queuePath quietEnv "c1" "u1" (storeOf underway) !! "c1" = Some cq
       ∧ length (results cq) = 3
       ∧ ∃ r,
           results cq !! 1 = Some r
           ∧ methods r = [entryFrom sms (Throw "Phone number is required for SMS")]
           ∧ overallStatus r = Overall.failed).
Proof.
  split.
  - destruct (missing_field_fails_that_channel_only quietEnv "c1" "u1" None
                (storeOf mixed) mixed 1 dave sms)
      as [(cd & Hcd & Hdone & Hlen & Hall & r & Hr & Hin & Ho & _) _].
    + vm_compute; reflexivity.
    + discriminate.
    + repeat split; reflexivity.
    + reflexivity.
    + apply list_elem_of_here.
    + reflexivity.
    + exists cd. split; [exact Hcd|]. split; [exact Hdone|]. split; [exact Hlen|].
      vm_compute in Hcd. injection Hcd as <-.
      split; eexists; (split; [reflexivity|]); repeat split.
  - destruct (missing_field_fails_that_channel_only quietEnv "c1" "u1" None
                (storeOf underway) underway 1 bob sms) as [_ Hq].
    + vm_compute; reflexivity.
    + discriminate.
    + repeat split; reflexivity.
    + reflexivity.
    + apply list_elem_of_here.
    + reflexivity.
    + destruct Hq as (cq & Hcq & Hlen & _ & Hr); [reflexivity|repeat split; reflexivity|].
      exists cq. split; [exact Hcq|]. split; [exact Hlen|]. exact Hr.
Defined.

(** C7 as stated fails.  In the job handler, which the claim cites, on
    a campaign of type 'all': for the contact without a phone number
    the queue path records no method entry at all, neither the
    complaint for SMS and call nor the e-mail, which the direct path
    sends; the campaign is left running with no result and both
    counters at zero.  On the direct path, when the status re-read for
    the contact without a phone number rejects, its result has no method
    entry either; and when a pause request is served before that
    contact, it gets no result. *)
Lemma job_handler_records_nothing_for_type_all :
  (∃ cq,
     queuePath quietEnv "c1" "u1" (storeOf mixed) !! "c1" = Some cq
     ∧ results cq = []
     ∧ successCount cq = 0 ∧ failureCount cq = 0
     ∧ status cq = running)
  ∧ (∃ msg,
       processContactJob quietEnv (data (jobFor "c1" "u1" hello All 1 dave))
         (storeOf mixed)
       = (Throw msg, storeOf mixed))
  ∧ (∃ cd r,
       (processCampaignDirectly quietEnv "c1" "u1" (storeOf mixed)).2 !! "c1" = Some cd
       ∧ results cd !! 1 = Some r
       ∧ methods r
         = [entryFrom sms (Throw "Phone number required for SMS");
            entryFrom email (Ok (Some "{}"));
            entryFrom call (Throw "Phone number required for call")])
  ∧ (∃ cd r,
       (processCampaignDirectly (unreadableAt 1) "c1" "u1" (storeOf underway)).2 !! "c1"
       = Some cd
       ∧ results cd !! 1 = Some r
       ∧ contactName r = name bob
       ∧ methods r = [])
  ∧ (∃ cd,
       (processCampaignDirectly (pausingAt 1) "c1" "u1" (storeOf underway)).2 !! "c1"
       = Some cd
       ∧ contactName <$> results cd = [name alice]).
Proof.
  split; [|split; [|split; [|split]]].
  - eexists. split; [vm_compute; reflexivity|]. by repeat split.
  - eexists. vm_compute. reflexivity.
  - eexists _, _. split; [vm_compute; reflexivity|]. by split.
  - eexists _, _. split; [vm_compute; reflexivity|]. by repeat split.
  - eexists. split; [vm_compute; reflexivity|]. done.
Qed.

(** * Further properties of the engine *)

(** ** Frame: what a start request and its run leave alone *)

Lemma save_other fails d (σ : Store) r (σ' : Store) id' :
  save fails d σ = (r, σ') → id' ≠ docId d → σ' !! id' = σ !! id'.
Proof.
  unfold save. destruct fails; [by inversion 1|].
  destruct (σ !! docId d); inversion 1; subst; [|done].
  intros Hne. by rewrite lookup_insert_ne.
Qed.

Lemma pauseCampaign_other id uid (σ : Store) id' :
  id' ≠ id → (pauseCampaign id uid σ).2 !! id' = σ !! id'.
Proof.
  intros Hne. unfold pauseCampaign, findOne.
  destruct (σ !! id) as [p|] eqn:Hp; [|done].
  case_bool_decide; [|done]. simpl.
  destruct (status p); try done.
  destruct (save false _ σ) as [[d2|msg] σ2] eqn:Hsave;
    by apply (save_other _ _ _ _ _ id') in Hsave.
Qed.

Lemma served_other env id uid i (σ : Store) id' :
  id' ≠ id → served env id uid i σ !! id' = σ !! id'.
Proof.
  intros Hne. unfold served. destruct (pauseBefore env i); [|done].
  by apply pauseCampaign_other.
Qed.

Lemma processContact_docId env id settings i x d (σ : Store) ms d1 :
  processContact env id settings i x d σ = Some (ms, d1) → docId d1 = docId d.
Proof.
  intros H. by destruct (processContact_frame env id settings i x d σ ms d1 H)
    as [-> | ->].
Qed.

Lemma contactLoop_other env id uid settings todo : ∀ i d (σ : Store) r (σ' : Store) id',
  docId d = id → id' ≠ id →
  contactLoop env id uid settings i todo d σ = (r, σ') →
  σ' !! id' = σ !! id'.
Proof.
  induction todo as [|x rest IH]; intros i d σ r σ' id' Hid Hne Hloop.
  - simpl in Hloop. by inversion Hloop.
  - simpl in Hloop.
    pose proof (served_other env id uid i σ id' Hne) as Hserved.
    destruct (processContact env id settings i x d _) as [[ms d1]|] eqn:Hpc.
    + apply processContact_docId in Hpc.
      destruct (save _ _ _) as [[d2|msg] σ2] eqn:Hsave.
      * pose proof Hsave as Hsave'.
        apply save_lookup in Hsave' as (_ & _ & _ & ->).
        apply (save_other _ _ _ _ _ id') in Hsave; [|simpl; congruence].
        apply (IH _ _ _ _ _ id') in Hloop; [congruence|simpl; congruence|done].
      * apply (save_other _ _ _ _ _ id') in Hsave; [|simpl; congruence].
        inversion Hloop; subst. congruence.
    + inversion Hloop; by subst.
Qed.

Lemma contactLoop_docId env id uid settings todo : ∀ i d (σ : Store) d1 (σ' : Store),
  contactLoop env id uid settings i todo d σ = (Ok d1, σ') → docId d1 = docId d.
Proof.
  induction todo as [|x rest IH]; intros i d σ d1 σ' Hloop.
  - simpl in Hloop. by inversion Hloop.
  - simpl in Hloop.
    destruct (processContact env id settings i x d _) as [[ms d0]|] eqn:Hpc.
    + apply processContact_docId in Hpc.
      destruct (save _ _ _) as [[d2|msg] σ2] eqn:Hsave; [|by inversion Hloop].
      apply save_lookup in Hsave as (_ & _ & _ & ->).
      apply IH in Hloop. simpl in Hloop. congruence.
    + by inversion Hloop.
Qed.

Lemma processCampaignDirectly_other env id uid (σ : Store) id' :
  id' ≠ id → (processCampaignDirectly env id uid σ).2 !! id' = σ !! id'.
Proof.
  intros Hne. unfold processCampaignDirectly.
  assert (∀ r σ1, runBody env id uid σ = (r, σ1) → σ1 !! id' = σ !! id') as Hbody.
  { unfold runBody, findById. intros r σ1.
    destruct (storeFails env Load); [by inversion 1|].
    destruct (σ !! id) as [c|]; simpl; [|by inversion 1].
    destruct (findSettings env uid) as [settings|msg]; [|by inversion 1].
    destruct (contactLoop _ _ _ _ _ _ _ σ) as [[d1|msg] σ2] eqn:Hloop.
    - pose proof Hloop as Hloop'.
      apply (contactLoop_other _ _ _ _ _ _ _ _ _ _ id') in Hloop'; [|done..].
      apply contactLoop_docId in Hloop. simpl in Hloop.
      destruct (save _ _ σ2) as [[d2|msg] σ3] eqn:Hsave;
        apply (save_other _ _ _ _ _ id') in Hsave; try (simpl; congruence);
        inversion 1; subst; congruence.
    - apply (contactLoop_other _ _ _ _ _ _ _ _ _ _ id') in Hloop; [|done..].
      inversion 1; by subst. }
  destruct (runBody env id uid σ) as [r σ1].
  specialize (Hbody _ _ eq_refl). destruct r as [[]|msg]; simpl; [done|].
  rewrite <- Hbody. unfold recover, findById.
    destruct (storeFails env RecoverLoad); [done|].
    destruct (σ1 !! id) as [p1|]; simpl; [|done].
    destruct (save _ _ σ1) as [[d2|msg'] σ2] eqn:Hsave;
      by apply (save_other _ _ _ _ _ id') in Hsave.
Qed.

Lemma startCampaign_other env id uid (σ : Store) id' :
  id' ≠ id → (startCampaign env id uid σ).1.2 !! id' = σ !! id'.
Proof.
  intros Hne. unfold startCampaign, findOne.
  destruct (storeFails env StartFind); [done|].
  destruct (σ !! id) as [c|] eqn:Hc; [|done].
  case_bool_decide; [|done]. simpl.
  destruct (status c); try done;
    destruct (save _ _ σ) as [[d2|msg] σ2] eqn:Hsave;
    by apply (save_other _ _ _ _ _ id') in Hsave.
Qed.

(** X1: a start request and the run it launches touch one document
    only, and of that document neither the owner, the name, the type,
    the contacts nor the template: every other campaign in the store is
    left exactly as it was, whatever the environment does. *)
Theorem start_and_run_frame env id uid (σ : Store) c id' :
  σ !! id = Some c →
  id' ≠ id →
  startAndRun env id uid σ !! id' = σ !! id'
  ∧ ∃ c', startAndRun env id uid σ !! id = Some c' ∧ static c' = static c.
Proof.
  intros Hc Hne. split.
  - pose proof (startCampaign_other env id uid σ id' Hne) as Hstart.
    unfold startAndRun.
    destruct (startCampaign env id uid σ) as [[r σ1] []]; simpl in Hstart; [|done].
    by rewrite processCampaignDirectly_other.
  - destruct (startCampaign_lookup env id uid σ c Hc) as (c1 & Hc1 & Hs1 & _).
    unfold startAndRun.
    destruct (startCampaign env id uid σ) as [[r σ1] []]; simpl in Hc1.
    + destruct (processCampaignDirectly_appends env id uid σ1 c1 Hc1)
        as (c' & new & Hc' & _ & _ & _ & Hs').
      exists c'. split; [done|]. congruence.
    + by exists c1.
Qed.

(** ** Normal termination and the tallies *)

Lemma resolved_run_status env id uid (σ σ' : Store) c :
  σ !! id = Some c →
  processCampaignDirectly env id uid σ = (Ok (), σ') →
  ∃ c', σ' !! id = Some c' ∧ (status c' = completed ∨ status c' = paused).
Proof.
  intros Hc. unfold processCampaignDirectly.
  destruct (runBody env id uid σ) as [[[]|msg] σ1] eqn:Hbody.
  - inversion 1; subst. revert Hbody. unfold runBody, findById.
    destruct (storeFails env Load); [by inversion 1|].
    rewrite Hc. simpl.
    destruct (findSettings env uid) as [settings|msg]; [|by inversion 1].
    destruct (contactLoop _ _ _ _ _ _ _ σ) as [[d1|msg] σ2] eqn:Hloop; [|by inversion 1].
    destruct (save _ _ σ2) as [[d2|msg] σ3] eqn:Hsave; [|by inversion 1].
    inversion 1; subst.
    apply contactLoop_docId in Hloop. simpl in Hloop.
    apply save_lookup in Hsave as (p0 & _ & Hp & _). simpl in Hp.
    rewrite Hloop in Hp. eexists. split; [done|]. by left.
  - destruct (runBody_appends env id uid σ c _ _ Hc Hbody) as (p1 & new & Hp1 & _).
    unfold recover, findById.
    destruct (storeFails env RecoverLoad); [by inversion 1|].
    rewrite Hp1. simpl.
    destruct (save _ _ σ1) as [[d2|msg'] σ2] eqn:Hsave; [|by inversion 1].
    inversion 1; subst.
    apply save_lookup in Hsave as (p0 & _ & Hp & _). simpl in Hp.
    eexists. split; [done|]. by right.
Qed.

(** X2: whenever processCampaignDirectly resolves for a campaign that
    exists, the stored status is [completed] or [paused]: a run that
    returns normally never leaves the campaign running. *)
Theorem resolved_run_is_completed_or_paused env id uid (σ σ' : Store) c :
  σ !! id = Some c →
  processCampaignDirectly env id uid σ = (Ok (), σ') →
  ∃ c', σ' !! id = Some c' ∧ (status c' = completed ∨ status c' = paused).
Proof. apply resolved_run_status. Qed.

Lemma resolved_run_is_completed_or_paused_witness :
  ∃ c', (processCampaignDirectly (failingSaveAt 1) "c1" "u1" (storeOf underway)).2 !! "c1"
        = Some c'
        ∧ (status c' = completed ∨ status c' = paused).
Proof.
  apply (resolved_run_is_completed_or_paused (failingSaveAt 1) "c1" "u1"
           (storeOf underway) _ underway); vm_compute; reflexivity.
Defined.

Lemma progress_counts c c' :
  progress c = progress c' →
  successCount c = successCount c' ∧ failureCount c = failureCount c'.
Proof. unfold progress. intros H. by injection H. Qed.

(** Every turn of the loop that appends a result bumps exactly one of
    the two counters, whatever the environment does. *)
Lemma contactLoop_counts env id uid settings todo :
  ∀ i d (σ : Store) p r (σ' : Store),
  σ !! id = Some p → docId d = id → statusModified d = false → inSync d p →
  contactLoop env id uid settings i todo d σ = (r, σ') →
  ∃ p',
    σ' !! id = Some p'
    ∧ successCount p' + failureCount p' + length (results p)
      = successCount p + failureCount p + length (results p')
    ∧ successCount p ≤ successCount p'
    ∧ failureCount p ≤ failureCount p'
    ∧ match r with
      | Ok d' => docId d' = id ∧ statusModified d' = false ∧ inSync d' p'
      | Throw _ => True
      end.
Proof.
  induction todo as [|x rest IH]; intros i d σ p r σ' Hp Hid Hm Hs Hloop.
  - simpl in Hloop. inversion Hloop; subst. destruct Hs as [Hst Hpr].
    exists p. repeat split; try done; lia.
  - simpl in Hloop.
    destruct (served_lookup env id uid i σ p Hp) as (p1 & Hp1 & Hs1 & Hpr1 & _).
    set (σ1 := served env id uid i σ) in *.
    destruct Hs as [Hst Hpr].
    pose proof (progress_results _ _ Hpr) as Hres.
    pose proof (progress_results _ _ Hpr1) as Hres1.
    destruct (progress_counts _ _ Hpr) as [Hok Hko].
    destruct (progress_counts _ _ Hpr1) as [Hok1 Hko1].
    destruct (processContact env id settings i x d σ1) as [[ms d1]|] eqn:Hpc.
    + set (r0 := resultFor i x ms) in *.
      pose proof (processContact_docId _ _ _ _ _ _ _ _ _ Hpc) as Hid1.
      assert (statusModified d1 = false ∧ static (fields d1) = static (fields d)
              ∧ results (fields d1) = results (fields d)
              ∧ successCount (fields d1) + failureCount (fields d1)
                = S (successCount (fields d) + failureCount (fields d))
              ∧ successCount (fields d) ≤ successCount (fields d1)
              ∧ failureCount (fields d) ≤ failureCount (fields d1))
        as (Hm1 & Hst1 & Hr1 & Hsum & Hle1 & Hle2).
      { destruct (processContact_frame env id settings i x d σ1 ms d1 Hpc)
          as [-> | ->]; simpl; repeat split; try done; lia. }
      set (dd := update (pushResult r0) d1) in *.
      destruct (save (storeFails env (SaveContact i)) dd σ1) as [[d2|msg] σ2] eqn:Hsave.
      * apply save_lookup in Hsave as (p0 & Hp0 & Hp2 & ->).
        change (docId dd) with (docId d1) in *. rewrite Hid1, Hid in *.
        assert (p0 = p1) as -> by congruence.
        apply IH with (p := written dd p1) in Hloop; try done.
        2:{ split; [|done]. change (static (fields d1) = static p1). congruence. }
        destruct Hloop as (p' & Hp' & Hcount & Hle & Hle' & Hr).
        exists p'. split; [done|].
        change (successCount (written dd p1)) with (successCount (fields d1)) in *.
        change (failureCount (written dd p1)) with (failureCount (fields d1)) in *.
        change (results (written dd p1)) with (results (fields d1) ++ [r0]) in *.
        rewrite length_app in Hcount. simpl in Hcount.
        rewrite Hr1, Hres in Hcount.
        repeat split; [lia..|done].
      * apply save_throw in Hsave as ->. inversion Hloop; subst.
        exists p1. split; [done|]. repeat split; [|lia..]. rewrite <- Hres1. lia.
    + inversion Hloop; subst. exists p1.
      split; [done|]. repeat split; try done; try lia; try congruence.
Qed.

Lemma runBody_counts env id uid (σ : Store) c r (σ1 : Store) :
  σ !! id = Some c →
  runBody env id uid σ = (r, σ1) →
  ∃ p1,
    σ1 !! id = Some p1
    ∧ successCount p1 + failureCount p1 + length (results c)
      = successCount c + failureCount c + length (results p1)
    ∧ successCount c ≤ successCount p1
    ∧ failureCount c ≤ failureCount p1.
Proof.
  intros Hc. unfold runBody, findById.
  assert (∃ p1, σ !! id = Some p1
            ∧ successCount p1 + failureCount p1 + length (results c)
              = successCount c + failureCount c + length (results p1)
            ∧ successCount c ≤ successCount p1
            ∧ failureCount c ≤ failureCount p1) as Hsame.
  { exists c. repeat split; try done; lia. }
  destruct (storeFails env Load); [inversion 1; by subst|].
  rewrite Hc. simpl.
  destruct (findSettings env uid) as [settings|msg]; [|inversion 1; by subst].
  destruct (contactLoop env id uid settings 0 (contacts c) _ σ) as [[d1|msg] σ2] eqn:Hloop.
  - apply contactLoop_counts with (p := c) in Hloop as
      (p' & Hp' & Hsum & Hle & Hle' & Hid1 & Hm1 & Hs1 & Hpr1); try done.
    destruct (progress_counts _ _ Hpr1) as [Hok Hko].
    pose proof (progress_results _ _ Hpr1) as Hres.
    destruct (save (storeFails env SaveFinal) (assignStatus completed d1) σ2)
      as [[d2|msg] σ3] eqn:Hsave.
    + apply save_lookup in Hsave as (p0 & Hp0 & Hp2 & _).
      change (docId (assignStatus completed d1)) with (docId d1) in *.
      rewrite Hid1 in *. inversion 1; subst.
      eexists. split; [done|].
      change (successCount (written _ p0)) with (successCount (fields d1)).
      change (failureCount (written _ p0)) with (failureCount (fields d1)).
      change (results (written _ p0)) with (results (fields d1)).
      rewrite Hok, Hko, Hres. by repeat split.
    + apply save_throw in Hsave as ->. inversion 1; subst. by exists p'.
  - apply contactLoop_counts with (p := c) in Hloop as
      (p' & Hp' & Hsum & Hle & Hle' & _); try done.
    inversion 1; subst. by exists p'.
Qed.

(** X3: whatever the environment does, a start request and its run add
    as much to [successCount + failureCount] as they add results, and
    neither counter ever decreases; so a campaign whose counters add up
    to [results.length] keeps that property. *)
Theorem tallies_follow_results env id uid (σ : Store) c :
  σ !! id = Some c →
  ∃ c',
    startAndRun env id uid σ !! id = Some c'
    ∧ successCount c' + failureCount c' + length (results c)
      = successCount c + failureCount c + length (results c')
    ∧ successCount c ≤ successCount c'
    ∧ failureCount c ≤ failureCount c'
    ∧ (successCount c + failureCount c = length (results c) →
       successCount c' + failureCount c' = length (results c')).
Proof.
  intros Hc.
  destruct (startCampaign_lookup env id uid σ c Hc) as (c1 & Hc1 & _ & Hpr1).
  destruct (progress_counts _ _ Hpr1) as [Hok1 Hko1].
  pose proof (progress_results _ _ Hpr1) as Hres1.
  assert (∃ c', startAndRun env id uid σ !! id = Some c'
            ∧ successCount c' + failureCount c' + length (results c1)
              = successCount c1 + failureCount c1 + length (results c')
            ∧ successCount c1 ≤ successCount c'
            ∧ failureCount c1 ≤ failureCount c') as (c' & Hc' & Hsum & Hle & Hle').
  { unfold startAndRun.
    destruct (startCampaign env id uid σ) as [[r σ1] []]; simpl in Hc1.
    - unfold processCampaignDirectly.
      destruct (runBody env id uid σ1) as [rb σ2] eqn:Hbody.
      destruct (runBody_counts env id uid σ1 c1 _ _ Hc1 Hbody)
        as (p1 & Hp1 & Hsum & Hle & Hle').
      destruct rb as [[]|msg]; simpl; [by exists p1|].
      destruct (recover env id σ2) as [rr σ3] eqn:Hrec.
      apply recover_lookup with (p1 := p1) in Hrec as (c' & Hc' & _ & Hpr'); [|done].
      destruct (progress_counts _ _ Hpr') as [Hok Hko].
      exists c'. simpl. split; [done|].
      rewrite (progress_results _ _ Hpr'), Hok, Hko. by repeat split.
    - exists c1. repeat split; try done; lia. }
  exists c'. split; [done|]. rewrite Hok1, Hko1, Hres1 in *.
  repeat split; try done. lia.
Qed.

Lemma tallies_follow_results_witness :
  ∃ c',
    startAndRun (failingSaveAt 1) "c1" "u1" (storeOf parkedMidway) !! "c1" = Some c'
    ∧ successCount c' + failureCount c' + length (results parkedMidway)
      = successCount parkedMidway + failureCount parkedMidway + length (results c')
    ∧ successCount parkedMidway ≤ successCount c'
    ∧ failureCount parkedMidway ≤ failureCount c'
    ∧ successCount c' + failureCount c' = length (results c').
Proof.
  destruct (tallies_follow_results (failingSaveAt 1) "c1" "u1"
              (storeOf parkedMidway) parkedMidway)
    as (c' & H1 & H2 & H3 & H4 & H5).
  { vm_compute; reflexivity. }
  exists c'. repeat (split; [assumption|]). apply H5. reflexivity.
Defined.

Lemma start_and_run_frame_witness :
  startAndRun quietEnv "c1" "u1"
    (<["c2" := parked]> (storeOf drafted)) !! "c2" = Some parked
  ∧ ∃ c', startAndRun quietEnv "c1" "u1"
            (<["c2" := parked]> (storeOf drafted)) !! "c1" = Some c'
          ∧ static c' = static drafted.
Proof.
  destruct (start_and_run_frame quietEnv "c1" "u1"
              (<["c2" := parked]> (storeOf drafted)) drafted "c2") as [H1 H2].
  - vm_compute; reflexivity.
  - discriminate.
  - split; [|exact H2]. rewrite H1. vm_compute; reflexivity.
Defined.

(** ** The start and pause handlers *)

(** A pause request on a store that answers. *)
Lemma pauseCampaignWith_quiet id uid (σ : Store) :
  pauseCampaignWith false false id uid σ
  = (Ok (pauseCampaign id uid σ).1, (pauseCampaign id uid σ).2).
Proof.
  unfold pauseCampaignWith, pauseCampaign.
  destruct (findOne false id uid σ) as [[d|]|msg] eqn:Hfind; [| done |].
  - destruct (status (fields d)); try done.
    unfold save. simpl. unfold findOne in Hfind.
    destruct (σ !! id) as [c|] eqn:Hc; [|done].
    case_bool_decide; [|done]. simplify_eq. simpl. by rewrite Hc.
  - unfold findOne in Hfind. by destruct (σ !! id) as [c|]; [case_bool_decide|].
Qed.

(** The stored campaign right after an accepted start. *)
Lemma startCampaign_accepted env id uid (σ σ1 : Store) c r :
  σ !! id = Some c →
  startCampaign env id uid σ = (r, σ1, true) →
  userId c = uid ∧ σ1 !! id = Some (setStatus running (preSave c)).
Proof.
  intros Hc. unfold startCampaign, findOne.
  destruct (storeFails env StartFind); [by inversion 1|].
  rewrite Hc. case_bool_decide as Hu; [|by inversion 1]. simpl.
  unfold save. simpl. rewrite Hc.
  destruct (status c), (storeFails env StartSave); inversion 1; subst;
    by rewrite lookup_insert_eq.
Qed.

Lemma startCampaign_running env id uid (σ : Store) c :
  σ !! id = Some c → userId c = uid → status c = running →
  storeFails env StartFind = false →
  startCampaign env id uid σ
  = (Ok {| code := 400; success := false;
           message := "Campaign is already running" |}, σ, false).
Proof.
  intros Hc Hu Hst Hf. unfold startCampaign, findOne.
  rewrite Hf, Hc, bool_decide_eq_true_2 by done. simpl. by rewrite Hst.
Qed.

Lemma startCampaign_completed env id uid (σ : Store) c :
  σ !! id = Some c → userId c = uid → status c = completed →
  storeFails env StartFind = false →
  startCampaign env id uid σ
  = (Ok {| code := 400; success := false;
           message := "Campaign is already completed" |}, σ, false).
Proof.
  intros Hc Hu Hst Hf. unfold startCampaign, findOne.
  rewrite Hf, Hc, bool_decide_eq_true_2 by done. simpl. by rewrite Hst.
Qed.

(** X4: what a start request meets after an earlier one was accepted.
    For as long as the stored status stays [running] (on the store the
    first start left, and on any later store in which only other things
    changed) it is answered with HTTP 400 "Campaign is already running",
    changes nothing and launches no second run.  It is accepted again
    once a pause request was served.  After the launched run resolved it
    is never turned down as already running: it is either turned down
    as already completed or, the run having parked the campaign as
    [paused], accepted again. *)
Theorem second_start_is_rejected env env' id uid (σ σ1 : Store) c :
  σ !! id = Some c →
  startCampaign env id uid σ = (Ok started, σ1, true) →
  storeFails env' StartFind = false →
  (startCampaign env' id uid σ1
   = (Ok {| code := 400; success := false;
            message := "Campaign is already running" |}, σ1, false)
   ∧ startAndRun env' id uid σ1 = σ1)
  ∧ (∀ (σ2 : Store) c2,
       σ2 !! id = Some c2 → userId c2 = uid → status c2 = running →
       startCampaign env' id uid σ2
       = (Ok {| code := 400; success := false;
                message := "Campaign is already running" |}, σ2, false)
       ∧ startAndRun env' id uid σ2 = σ2)
  ∧ (storeFails env' StartSave = false →
     ∃ σ3 : Store,
       startCampaign env' id uid (pauseCampaign id uid σ1).2 = (Ok started, σ3, true))
  ∧ (∀ σ2 : Store,
       processCampaignDirectly env id uid σ1 = (Ok (), σ2) →
       storeFails env' StartSave = false →
       startCampaign env' id uid σ2
       = (Ok {| code := 400; success := false;
                message := "Campaign is already completed" |}, σ2, false)
       ∨ ∃ σ3 : Store, startCampaign env' id uid σ2 = (Ok started, σ3, true)).
Proof.
  intros Hc Hstart Hf.
  destruct (startCampaign_accepted env id uid σ σ1 c _ Hc Hstart) as [Hu Hc1].
  assert (∀ (σ2 : Store) c2,
            σ2 !! id = Some c2 → userId c2 = uid → status c2 = running →
            startCampaign env' id uid σ2
            = (Ok {| code := 400; success := false;
                     message := "Campaign is already running" |}, σ2, false)
            ∧ startAndRun env' id uid σ2 = σ2) as Hrunning.
  { intros σ2 c2 Hc2 Hu2 Hst2.
    pose proof (startCampaign_running env' id uid σ2 c2 Hc2 Hu2 Hst2 Hf) as Heq.
    split; [done|]. unfold startAndRun. by rewrite Heq. }
  split; [by apply (Hrunning σ1 (setStatus running (preSave c)))|].
  split; [exact Hrunning|]. split.
  - intros Hs.
    pose proof (pauseCampaign_running id uid σ1 _ Hc1 Hu eq_refl) as Hp.
    eexists. by apply (startCampaign_accepts env' id uid _ _ Hp).
  - intros σ2 Hrun Hs.
    destruct (resolved_run_status env id uid σ1 σ2 _ Hc1 Hrun) as (c2 & Hc2 & Hst2).
    destruct (processCampaignDirectly_appends env id uid σ1 _ Hc1)
      as (c2' & new & Hc2' & _ & _ & _ & Hs2).
    rewrite Hrun in Hc2'. simpl in Hc2'. assert (c2' = c2) as -> by congruence.
    assert (userId c2 = uid) as Hu2.
    { unfold static in Hs2. simpl in Hs2. by simplify_eq. }
    destruct Hst2 as [Hst2|Hst2].
    + left. by apply (startCampaign_completed env' id uid σ2 c2).
    + right. eexists.
      apply (startCampaign_accepts env' id uid σ2 c2); try done; by rewrite Hst2.
Qed.

(** A campaign is started, and a second start request arrives before
    the run has written anything, after a pause request, and after the
    run, which a rejected save has parked. *)
Lemma second_start_is_rejected_witness :
  (startCampaign quietEnv "c1" "u1"
     (startCampaign (failingSaveAt 1) "c1" "u1" (storeOf drafted)).1.2
   = (Ok {| code := 400; success := false;
            message := "Campaign is already running" |},
      (startCampaign (failingSaveAt 1) "c1" "u1" (storeOf drafted)).1.2, false))
  ∧ (∃ σ3 : Store,
       startCampaign quietEnv "c1" "u1"
         (pauseCampaign "c1" "u1"
            (startCampaign (failingSaveAt 1) "c1" "u1" (storeOf drafted)).1.2).2
       = (Ok started, σ3, true))
  ∧ (∃ σ3 : Store,
       startCampaign quietEnv "c1" "u1"
         (processCampaignDirectly (failingSaveAt 1) "c1" "u1"
            (startCampaign (failingSaveAt 1) "c1" "u1" (storeOf drafted)).1.2).2
       = (Ok started, σ3, true)).
Proof.
  destruct (second_start_is_rejected (failingSaveAt 1) quietEnv "c1" "u1"
              (storeOf drafted)
              (startCampaign (failingSaveAt 1) "c1" "u1" (storeOf drafted)).1.2
              drafted) as ([H1 _] & _ & H3 & H4).
  - vm_compute; reflexivity.
  - vm_compute; reflexivity.
  - reflexivity.
  - split; [exact H1|]. split; [by apply H3|].
    destruct (H4 (processCampaignDirectly (failingSaveAt 1) "c1" "u1"
                    (startCampaign (failingSaveAt 1) "c1" "u1"
                       (storeOf drafted)).1.2).2) as [Hdone|Hagain].
    + vm_compute; reflexivity.
    + reflexivity.
    + vm_compute in Hdone. discriminate Hdone.
    + exact Hagain.
Defined.

(** X5: a request by a user who does not own the campaign changes
    nothing, whatever the store does: start, pause and the two
    add-contact handlers leave the collection exactly as it was and no
    run is launched.  The lookup filters on the owner, so when it
    answers the handlers reply 404 "Campaign not found", as they do for
    a campaign that does not exist. *)
Theorem foreign_campaign_is_not_found env id uid (σ : Store) c :
  σ !! id = Some c →
  userId c ≠ uid →
  ((startCampaign env id uid σ).1.2 = σ
   ∧ (startCampaign env id uid σ).2 = false
   ∧ startAndRun env id uid σ = σ
   ∧ (storeFails env StartFind = false →
      (startCampaign env id uid σ).1.1
      = Ok {| code := 404; success := false; message := "Campaign not found" |}))
  ∧ (pauseCampaign id uid σ
     = ({| code := 404; success := false; message := "Campaign not found" |}, σ)
     ∧ ∀ findFails saveFails,
         (pauseCampaignWith findFails saveFails id uid σ).2 = σ
         ∧ (findFails = false →
            (pauseCampaignWith findFails saveFails id uid σ).1
            = Ok {| code := 404; success := false; message := "Campaign not found" |}))
  ∧ ∀ trim valid findFails saveFails b raws,
      (addContactToCampaign trim valid findFails saveFails id uid b σ).2 = σ
      ∧ (addContactsToCampaign trim valid findFails saveFails id uid raws σ).2 = σ
      ∧ (valid = true → findFails = false →
         (addContactToCampaign trim valid findFails saveFails id uid b σ).1
         = Ok {| code := 404; success := false; message := "Campaign not found" |}
         ∧ (addContactsToCampaign trim valid findFails saveFails id uid raws σ).1
           = Ok {| code := 404; success := false; message := "Campaign not found" |}).
Proof.
  intros Hc Hforeign.
  split; [|split].
  - assert ((startCampaign env id uid σ).1.2 = σ
            ∧ (startCampaign env id uid σ).2 = false) as [Hσ Hlaunch].
    { unfold startCampaign, findOne. destruct (storeFails env StartFind); [done|].
      by rewrite Hc, bool_decide_eq_false_2. }
    split; [done|]. split; [done|]. split.
    + unfold startAndRun. destruct (startCampaign env id uid σ) as [[r σ1] launched].
      simpl in *. by subst.
    + intros Hf. unfold startCampaign, findOne.
      by rewrite Hf, Hc, bool_decide_eq_false_2.
  - split.
    + unfold pauseCampaign, findOne. by rewrite Hc, bool_decide_eq_false_2.
    + intros findFails saveFails. unfold pauseCampaignWith, findOne.
      destruct findFails; [split; [done|]; intros Hff; discriminate Hff|].
      by rewrite Hc, bool_decide_eq_false_2.
  - intros trim valid findFails saveFails b raws.
    unfold addContactToCampaign, addContactsToCampaign.
    destruct valid; simpl; [|by repeat split].
    destruct findFails.
    + simpl. split; [done|]. split; [done|]. intros _ Hff. discriminate Hff.
    + unfold findOne. rewrite Hc, bool_decide_eq_false_2 by done. by repeat split.
Qed.

Lemma foreign_campaign_is_not_found_witness :
  ((startCampaign outage "c1" "u2" (storeOf drafted)).1.2 = storeOf drafted
   ∧ (startCampaign outage "c1" "u2" (storeOf drafted)).2 = false
   ∧ startAndRun outage "c1" "u2" (storeOf drafted) = storeOf drafted
   ∧ (startCampaign outage "c1" "u2" (storeOf drafted)).1.1
     = Ok {| code := 404; success := false; message := "Campaign not found" |})
  ∧ pauseCampaign "c1" "u2" (storeOf drafted)
    = ({| code := 404; success := false; message := "Campaign not found" |},
       storeOf drafted)
  ∧ (addContactToCampaign trimBlanks true false false "c1" "u2" dora (storeOf drafted)).2
    = storeOf drafted.
Proof.
  destruct (foreign_campaign_is_not_found outage "c1" "u2" (storeOf drafted) drafted)
    as ((H1 & H2 & H3 & H4) & [H5 _] & H6).
  - vm_compute; reflexivity.
  - discriminate.
  - split; [|split; [exact H5|]].
    + split; [exact H1|]. split; [exact H2|]. split; [exact H3|]. by apply H4.
    + apply (H6 trimBlanks true false false dora None).
Defined.

(** X6: pauseCampaign acts on running campaigns only.  On a running
    campaign of the requester it stores [paused] and changes neither the
    contacts, the results nor the counters, and touches no other
    campaign; on a campaign in any other status it answers 400 and
    changes nothing, so pausing twice pauses once. *)
Theorem pause_only_running id uid (σ : Store) c :
  σ !! id = Some c → userId c = uid →
  (status c = running →
     ∃ c', pauseCampaign id uid σ
           = ({| code := 200; success := true;
                 message := "Campaign paused successfully" |}, <[id := c']> σ)
           ∧ status c' = paused
           ∧ static c' = static c ∧ progress c' = progress c
           ∧ pauseCampaign id uid (<[id := c']> σ)
             = ({| code := 400; success := false;
                   message := "Campaign is not running" |}, <[id := c']> σ))
  ∧ (status c ≠ running →
     pauseCampaign id uid σ
     = ({| code := 400; success := false; message := "Campaign is not running" |}, σ)).
Proof.
  intros Hc Hu. split.
  - intros Hst. exists (setStatus paused (preSave c)).
    assert (∀ σ0 : Store, ∀ c0, σ0 !! id = Some c0 → userId c0 = uid →
              status c0 ≠ running →
              pauseCampaign id uid σ0
              = ({| code := 400; success := false;
                    message := "Campaign is not running" |}, σ0)) as Hrej.
    { intros σ0 c0 Hc0 Hu0 Hst0. unfold pauseCampaign, findOne.
      rewrite Hc0, bool_decide_eq_true_2 by done. simpl.
      by destruct (status c0). }
    split.
    { unfold pauseCampaign, findOne.
      rewrite Hc, bool_decide_eq_true_2 by done. simpl. rewrite Hst.
      unfold save. simpl. by rewrite Hc. }
    split; [done|]. split; [done|]. split; [done|].
    apply (Hrej _ (setStatus paused (preSave c))); [by rewrite lookup_insert_eq|done..].
  - intros Hst. unfold pauseCampaign, findOne.
    rewrite Hc, bool_decide_eq_true_2 by done. simpl. by destruct (status c).
Qed.

Lemma pause_only_running_witness :
  (∃ c', pauseCampaign "c1" "u1" (storeOf underway)
         = ({| code := 200; success := true;
               message := "Campaign paused successfully" |},
            <["c1" := c']> (storeOf underway))
         ∧ status c' = paused
         ∧ static c' = static underway ∧ progress c' = progress underway
         ∧ pauseCampaign "c1" "u1" (<["c1" := c']> (storeOf underway))
           = ({| code := 400; success := false;
                 message := "Campaign is not running" |},
              <["c1" := c']> (storeOf underway)))
  ∧ pauseCampaign "c1" "u1" (storeOf drafted)
    = ({| code := 400; success := false; message := "Campaign is not running" |},
       storeOf drafted).
Proof.
  split.
  - apply (pause_only_running "c1" "u1" (storeOf underway) underway);
      vm_compute; reflexivity.
  - apply (pause_only_running "c1" "u1" (storeOf drafted) drafted);
      try (vm_compute; reflexivity). discriminate.
Defined.

(** ** The queue handlers in an arbitrary environment *)

Lemma retry_again {St A} n (h : nat → St → Result A * St) k (s : St) :
  retry (S (S n)) h k s
  = match h k s with
    | (Ok a, s') => (Ok a, s')
    | (Throw _, s') => retry (S n) h (S k) s'
    end.
Proof. reflexivity. Qed.

(** A handler that leaves its state alone when it throws, and that runs
    in the same world at every attempt, gains nothing from being run
    again: the retries end where the first attempt did. *)
Lemma retry_eq {St A} n (h : St → Result A * St) k (s : St) :
  (∀ msg s', h s = (Throw msg, s') → s' = s) →
  retry (S n) (λ _, h) k s = h s.
Proof.
  intros Hthrow. revert k. induction n as [|n IH]; intros k.
  - simpl. by destruct (h s) as [[a|msg] s'].
  - rewrite retry_again.
    destruct (h s) as [[a|msg] s'] eqn:Hh; [done|].
    assert (s' = s) as -> by (by eapply Hthrow). apply IH.
Qed.

Lemma processContactJob_throw env j (σ : Store) msg σ' :
  processContactJob env j σ = (Throw msg, σ') → σ' = σ.
Proof.
  unfold processContactJob, findById.
  destruct (storeFails env (JobLoad _)); [by inversion 1|].
  destruct (σ !! campaignId j) as [p|]; simpl; [|by inversion 1].
  destruct (status p); try (by inversion 1);
    (destruct (validateMethod _ _); [|by inversion 1]);
    destruct (save _ _ σ) as [[d2|msg'] σ2] eqn:Hsave; try (by inversion 1);
    apply save_throw in Hsave as ->; by inversion 1.
Qed.

(** What one contact job can do to its campaign: nothing, or append one
    result and bump one counter. *)
Lemma processContactJob_effect env j (σ : Store) p r (σ' : Store) :
  σ !! campaignId j = Some p →
  processContactJob env j σ = (r, σ') →
  σ' = σ
  ∨ ∃ p' res,
      σ' = <[campaignId j := p']> σ
      ∧ status p ≠ paused
      ∧ static p' = static p
      ∧ results p' = results p ++ [res]
      ∧ contactId res = pretty (contactIndex j)
      ∧ contactName res = name (contact j)
      ∧ length (methods res) = 1
      ∧ successCount p' + failureCount p' = S (successCount p + failureCount p).
Proof.
  intros Hp Hrun.
  destruct (storeFails env (JobLoad (contactIndex j))) eqn:Hl.
  { left. revert Hrun. unfold processContactJob, findById. rewrite Hl. by inversion 1. }
  destruct (decide (status p = paused)) as [Hst|Hst].
  { left. revert Hrun. unfold processContactJob, findById. rewrite Hl, Hp. simpl.
    rewrite Hst. by inversion 1. }
  destruct (campaignType j) as [m|] eqn:Ht.
  2:{ left. revert Hrun. unfold processContactJob, findById, validateMethod.
      rewrite Hl, Hp, Ht. simpl.
      destruct (status p), (attemptJob env j); by inversion 1. }
  destruct (storeFails env (JobSave (contactIndex j))) eqn:Hs.
  { left. revert Hrun. unfold processContactJob, findById, validateMethod.
    rewrite Hl, Hp, Ht, Hs. simpl.
    unfold save. destruct (status p), (attemptJob env j); by inversion 1. }
  destruct (processContactJob_step env j m σ p Hp Hst Ht Hl Hs) as [ret Hstep].
  rewrite Hstep in Hrun. inversion Hrun; subst. right.
  exists (jobStep env j m p), (jobResult env j m).
  split; [done|]. split; [done|]. split; [apply jobStep_static|].
  split; [apply jobStep_results|]. split; [done|]. split; [done|]. split; [done|].
  rewrite jobStep_successCount, jobStep_failureCount, !tally_singleton.
  destruct (succeededb _); simpl; lia.
Qed.

(** Where the retries of a handler end, when an attempt that throws
    leaves the state as it found it: in a throw with the state
    untouched, or in the first attempt that returns. *)
Lemma retry_outcome {St A} n (h : nat → St → Result A * St) k (s : St) :
  (∀ i s0 msg s', h i s0 = (Throw msg, s') → s' = s0) →
  (∃ msg, retry n h k s = (Throw msg, s))
  ∨ ∃ i a s',
      k ≤ i < k + n
      ∧ h i s = (Ok a, s')
      ∧ retry n h k s = (Ok a, s')
      ∧ ∀ i', k ≤ i' < i → ∃ msg, h i' s = (Throw msg, s).
Proof.
  intros Hthrow. revert k. induction n as [|n IH]; intros k.
  - left. by eexists.
  - assert (∀ a s', h k s = (Ok a, s') →
              ∃ i a0 s0, k ≤ i < k + S n ∧ h i s = (Ok a0, s0)
                ∧ (Ok a, s') = (Ok a0, s0)
                ∧ ∀ i', k ≤ i' < i → ∃ msg, h i' s = (Throw msg, s)) as Hnow.
    { intros a s' Hh. exists k, a, s'. split; [lia|]. split; [done|].
      split; [done|]. intros i' Hi'. lia. }
    destruct n as [|n].
    + simpl. destruct (h k s) as [[a|msg] s'] eqn:Hh.
      * right. by apply Hnow.
      * left. apply Hthrow in Hh as ->. by eexists.
    + rewrite retry_again. destruct (h k s) as [[a|msg] s'] eqn:Hh.
      * right. by apply Hnow.
      * pose proof (Hthrow _ _ _ _ Hh) as ->.
        destruct (IH (S k)) as [[m Hm]|(i & a & s' & Hi & Hok & Heq & Hbefore)].
        -- left. by eexists.
        -- right. exists i, a, s'. split; [lia|]. split; [done|]. split; [done|].
           intros i' Hi'. destruct (decide (i' = k)) as [->|Hne]; [by eexists|].
           apply Hbefore. lia.
Qed.

(** X7: a contact job, with all the retries the queue grants it and in
    a world that may change from one attempt to the next, records at
    most one result for its contact.  The handler writes only in its
    last step, so an attempt that throws has written nothing, and the
    retries stop at the first attempt that returns: when the campaign
    has changed, it was changed by that one attempt, all earlier
    attempts having thrown.  The result recorded carries the job's
    contact index and name and one method entry, and exactly one
    counter is bumped. *)
Theorem job_with_retries_records_at_most_once (envs : nat → Env) j (σ : Store) p :
  σ !! campaignId j = Some p →
  (∀ env (σ0 : Store) msg σ', processContactJob env j σ0 = (Throw msg, σ') → σ' = σ0)
  ∧ ∃ p',
      (retry attempts (λ k, processContactJob (envs k) j) 0 σ).2 !! campaignId j
      = Some p'
      ∧ static p' = static p
      ∧ (p' = p
         ∨ ∃ k res,
             k < attempts
             ∧ (∀ i, i < k → ∃ msg, processContactJob (envs i) j σ = (Throw msg, σ))
             ∧ (processContactJob (envs k) j σ).2
               = (retry attempts (λ k, processContactJob (envs k) j) 0 σ).2
             ∧ results p' = results p ++ [res]
             ∧ contactId res = pretty (contactIndex j)
             ∧ contactName res = name (contact j)
             ∧ length (methods res) = 1
             ∧ successCount p' + failureCount p'
               = S (successCount p + failureCount p)).
Proof.
  intros Hp. split; [intros env σ0 msg σ'; apply processContactJob_throw|].
  destruct (retry_outcome attempts (λ k, processContactJob (envs k) j) 0 σ)
    as [[msg ->]|(k & a & σ' & Hk & Hok & -> & Hbefore)].
  { intros i σ0 msg σ'. apply processContactJob_throw. }
  { exists p. by eauto. }
  destruct (processContactJob_effect (envs k) j σ p _ σ' Hp Hok)
    as [-> | (p' & res & -> & _ & Hs & Hres & H1 & H2 & H3 & H4)]; simpl.
  - exists p. by eauto.
  - exists p'. rewrite lookup_insert_eq. split; [done|]. split; [done|].
    right. exists k, res. split; [lia|]. split.
    { intros i Hi. apply Hbefore. lia. }
    split; [by rewrite Hok|]. done.
Qed.

(** The first attempt meets a store that rejects the save; the second
    one records the contact. *)
Lemma job_with_retries_records_at_most_once_witness :
  (∀ env (σ0 : Store) msg σ',
     processContactJob env (data (jobFor "c1" "u1" hello (OneOf sms) 0 alice)) σ0
     = (Throw msg, σ') → σ' = σ0)
  ∧ ∃ p',
      (retry attempts
         (λ k, processContactJob (clearing k)
                 (data (jobFor "c1" "u1" hello (OneOf sms) 0 alice)))
         0 (storeOf underway)).2 !! "c1" = Some p'
      ∧ static p' = static underway
      ∧ results p' = [sentBySms 0 alice]
      ∧ successCount p' + failureCount p' = 1.
Proof.
  destruct (job_with_retries_records_at_most_once clearing
              (data (jobFor "c1" "u1" hello (OneOf sms) 0 alice)) (storeOf underway)
              underway) as [Hthrow (p' & Hp' & Hs & _)].
  { vm_compute; reflexivity. }
  split; [exact Hthrow|].
  exists p'. split; [exact Hp'|]. split; [exact Hs|].
  vm_compute in Hp'. injection Hp' as <-. split; reflexivity.
Defined.

Lemma pauseCampaign_idle id uid (σ : Store) p :
  σ !! id = Some p → status p ≠ running → (pauseCampaign id uid σ).2 = σ.
Proof.
  intros Hp Hst. unfold pauseCampaign, findOne. rewrite Hp.
  case_bool_decide; [|done]. simpl. by destruct (status p).
Qed.

Lemma served_idle env id uid i (σ : Store) p :
  σ !! id = Some p → status p ≠ running → served env id uid i σ = σ.
Proof.
  intros Hp Hst. unfold served. destruct (pauseBefore env i); [|done].
  by apply (pauseCampaign_idle _ _ _ p).
Qed.

(** X8: once the stored status is [paused], the queue path records
    nothing more: a contact job that finds the campaign paused answers
    [{ success: false, reason: 'paused' }] without writing, and a whole
    backlog of the campaign's jobs, retries included, leaves the store
    exactly as it was, so the status stays [paused]. *)
Theorem paused_campaign_stops_the_queue env id (jobs : list Job) (σ : Store) p :
  σ !! id = Some p →
  status p = paused →
  Forall (λ j, campaignId (data j) = id) jobs →
  runContactJobs env jobs σ = σ
  ∧ ∀ j, j ∈ jobs →
      storeFails env (JobLoad (contactIndex (data j))) = false →
      processContactJob env (data j) σ
      = (Ok {| jobSuccess := false; reason := Some "paused" |}, σ).
Proof.
  intros Hp Hst Hjobs. split.
  - induction Hjobs as [|j jobs Hj _ IH]; [done|]. cbn [runContactJobs].
    rewrite Hj.
    rewrite (served_idle _ _ _ _ _ p) by (done || by rewrite Hst).
    unfold attempts.
    rewrite retry_eq by (intros msg σ'; apply processContactJob_throw).
    destruct (processContactJob env (data j) σ) as [r σ'] eqn:Hrun.
    rewrite <- Hj in Hp.
    destruct (processContactJob_effect env (data j) σ p r σ' Hp Hrun)
      as [-> | (p' & res & _ & Hne & _)]; [done|]. by rewrite Hst in Hne.
  - intros j Hin Hl. rewrite Forall_forall in Hjobs.
    specialize (Hjobs j Hin). simpl in Hjobs.
    unfold processContactJob, findById. rewrite Hl, Hjobs, Hp. simpl.
    by rewrite Hst.
Qed.

Lemma paused_campaign_stops_the_queue_witness :
  runContactJobs quietEnv (jobsFrom "c1" "u1" hello (OneOf sms) 0 [alice; carol])
    (storeOf parkedMidway)
  = storeOf parkedMidway
  ∧ ∀ j, j ∈ jobsFrom "c1" "u1" hello (OneOf sms) 0 [alice; carol] →
      storeFails quietEnv (JobLoad (contactIndex (data j))) = false →
      processContactJob quietEnv (data j) (storeOf parkedMidway)
      = (Ok {| jobSuccess := false; reason := Some "paused" |}, storeOf parkedMidway).
Proof.
  apply (paused_campaign_stops_the_queue quietEnv "c1" _ (storeOf parkedMidway)
           parkedMidway).
  - vm_compute; reflexivity.
  - reflexivity.
  - repeat constructor.
Defined.

Lemma retry_S {St A} n (h : nat → St → Result A * St) k (s : St) :
  retry (S n) h k s
  = match h k s with
    | (Ok a, s') => (Ok a, s')
    | (Throw msg, s') =>
        match n with
        | 0 => (Throw msg, s')
        | S _ => retry n h (S k) s'
        end
    end.
Proof. reflexivity. Qed.

(** The adds of one pass leave a prefix of the jobs in the queue: all of
    them when no add rejects, those before the first rejected add
    otherwise. *)
Lemma addJobs_prefix addFails mk todo : ∀ i queue,
  ∃ n,
    n ≤ length todo
    ∧ (addJobs addFails mk i todo queue).2
      = queue ++ take n (imap (λ k x, mk (i + k) x) todo)
    ∧ match (addJobs addFails mk i todo queue).1 with
      | Ok _ => n = length todo
      | Throw _ => n < length todo ∧ addFails (i + n) = true
      end.
Proof.
  induction todo as [|x todo IH]; intros i queue; simpl.
  - exists 0. by rewrite app_nil_r.
  - destruct (addFails i) eqn:Hf.
    + exists 0. simpl. rewrite app_nil_r, Nat.add_0_r.
      split; [lia|]. split; [done|]. split; [lia|done].
    + destruct (IH (S i) (queue ++ [mk i x])) as (n & Hn & Hq & Hr).
      exists (S n). split; [lia|]. split.
      { rewrite Hq, <- app_assoc. simpl. rewrite Nat.add_0_r. do 3 f_equal.
        apply imap_ext. intros k y _. simpl. by rewrite Nat.add_succ_r. }
      destruct (addJobs addFails mk (S i) todo (queue ++ [mk i x])).1; [lia|].
      rewrite Nat.add_succ_r. split; [lia|]. apply Hr.
Qed.

(** One attempt of the 'start-campaign' job, whatever fails: either the
    store rejected and nothing changed, or [running] was saved and a
    prefix of the campaign's jobs was queued, the whole list when the
    handler returns. *)
Lemma startCampaignJob_effect env addFails id uid (σ : Store) queue c0 :
  σ !! id = Some c0 →
  ∃ m,
    m ≤ length (contacts c0)
    ∧ (startCampaignJob env addFails id uid (σ, queue)).2.2
      = queue ++ take m (jobsFrom id uid (messageTemplate c0) (type c0) 0 (contacts c0))
    ∧ ((startCampaignJob env addFails id uid (σ, queue)).2.1 = σ
       ∧ m = 0
       ∧ (∃ msg, (startCampaignJob env addFails id uid (σ, queue)).1 = Throw msg)
       ∨ (startCampaignJob env addFails id uid (σ, queue)).2.1
         = <[id := setStatus running (preSave c0)]> σ
         ∧ match (startCampaignJob env addFails id uid (σ, queue)).1 with
           | Ok q => q = length (contacts c0) ∧ m = length (contacts c0)
           | Throw _ => m < length (contacts c0)
           end).
Proof.
  intros Hc. unfold startCampaignJob, findById. cbn [fst snd].
  destruct (storeFails env JobStartLoad).
  { exists 0. simpl. rewrite app_nil_r. split; [lia|]. split; [done|]. left. by eauto. }
  rewrite Hc. simpl.
  destruct (storeFails env JobStartSave).
  { exists 0. simpl. rewrite app_nil_r. split; [lia|]. split; [done|]. left. by eauto. }
  erewrite save_ok by (simpl; exact Hc). simpl.
  destruct (addJobs_prefix addFails (jobFor id uid (messageTemplate c0) (type c0))
              (contacts c0) 0 queue) as (m & Hm & Hq & Hr).
  exists m. split; [done|].
  destruct (addJobs _ _ _ _ _) as [[[]|msg] queue']; simpl in *.
  - split; [done|]. right. by eauto.
  - split; [done|]. right. split; [done|]. apply Hr.
Qed.

Lemma started_static c0 : static (setStatus running (preSave c0)) = static c0.
Proof. done. Qed.




(** X10: the queue path completes a campaign only from inside a contact
    job, so a campaign without contacts, for which no job is queued, is
    marked running by the 'start-campaign' job and stays running (the
    direct path marks the same campaign completed). *)
Theorem queue_leaves_empty_campaign_running env id uid (σ : Store) c :
  σ !! id = Some c →
  contacts c = [] →
  storeFails env JobStartLoad = false →
  storeFails env JobStartSave = false →
  ∃ c', queuePath env id uid σ !! id = Some c'
        ∧ status c' = running
        ∧ progress c' = progress c.
Proof.
  intros Hc Hcs Hl Hs. unfold queuePath, attempts.
  rewrite retry_S.
  rewrite (startCampaignJob_ok env id uid (λ _, false) σ [] c) by done.
  rewrite Hcs. simpl. rewrite lookup_insert_eq. by eexists.
Qed.

Lemma queue_leaves_empty_campaign_running_witness :
  ∃ c', queuePath quietEnv "c1" "u1" (storeOf hollow) !! "c1" = Some c'
        ∧ status c' = running
        ∧ progress c' = progress hollow.
Proof.
  apply (queue_leaves_empty_campaign_running quietEnv "c1" "u1" (storeOf hollow)
           hollow); vm_compute; reflexivity.
Defined.

(** A job of type 'all': the [switch] takes its [default] branch, the
    [catch] counts a failure, and the pushed entry, whose [method] is
    'all', fails the schema's enum when the document is saved. *)
Lemma processContactJob_all env j (σ : Store) p :
  campaignType j = All →
  σ !! campaignId j = Some p →
  status p ≠ paused →
  storeFails env (JobLoad (contactIndex j)) = false →
  attemptJob env j = Throw "Invalid campaign type: all"
  ∧ processContactJob env j σ
    = (Throw ("Campaign validation failed: results." +:+ pretty (length (results p))
              +:+ ".methods.0.method: `all` is not a valid enum value for path `method`."),
       σ).
Proof.
  intros Ht Hp Hst Hl. unfold processContactJob, validateMethod, attemptJob.
  rewrite Hl, findById_ok, Hp, Ht. simpl. by destruct (status p).
Qed.

Lemma processContactJob_all_idle env j (σ : Store) :
  campaignType j = All → (processContactJob env j σ).2 = σ.
Proof.
  intros Ht. unfold processContactJob, findById, validateMethod.
  destruct (storeFails env (JobLoad _)); [done|].
  destruct (σ !! campaignId j) as [p|]; simpl; [|done].
  rewrite Ht. by destruct (status p), (attemptJob env j).
Qed.

Lemma runContactJobs_all env id (jobs : list Job) : ∀ (σ : Store) p,
  σ !! id = Some p →
  Forall (λ j, campaignId (data j) = id ∧ campaignType (data j) = All) jobs →
  ∃ p',
    runContactJobs env jobs σ !! id = Some p'
    ∧ static p' = static p ∧ progress p' = progress p
    ∧ (status p' = status p ∨ status p' = paused).
Proof.
  induction jobs as [|j jobs IH]; intros σ p Hp Hjobs.
  - exists p. by eauto.
  - apply Forall_cons in Hjobs as [[Hid Ht] Hjobs]. cbn [runContactJobs].
    rewrite Hid.
    destruct (served_lookup env id (jobUserId (data j)) (contactIndex (data j)) σ p Hp)
      as (p1 & Hp1 & Hs1 & Hpr1 & Hst1).
    unfold attempts.
    rewrite retry_eq by (intros msg σ'; apply processContactJob_throw).
    rewrite processContactJob_all_idle by done.
    destruct (IH _ p1 Hp1 Hjobs) as (p' & Hp' & Hs' & Hpr' & Hst').
    exists p'. split; [done|]. split; [congruence|]. split; [congruence|].
    destruct Hst' as [Hst'|Hst']; [|by right].
    rewrite Hst'. done.
Qed.

(** X11: the queue path never records anything for a campaign of type
    'all'.  The 'start-campaign' job passes [campaign.type] on as the
    jobs' [campaignType]; the contact handler's [switch] has no case for
    'all', so the attempt counts as failed, and the entry the handler
    pushes, with [method: 'all'], is refused by the schema's enum when
    the document is saved: every attempt of such a job on a campaign
    that is not paused throws with nothing written.  Whatever the store,
    the gateway and pause requests do, the results and counters stay as
    they were and the campaign is never marked completed. *)
Theorem queue_never_records_type_all env id uid (σ : Store) c :
  σ !! id = Some c →
  type c = All →
  (∃ c',
     queuePath env id uid σ !! id = Some c'
     ∧ static c' = static c
     ∧ progress c' = progress c
     ∧ (status c ≠ completed → status c' ≠ completed))
  ∧ ∀ i x (σ0 : Store) p,
      σ0 !! id = Some p → status p ≠ paused →
      storeFails env (JobLoad i) = false →
      attemptJob env (data (jobFor id uid (messageTemplate c) (type c) i x))
      = Throw "Invalid campaign type: all"
      ∧ ∃ msg,
          processContactJob env (data (jobFor id uid (messageTemplate c) (type c) i x)) σ0
          = (Throw msg, σ0).
Proof.
  intros Hc Ht. split.
  - unfold queuePath, attempts.
    rewrite retry_eq by (intros msg s'; apply startCampaignJob_throw).
    destruct (startCampaignJob_effect env (λ _, false) id uid σ [] c Hc)
      as (m & Hm & Hq & Hcase).
    destruct (startCampaignJob env (λ _, false) id uid (σ, [])) as [r [σ1 queue1]].
    cbn [fst snd app] in *. subst queue1.
    assert (Forall (λ j, campaignId (data j) = id ∧ campaignType (data j) = All)
              (take m (jobsFrom id uid (messageTemplate c) (type c) 0 (contacts c))))
      as Hjobs.
    { apply Forall_take, Forall_lookup. intros i j Hj. unfold jobsFrom in Hj.
      rewrite list_lookup_imap in Hj.
      destruct (contacts c !! i); simpl in Hj; simplify_eq. by simpl. }
    set (jobs := take m (jobsFrom id uid (messageTemplate c) (type c) 0 (contacts c)))
      in *.
    destruct Hcase as [(-> & _ & _)|[-> _]].
    + destruct (runContactJobs_all env id jobs σ c Hc Hjobs)
        as (p' & Hp' & Hs' & Hpr' & Hst').
      exists p'. split; [done|]. split; [done|]. split; [done|].
      intros Hne. destruct Hst' as [Hst'|Hst']; rewrite Hst'; [done|discriminate].
    + destruct (runContactJobs_all env id jobs (<[id := setStatus running (preSave c)]> σ)
                  (setStatus running (preSave c))) as (p' & Hp' & Hs' & Hpr' & Hst');
        [by rewrite lookup_insert_eq|done|].
      exists p'. split; [done|]. split; [done|]. split; [done|].
      intros _. destruct Hst' as [Hst'|Hst']; rewrite Hst'; discriminate.
  - intros i x σ0 p Hp Hst Hl. rewrite Ht.
    destruct (processContactJob_all env (data (jobFor id uid (messageTemplate c) All i x))
                σ0 p) as [Ha Hj]; try done.
    split; [done|]. by eexists.
Qed.

Lemma queue_never_records_type_all_witness :
  (∃ c',
     queuePath quietEnv "c1" "u1" (storeOf everyChannel) !! "c1" = Some c'
     ∧ static c' = static everyChannel
     ∧ progress c' = progress everyChannel
     ∧ status c' ≠ completed)
  ∧ ∃ msg,
      processContactJob quietEnv
        (data (jobFor "c1" "u1" hello All 0 alice)) (storeOf everyChannel)
      = (Throw msg, storeOf everyChannel).
Proof.
  destruct (queue_never_records_type_all quietEnv "c1" "u1" (storeOf everyChannel)
              everyChannel) as [(c' & H1 & H2 & H3 & H4) Hjob];
    [vm_compute; reflexivity | reflexivity |].
  split.
  - exists c'. repeat (split; [assumption|]). apply H4. discriminate.
  - apply (Hjob 0 alice (storeOf everyChannel) everyChannel);
      [vm_compute; reflexivity | discriminate | reflexivity].
Defined.

(** * Adding contacts *)

Section contacts_properties.
Context (trim : string → string).

Lemma saveContacts_throw fails d (σ : Store) msg σ' :
  saveContacts fails d σ = (Throw msg, σ') → σ' = σ.
Proof.
  unfold saveContacts. destruct fails; [by inversion 1|].
  destruct (σ !! docId d); by inversion 1.
Qed.

(** What a request with contacts to add does to the store, when it gets
    as far as saving. *)
Lemma addContacts_saved saveFails id (σ : Store) c xs r (σ' : Store) :
  σ !! id = Some c →
  saveContacts saveFails
    (update (pushContacts xs) {| docId := id; fields := c; statusModified := false |}) σ
  = (r, σ') →
  σ' = σ ∨ σ' = <[id := preSave (pushContacts xs c)]> σ.
Proof.
  intros Hc. unfold saveContacts. destruct saveFails; [inversion 1; by left|].
  simpl. rewrite Hc. inversion 1; subst. right. reflexivity.
Qed.

(** X12: addContactsToCampaign, when the request passes validation, the
    campaign is the requester's, the array holds at least one contact
    with a non-blank name and the store answers, appends exactly the
    contacts with a non-blank name, normalized and in request order, to
    the contact list and sets [totalContacts] to the new length.  It
    does so in every status (a running or completed campaign included)
    and leaves status, results and counters as they were. *)
Theorem add_contacts_appends_named id uid bs (σ : Store) c :
  σ !! id = Some c → userId c = uid →
  List.filter (hasName trim) bs ≠ [] →
  ∃ c',
    addContactsToCampaign trim true false false id uid (Some bs) σ
    = (Ok {| code := 200; success := true;
             message := pretty (length (List.filter (hasName trim) bs))
                        +:+ " contacts added successfully" |},
       <[id := c']> σ)
    ∧ contacts c' = contacts c ++ map (normalized trim) (List.filter (hasName trim) bs)
    ∧ totalContacts c' = length (contacts c')
    ∧ status c' = status c
    ∧ progress c' = progress c.
Proof.
  intros Hc Hu Hne. unfold addContactsToCampaign, findOne. simpl.
  rewrite Hc, bool_decide_eq_true_2 by done.
  destruct bs as [|b bs]; [done|].
  destruct (List.filter (hasName trim) (b :: bs)) as [|k ks] eqn:Hf; [done|].
  cbn [map]. unfold saveContacts. simpl. rewrite Hc, length_map.
  eexists. split; [done|]. by destruct c.
Qed.

(** X13: the two add handlers write only on success: whenever the
    answer is not the 200 one (validation failed, campaign missing or
    foreign, no usable name, or the store rejected), the store is left
    exactly as it was. *)
Theorem add_handlers_write_only_on_success valid findFails saveFails id uid
    b raws (σ : Store) :
  (∀ r σ', addContactToCampaign trim valid findFails saveFails id uid b σ = (r, σ') →
     (∃ resp, r = Ok resp ∧ code resp = 200) ∨ σ' = σ)
  ∧ (∀ r σ', addContactsToCampaign trim valid findFails saveFails id uid raws σ = (r, σ') →
     (∃ resp, r = Ok resp ∧ code resp = 200) ∨ σ' = σ).
Proof.
  split; intros r σ'.
  - unfold addContactToCampaign, findOne.
    destruct valid; simpl; [|inversion 1; by right].
    destruct findFails; [inversion 1; by right|].
    destruct (σ !! id) as [c|]; [|inversion 1; by right].
    case_bool_decide; [|inversion 1; by right].
    destruct (hasName trim b); simpl; [|inversion 1; by right].
    destruct (saveContacts _ _ σ) as [[d2|msg] σ2] eqn:Hsave.
    + inversion 1; subst. left. by eexists.
    + apply saveContacts_throw in Hsave as ->. inversion 1; by right.
  - unfold addContactsToCampaign, findOne.
    destruct valid; simpl; [|inversion 1; by right].
    destruct findFails; [inversion 1; by right|].
    destruct (σ !! id) as [c|]; [|inversion 1; by right].
    case_bool_decide; [|inversion 1; by right].
    destruct raws as [[|b0 bs]|]; try (inversion 1; by right).
    destruct (map _ _) as [|k ks]; [inversion 1; by right|].
    destruct (saveContacts _ _ σ) as [[d2|msg] σ2] eqn:Hsave.
    + inversion 1; subst. left. by eexists.
    + apply saveContacts_throw in Hsave as ->. inversion 1; by right.
Qed.

(** X14: the two add handlers side by side.  When the validators of the
    two routes give the same verdict (they are different chains, so the
    verdicts themselves may differ), adding one contact changes the
    store exactly as adding the one-element array does, and is answered
    with the same status code, or fails with the same exception; the
    handlers differ only in the wording of their answers. *)
Theorem add_one_is_add_singleton valid1 valid2 findFails saveFails id uid b (σ : Store) :
  valid1 = valid2 →
  (addContactToCampaign trim valid1 findFails saveFails id uid b σ).2
  = (addContactsToCampaign trim valid2 findFails saveFails id uid (Some [b]) σ).2
  ∧ match (addContactToCampaign trim valid1 findFails saveFails id uid b σ).1,
          (addContactsToCampaign trim valid2 findFails saveFails id uid (Some [b]) σ).1
    with
    | Ok one, Ok many => code one = code many ∧ success one = success many
    | Throw msg, Throw msg' => msg = msg'
    | _, _ => False
    end.
Proof.
  intros <-.
  unfold addContactToCampaign, addContactsToCampaign, findOne.
  destruct valid1; simpl; [|done].
  destruct findFails; [done|].
  destruct (σ !! id) as [c|]; [|done].
  case_bool_decide; [|done].
  destruct (hasName trim b); simpl; [|done].
  by destruct (saveContacts _ _ σ) as [[d2|msg] σ2].
Qed.

Lemma truthy_not_empty s : truthy s ≠ Some "".
Proof. by destruct s as [[|a s]|]. Qed.

Lemma normalized_tidy b : hasName trim b = true → tidy (normalized trim b).
Proof.
  unfold hasName, normalized, tidy. simpl. intros Hn.
  split; [|split; apply truthy_not_empty].
  destruct (bodyName b) as [[|a n]|]; simpl in *; try done.
  apply negb_true_iff, bool_decide_eq_false in Hn. done.
Qed.

(** X15: the add handlers keep the contact list tidy: if every stored
    contact has a non-empty name and no empty string for a phone number
    or address, the same holds after either handler, whatever the
    request; and for a tidy contact the SMS channel is refused exactly
    when the contact has no phone number. *)
Theorem add_handlers_keep_contacts_tidy valid findFails saveFails id uid
    b raws (σ : Store) c :
  σ !! id = Some c →
  Forall tidy (contacts c) →
  (∃ c1, (addContactToCampaign trim valid findFails saveFails id uid b σ).2 !! id
         = Some c1 ∧ Forall tidy (contacts c1))
  ∧ (∃ c2, (addContactsToCampaign trim valid findFails saveFails id uid raws σ).2 !! id
           = Some c2 ∧ Forall tidy (contacts c2))
  ∧ (∀ x, tidy x → (lacks sms x ↔ phone x = None)).
Proof.
  intros Hc Htidy.
  assert (∀ xs r σ' sf, Forall tidy xs →
            saveContacts sf
              (update (pushContacts xs)
                 {| docId := id; fields := c; statusModified := false |}) σ = (r, σ') →
            ∃ c', σ' !! id = Some c' ∧ Forall tidy (contacts c')) as Hsave.
  { intros xs r σ' sf Hxs Hs.
    destruct (addContacts_saved sf id σ c xs r σ' Hc Hs) as [-> | ->].
    - by exists c.
    - rewrite lookup_insert_eq. eexists. split; [done|]. simpl.
      by apply Forall_app. }
  split; [|split].
  - unfold addContactToCampaign, findOne.
    destruct valid; simpl; [|by exists c].
    destruct findFails; [by exists c|]. rewrite Hc.
    case_bool_decide; [|by exists c].
    destruct (hasName trim b) eqn:Hb; simpl; [|by exists c].
    destruct (saveContacts _ _ σ) as [r σ'] eqn:Hs.
    apply Hsave in Hs as (c' & Hc' & Ht); [|by repeat constructor; apply normalized_tidy].
    exists c'. by destruct r.
  - unfold addContactsToCampaign, findOne.
    destruct valid; simpl; [|by exists c].
    destruct findFails; [by exists c|]. rewrite Hc.
    case_bool_decide; [|by exists c].
    destruct raws as [[|b0 bs]|]; try by exists c.
    assert (Forall tidy (map (normalized trim) (List.filter (hasName trim) (b0 :: bs))))
      as Hxs.
    { apply Forall_fmap, Forall_forall. intros k Hk.
      apply list_elem_of_In, List.filter_In in Hk as [_ Hk].
      by apply normalized_tidy. }
    destruct (map _ _) as [|k ks] eqn:Hm; [by exists c|].
    destruct (saveContacts _ _ σ) as [r σ'] eqn:Hs.
    apply Hsave in Hs as (c' & Hc' & Ht); [|done].
    exists c'. by destruct r.
  - intros x (_ & Hp & _). unfold lacks.
    destruct (phone x) as [[|a s]|]; simpl; split; try done.
Qed.

End contacts_properties.

Lemma add_contacts_appends_named_witness :
  ∃ c',
    addContactsToCampaign trimBlanks true false false "c1" "u1"
      (Some [nameless; dora]) (storeOf underway)
    = (Ok {| code := 200; success := true;
             message := pretty (length (List.filter (hasName trimBlanks) [nameless; dora]))
                        +:+ " contacts added successfully" |},
       <["c1" := c']> (storeOf underway))
    ∧ contacts c'
      = contacts underway
        ++ map (normalized trimBlanks) (List.filter (hasName trimBlanks) [nameless; dora])
    ∧ totalContacts c' = length (contacts c')
    ∧ status c' = status underway
    ∧ progress c' = progress underway.
Proof.
  apply (add_contacts_appends_named trimBlanks "c1" "u1" [nameless; dora]
           (storeOf underway) underway); vm_compute; (reflexivity || discriminate).
Defined.

Lemma add_handlers_keep_contacts_tidy_witness :
  (∃ c1, (addContactToCampaign trimBlanks true false false "c1" "u1" dora
            (storeOf single)).2 !! "c1" = Some c1
         ∧ Forall tidy (contacts c1))
  ∧ (∃ c2, (addContactsToCampaign trimBlanks true false false "c1" "u1"
              (Some [nameless; dora]) (storeOf single)).2 !! "c1" = Some c2
           ∧ Forall tidy (contacts c2))
  ∧ (∀ x, tidy x → (lacks sms x ↔ phone x = None)).
Proof.
  apply (add_handlers_keep_contacts_tidy trimBlanks true false false "c1" "u1"
           dora (Some [nameless; dora]) (storeOf single) single).
  - vm_compute; reflexivity.
  - repeat constructor; discriminate.
Defined.

Lemma add_one_is_add_singleton_witness :
  (addContactToCampaign trimBlanks true false false "c1" "u1" dora (storeOf single)).2
  = (addContactsToCampaign trimBlanks true false false "c1" "u1" (Some [dora])
       (storeOf single)).2
  ∧ match (addContactToCampaign trimBlanks true false false "c1" "u1" dora
             (storeOf single)).1,
          (addContactsToCampaign trimBlanks true false false "c1" "u1" (Some [dora])
             (storeOf single)).1
    with
    | Ok one, Ok many => code one = code many ∧ success one = success many
    | Throw msg, Throw msg' => msg = msg'
    | _, _ => False
    end.
Proof.
  apply (add_one_is_add_singleton trimBlanks true true false false "c1" "u1" dora
           (storeOf single)).
  reflexivity.
Defined.

(** The normalized form of the sample request. *)
Example normalized_dora :
  normalized trimBlanks dora
  = {| name := "Dora"; phone := Some "+15550004"; mail := None |}.
Proof. reflexivity. Qed.

(** * Parsing uploaded contacts *)

Lemma firstTruthy_empty cells :
  firstTruthy cells = "" ↔ Forall (λ c, truthy c = None) cells.
Proof.
  induction cells as [|c cells IH]; simpl.
  - split; [constructor|done].
  - destruct (truthy c) as [v|] eqn:Hc.
    + split.
      * intros ->. by destruct c as [[|a s]|].
      * intros H. apply Forall_cons in H as [H _]. congruence.
    + rewrite IH. split.
      * intros H. by constructor.
      * intros H. by apply Forall_cons in H as [_ H].
Qed.

Lemma firstTruthy_nonempty cells :
  firstTruthy cells ≠ "" ↔ Exists (λ c, ∃ v, c = Some v ∧ v ≠ "") cells.
Proof.
  induction cells as [|c cells IH].
  - split; [done|]. intros H. by apply Exists_nil in H.
  - rewrite Exists_cons. destruct c as [[|a s]|]; simpl.
    + rewrite IH. split; [by right|]. intros [(v & Hv & Hne)|H]; [|done].
      by simplify_eq.
    + split; [|done]. intros _. left. by eexists.
    + rewrite IH. split; [by right|]. by intros [(v & Hv & Hne)|H].
Qed.

Lemma parseCSV_app rows rows' :
  parseCSV (rows ++ rows') = parseCSV rows ++ parseCSV rows'.
Proof. unfold parseCSV. by rewrite map_app, List.filter_app. Qed.

(** X16: the contacts parsed from an upload are exactly the rows that
    have a non-empty cell under [name], [Name] or [NAME], in row order:
    every parsed contact has a non-empty name and (possibly empty)
    strings for phone and e-mail, no row yields more than one contact,
    and parsing two batches of rows one after the other gives the
    contacts of the first followed by those of the second. *)
Theorem parseCSV_keeps_the_named_rows (rows rows' : list (gmap string string)) :
  (∀ x, x ∈ parseCSV rows ↔ ∃ row, row ∈ rows ∧ x = contactOfRow row ∧ name x ≠ "")
  ∧ (∀ row : gmap string string,
       name (contactOfRow row) ≠ ""
       ↔ Exists (λ k, ∃ v, row !! k = Some v ∧ v ≠ "") ["name"; "Name"; "NAME"])
  ∧ Forall (λ x, name x ≠ "" ∧ is_Some (phone x) ∧ is_Some (mail x)) (parseCSV rows)
  ∧ length (parseCSV rows) ≤ length rows
  ∧ parseCSV (rows ++ rows') = parseCSV rows ++ parseCSV rows'.
Proof.
  assert (∀ x, x ∈ parseCSV rows
               ↔ ∃ row, row ∈ rows ∧ x = contactOfRow row ∧ name x ≠ "") as Hin.
  { intros x. unfold parseCSV.
    rewrite list_elem_of_In, List.filter_In, <- list_elem_of_In, list_elem_of_fmap.
    rewrite negb_true_iff, bool_decide_eq_false.
    split.
    - intros [(row & -> & Hrow) Hn]. by exists row.
    - intros (row & Hrow & -> & Hn). split; [by exists row|done]. }
  split; [done|]. split; [|split; [|split]].
  - intros row.
    change (name (contactOfRow row))
      with (firstTruthy ((λ k, row !! k) <$> ["name"; "Name"; "NAME"])).
    by rewrite firstTruthy_nonempty, Exists_fmap.
  - apply Forall_forall. intros x Hx. apply Hin in Hx as (row & _ & -> & Hn).
    split; [done|]. split; by eexists.
  - unfold parseCSV. etrans; [apply List.filter_length_le|]. by rewrite length_map.
  - apply parseCSV_app.
Qed.

(** X17: a contact parsed from a row without a usable phone column
    carries the empty string as its phone number and is refused by the
    SMS and call channels like a contact without one, so no request is
    made for it; when the row has a non-empty [phone] cell, that cell is
    the number the SMS is sent to. *)
Theorem parsed_contact_without_phone_is_refused env settings tmpl i
    (row : gmap string string) :
  Forall (λ k, truthy (row !! k) = None) ["phone"; "Phone"; "PHONE"; "mobile"; "Mobile"] →
  phone (contactOfRow row) = Some ""
  ∧ attempt env settings tmpl i (contactOfRow row) sms
    = Throw "Phone number required for SMS"
  ∧ attempt env settings tmpl i (contactOfRow row) call
    = Throw "Phone number required for call"
  ∧ ∀ row' : gmap string string, ∀ v,
      truthy (row' !! "phone") = Some v →
      attempt env settings tmpl i (contactOfRow row') sms
      = sendSMS env i (body tmpl) v.
Proof.
  intros Hnone.
  assert (phone (contactOfRow row) = Some "") as Hp.
  { unfold contactOfRow. cbn [phone]. f_equal.
    change [row !! "phone"; row !! "Phone"; row !! "PHONE"; row !! "mobile";
            row !! "Mobile"]
      with ((λ k, row !! k) <$> ["phone"; "Phone"; "PHONE"; "mobile"; "Mobile"]).
    apply firstTruthy_empty. by apply Forall_fmap. }
  split; [done|]. unfold attempt. rewrite Hp. simpl.
  split; [done|]. split; [done|].
  intros row' v Hv. unfold contactOfRow. cbn [phone firstTruthy]. rewrite Hv.
  destruct v; [by apply truthy_not_empty in Hv|done].
Qed.

Lemma parsed_contact_without_phone_is_refused_witness :
  phone (contactOfRow {["Name" := "Eve"; "email" := "eve@example.org"]}) = Some ""
  ∧ attempt quietEnv None hello 0
      (contactOfRow {["Name" := "Eve"; "email" := "eve@example.org"]}) sms
    = Throw "Phone number required for SMS"
  ∧ attempt quietEnv None hello 0
      (contactOfRow {["Name" := "Eve"; "email" := "eve@example.org"]}) call
    = Throw "Phone number required for call"
  ∧ ∀ row' : gmap string string, ∀ v,
      truthy (row' !! "phone") = Some v →
      attempt quietEnv None hello 0 (contactOfRow row') sms
      = sendSMS quietEnv 0 (body hello) v.
Proof.
  apply (parsed_contact_without_phone_is_refused quietEnv None hello 0
           {["Name" := "Eve"; "email" := "eve@example.org"]}).
  repeat constructor.
Defined.

(** * The gateway client's retry *)

Section retry_properties.
Import LeadGenerator.

(** X18: [retryRequest] invokes the request at least once and at most
    [retries + 1] times; its answer is what the last invocation settled
    to; every invocation before the last was rejected with a status of
    500 or more; and it gives up on such a rejection only when all
    [retries + 1] invocations are used up. *)
Theorem retryRequest_bounded requestFn retries made :
  made < (retryRequest requestFn retries made).2
  ∧ (retryRequest requestFn retries made).2 ≤ made + retries + 1
  ∧ (retryRequest requestFn retries made).1
    = requestFn ((retryRequest requestFn retries made).2 - 1)
  ∧ (∀ j, made ≤ j → S j < (retryRequest requestFn retries made).2 →
       ∃ e, requestFn j = Rejected e ∧ serverSide e = true)
  ∧ (∀ e, (retryRequest requestFn retries made).1 = Rejected e →
       serverSide e = true →
       (retryRequest requestFn retries made).2 = made + retries + 1).
Proof.
  revert made. induction retries as [|fewer IH]; intros made; simpl.
  - destruct (requestFn made) as [r|e] eqn:Hreq; simpl;
      rewrite Nat.sub_0_r, Hreq; repeat split; try lia; try done.
  - destruct (requestFn made) as [r|e] eqn:Hreq; simpl.
    { rewrite Nat.sub_0_r, Hreq. repeat split; try lia; try done. }
    destruct (serverSide e) eqn:Hss; simpl.
    2:{ rewrite Nat.sub_0_r, Hreq. repeat split; try lia; try done.
        intros e' He'. simplify_eq. congruence. }
    destruct (IH (S made)) as (H1 & H2 & H3 & H4 & H5).
    split; [lia|]. split; [lia|]. split; [done|]. split.
    + intros j Hj Hlt. destruct (decide (j = made)) as [->|Hne]; [by eauto|].
      apply H4; [lia|done].
    + intros e' He' Hs'. rewrite (H5 e' He' Hs'). lia.
Qed.

(** X19: [retryRequest] resolves with the first success: when the
    [k]-th invocation is the first one not rejected with a status of 500
    or more and [k] is within the retries, that invocation's outcome is
    the answer and exactly [k + 1] invocations are made; in particular a
    rejection without a status or with one below 500 is never
    retried. *)
Theorem retryRequest_stops_at_first_final requestFn retries made k :
  k ≤ retries →
  (∀ j, j < k → ∃ e, requestFn (made + j) = Rejected e ∧ serverSide e = true) →
  (∀ e, requestFn (made + k) = Rejected e → serverSide e = false) →
  retryRequest requestFn retries made = (requestFn (made + k), made + k + 1).
Proof.
  revert retries made. induction k as [|k IH]; intros retries made Hk Hbefore Hfinal.
  - rewrite Nat.add_0_r in *. destruct retries; simpl.
    + destruct (requestFn made); f_equal; lia.
    + destruct (requestFn made) as [r|e] eqn:Hreq; [f_equal; lia|].
      rewrite (Hfinal e eq_refl). f_equal; lia.
  - destruct retries as [|fewer]; [lia|]. simpl.
    destruct (Hbefore 0) as (e & He & Hs); [lia|].
    rewrite Nat.add_0_r in He. rewrite He, Hs.
    rewrite (IH fewer (S made)).
    + f_equal; [f_equal|]; lia.
    + lia.
    + intros j Hj. destruct (Hbefore (S j)) as (e' & He' & Hs'); [lia|].
      exists e'. split; [|done]. rewrite <- He'. f_equal. lia.
    + intros e' He'. apply Hfinal. rewrite <- He'. f_equal. lia.
Qed.

Lemma retryRequest_stops_at_first_final_witness :
  retryRequest flaky MAX_RETRIES 0 = (flaky (0 + 2), 0 + 2 + 1).
Proof.
  apply (retryRequest_stops_at_first_final flaky MAX_RETRIES 0 2).
  - unfold MAX_RETRIES. lia.
  - intros j Hj. destruct j as [|[|j]]; [by eexists..|lia].
  - intros e He. discriminate He.
Defined.

(** X20: [sendSMS] and [sendEmail] post at most [MAX_RETRIES + 1 = 4]
    times; what they return is the data of the response their last post
    resolved with, and what they throw is "Failed to send SMS: " (or
    "Failed to send email: ") followed by the server's message when
    there is one and by the transport's message otherwise, taken from
    the rejection of their last post. *)
Theorem senders_retry_and_report post baseUrl body number subject receiverEmail isHtml :
  ((sendSMS post baseUrl body number).2 ≤ 4
   ∧ (∀ d, (sendSMS post baseUrl body number).1 = Ok d →
        ∃ r, post ((sendSMS post baseUrl body number).2 - 1) (baseUrl +:+ "/sms/send")
               [("body", JString body); ("number", JString number)] = Resolved r
             ∧ d = httpData r)
   ∧ (∀ msg, (sendSMS post baseUrl body number).1 = Throw msg →
        ∃ e, post ((sendSMS post baseUrl body number).2 - 1) (baseUrl +:+ "/sms/send")
               [("body", JString body); ("number", JString number)] = Rejected e
             ∧ msg = "Failed to send SMS: " +:+ reasonOf e))
  ∧ ((sendEmail post baseUrl subject body receiverEmail isHtml).2 ≤ 4
     ∧ (∀ d, (sendEmail post baseUrl subject body receiverEmail isHtml).1 = Ok d →
          ∃ r, post ((sendEmail post baseUrl subject body receiverEmail isHtml).2 - 1)
                 (baseUrl +:+ "/email/send")
                 [("subject", JString subject); ("body", JString body);
                  ("receiver_email", JString receiverEmail);
                  ("is_html", JBool isHtml)] = Resolved r
               ∧ d = httpData r)
     ∧ (∀ msg, (sendEmail post baseUrl subject body receiverEmail isHtml).1 = Throw msg →
          ∃ e, post ((sendEmail post baseUrl subject body receiverEmail isHtml).2 - 1)
                 (baseUrl +:+ "/email/send")
                 [("subject", JString subject); ("body", JString body);
                  ("receiver_email", JString receiverEmail);
                  ("is_html", JBool isHtml)] = Rejected e
               ∧ msg = "Failed to send email: " +:+ reasonOf e)).
Proof.
  split.
  - unfold sendSMS.
    set (f := λ k, post k (baseUrl +:+ "/sms/send")
                     [("body", JString body); ("number", JString number)]).
    destruct (retryRequest_bounded f MAX_RETRIES 0) as (_ & Hle & Hlast & _).
    destruct (retryRequest f MAX_RETRIES 0) as [[r|e] n]; simpl in *;
      (split; [unfold MAX_RETRIES in Hle; lia|]); split; intros x Hx;
      simplify_eq; by eexists.
  - unfold sendEmail.
    set (f := λ k, post k (baseUrl +:+ "/email/send")
                     [("subject", JString subject); ("body", JString body);
                      ("receiver_email", JString receiverEmail);
                      ("is_html", JBool isHtml)]).
    destruct (retryRequest_bounded f MAX_RETRIES 0) as (_ & Hle & Hlast & _).
    destruct (retryRequest f MAX_RETRIES 0) as [[r|e] n]; simpl in *;
      (split; [unfold MAX_RETRIES in Hle; lia|]); split; intros x Hx;
      simplify_eq; by eexists.
Qed.

End retry_properties.

(** * The in-memory cache *)

Section cache_properties.
Context {V : Type}.
Implicit Types (m : gmap string (Cache.Item V)) (v : V) (now ttl : Z).

Lemma cache_get_lookup now key m k :
  (Cache.get now key m).2 !! k
  = match m !! k with
    | Some item =>
        if bool_decide (k = key) && (Cache.expiry item <? now)%Z then None
        else Some item
    | None => None
    end.
Proof.
  unfold Cache.get. destruct (decide (k = key)) as [->|Hk].
  - rewrite bool_decide_eq_true_2 by done.
    destruct (m !! key) as [item|] eqn:Hm; simpl.
    + destruct (Cache.expiry item <? now)%Z; simpl;
        [by rewrite lookup_delete_eq|by rewrite Hm].
    + by rewrite Hm.
  - rewrite bool_decide_eq_false_2 by done.
    destruct (m !! key) as [item|]; simpl.
    + destruct (Cache.expiry item <? now)%Z; simpl;
        [rewrite lookup_delete_ne by done|]; by destruct (m !! k).
    + by destruct (m !! k).
Qed.

Lemma cache_get_value now key m :
  (Cache.get now key m).1
  = match m !! key with
    | Some item =>
        if (Cache.expiry item <? now)%Z then None else Some (Cache.value item)
    | None => None
    end.
Proof.
  unfold Cache.get. destruct (m !! key) as [item|]; [|done].
  by destruct (Cache.expiry item <? now)%Z.
Qed.

Lemma cache_get_set_live now now' key v ttl m :
  (now' ≤ now + ttl * 1000)%Z →
  Cache.get now' key (Cache.set now key v ttl m)
  = (Some v, Cache.set now key v ttl m).
Proof.
  intros Hle. unfold Cache.get, Cache.set. rewrite lookup_insert_eq. simpl.
  by rewrite (proj2 (Z.ltb_ge _ _)) by lia.
Qed.

(** X21: an entry stored at [now] for [ttl] seconds is read back up to
    and including the instant [now + ttl * 1000], whatever the key held
    before; a read after that instant answers null and deletes the entry;
    and storing under one key changes no read of another key. *)
Theorem cache_entry_lives_through_its_expiry now now' key v ttl m :
  ((now' ≤ now + ttl * 1000)%Z →
     Cache.get now' key (Cache.set now key v ttl m)
     = (Some v, Cache.set now key v ttl m))
  ∧ ((now + ttl * 1000 < now')%Z →
     Cache.get now' key (Cache.set now key v ttl m) = (None, delete key m))
  ∧ (∀ k, k ≠ key →
     (Cache.get now' k (Cache.set now key v ttl m)).1 = (Cache.get now' k m).1).
Proof.
  split; [|split].
  - apply cache_get_set_live.
  - intros Hlt. unfold Cache.get, Cache.set. rewrite lookup_insert_eq. simpl.
    rewrite (proj2 (Z.ltb_lt _ _)) by lia. by rewrite delete_insert_eq.
  - intros k Hk. rewrite !cache_get_value. unfold Cache.set.
    by rewrite lookup_insert_ne.
Qed.

(** X22: the periodic [cleanup] cannot be observed through [get]: a read
    at the time of the sweep or later answers the same with and without
    the sweep; and the lazy eviction of a read removes nothing the sweep
    at the same instant would have kept. *)
Theorem cache_cleanup_is_unobservable now now' key m :
  (now ≤ now')%Z →
  (Cache.get now' key (Cache.cleanup now m)).1 = (Cache.get now' key m).1
  ∧ Cache.cleanup now' (Cache.get now' key m).2 = Cache.cleanup now' m.
Proof.
  intros Hle. split.
  - rewrite !cache_get_value. unfold Cache.cleanup.
    destruct (m !! key) as [item|] eqn:Hm.
    + destruct (decide (Cache.expiry item < now)%Z) as [Hold|Hnew].
      * rewrite (map_lookup_filter_None_2 _ m key).
        -- by rewrite (proj2 (Z.ltb_lt _ _)) by lia.
        -- right. intros x Hx. simplify_eq. simpl. tauto.
      * by rewrite (map_lookup_filter_Some_2 _ m key item) by done.
    + by rewrite (map_lookup_filter_None_2 _ m key) by (by left).
  - unfold Cache.cleanup. apply map_eq. intros k.
    apply option_eq. intros item.
    rewrite !map_lookup_filter_Some, cache_get_lookup. simpl.
    destruct (m !! k) as [item'|]; [|naive_solver].
    destruct (bool_decide (k = key)); simpl; [|naive_solver].
    destruct (Z.ltb_spec (Cache.expiry item') now');
      split; intros [Heq Hn]; simplify_eq; simpl in *; done.
Qed.

(** X23: [withCache] after a miss.  When the key is absent or expired and
    the fetch resolves with [v], the call returns [v] and stores it.  A
    second call on that key no later than [now2 + ttl * 1000] then
    depends on the truthiness of [v]: a truthy [v] is returned from the
    cache and the map is left as it is, whatever the second fetch would
    give; a falsy [v] (0, the empty string, null, false) is never served,
    and the second call settles as its own fetch does. *)
Theorem withCache_serves_only_truthy_values
    truthyV now1 now2 now3 now4 key ttl ttl' v fetched' m :
  (Cache.get now1 key m).1 = None →
  (now3 ≤ now2 + ttl * 1000)%Z →
  let first := Cache.withCache truthyV now1 now2 key ttl (Ok v) m in
  let second := Cache.withCache truthyV now3 now4 key ttl' fetched' first.2 in
  first.1 = Ok v
  ∧ first.2 = Cache.set now2 key v ttl (delete key m)
  ∧ (truthyV v = true → second = (Ok v, first.2))
  ∧ (truthyV v = false →
     second.1 = fetched'
     ∧ ∀ r, fetched' = Ok r → second.2 = Cache.set now4 key r ttl' first.2).
Proof.
  intros Hmiss Hle first second.
  assert (first = (Ok v, Cache.set now2 key v ttl (delete key m))) as Hfirst.
  { subst first. unfold Cache.withCache.
    rewrite cache_get_value in Hmiss. unfold Cache.get.
    destruct (m !! key) as [item|] eqn:Hm.
    - destruct (Cache.expiry item <? now1)%Z; [done|discriminate Hmiss].
    - by rewrite delete_id. }
  subst second. rewrite Hfirst. simpl.
  unfold Cache.withCache. rewrite (cache_get_set_live _ _ _ _ _ _ Hle).
  split; [done|]. split; [done|]. split.
  - by intros ->.
  - intros ->. split; [by destruct fetched'|]. by intros r ->.
Qed.

(** X24: [withCache] when the fetch rejects stores nothing: the map is
    exactly what the lookup left.  After a miss the caller gets the
    rejection with its message and the key stays absent; a falsy cached
    value lets the rejection through as well; a truthy unexpired value is
    returned instead of the rejection. *)
Theorem withCache_rejection_stores_nothing truthyV now1 now2 key ttl msg m :
  let out := Cache.withCache truthyV now1 now2 key ttl (Throw msg) m in
  out.2 = (Cache.get now1 key m).2
  ∧ match (Cache.get now1 key m).1 with
    | Some v => if truthyV v then out.1 = Ok v else out.1 = Throw msg
    | None => out.1 = Throw msg ∧ out.2 !! key = None
    end.
Proof.
  intros out. subst out. unfold Cache.withCache.
  pose proof (cache_get_lookup now1 key m key) as Hlook.
  pose proof (cache_get_value now1 key m) as Hval.
  destruct (Cache.get now1 key m) as [[v|] m1]; simpl in *.
  - by destruct (truthyV v).
  - repeat split. rewrite Hlook. rewrite bool_decide_eq_true_2 by done.
    destruct (m !! key) as [item|]; [|done]. simpl.
    by destruct (Cache.expiry item <? now1)%Z.
Qed.

End cache_properties.

Lemma cache_cleanup_is_unobservable_witness :
  (Cache.get 2000 "quote"
     (Cache.cleanup 1500 (Cache.set 0 "quote" "A" 1 (Cache.set 0 "rate" "B" 5 ∅)))).1
  = (Cache.get 2000 "quote"
       (Cache.set 0 "quote" "A" 1 (Cache.set 0 "rate" "B" 5 ∅))).1
  ∧ Cache.cleanup 2000
      (Cache.get 2000 "quote"
         (Cache.set 0 "quote" "A" 1 (Cache.set 0 "rate" "B" 5 ∅))).2
    = Cache.cleanup 2000 (Cache.set 0 "quote" "A" 1 (Cache.set 0 "rate" "B" 5 ∅)).
Proof.
  apply (cache_cleanup_is_unobservable (V := string) 1500 2000 "quote"). lia.
Defined.

Lemma withCache_serves_only_truthy_values_witness :
  let truthyV := λ s : string, negb (bool_decide (s = "")) in
  let first := Cache.withCache truthyV 0 10 "quote" 60 (Ok "A") ∅ in
  let second := Cache.withCache truthyV 50000 50020 "quote" 60 (Throw "down") first.2 in
  first.1 = Ok "A"
  ∧ first.2 = Cache.set 10 "quote" "A" 60 (delete "quote" ∅)
  ∧ (truthyV "A" = true → second = (Ok "A", first.2))
  ∧ (truthyV "A" = false →
     second.1 = Throw "down"
     ∧ ∀ r, Throw "down" = Ok r → second.2 = Cache.set 50020 "quote" r 60 first.2).
Proof.
  apply (withCache_serves_only_truthy_values
           (λ s : string, negb (bool_decide (s = "")))
           0 10 50000 50020 "quote" 60 60 "A" (Throw "down") ∅).
  - reflexivity.
  - lia.
Defined.

Lemma cache_entry_lives_through_its_expiry_witness :
  Cache.get 1000 "quote" (Cache.set 0 "quote" "A" 1 ∅)
  = (Some "A", Cache.set 0 "quote" "A" 1 ∅)
  ∧ Cache.get 1001 "quote" (Cache.set 0 "quote" "A" 1 ∅)
    = (None, delete "quote" (∅ : gmap string (Cache.Item string))).
Proof.
  split.
  - apply (cache_entry_lives_through_its_expiry (V := string) 0 1000 "quote" "A" 1 ∅).
    lia.
  - apply (cache_entry_lives_through_its_expiry (V := string) 0 1001 "quote" "A" 1 ∅).
    lia.
Defined.

Lemma retryRequest_bounded_witness :
  (LeadGenerator.retryRequest flaky LeadGenerator.MAX_RETRIES 0).2 = 3
  ∧ ∃ e, flaky 1 = LeadGenerator.Rejected e ∧ LeadGenerator.serverSide e = true.
Proof.
  split; [reflexivity|].
  apply (retryRequest_bounded flaky LeadGenerator.MAX_RETRIES 0);
    [lia|vm_compute; lia].
Defined.

Lemma senders_retry_and_report_witness :
  ∃ r, flaky ((LeadGenerator.sendSMS (λ k _ _, flaky k) "https://gateway" "Hello" "+15550100").2 - 1)
       = LeadGenerator.Resolved r
       ∧ "{}" = LeadGenerator.httpData r.
Proof.
  apply (senders_retry_and_report (λ k _ _, flaky k)
           "https://gateway" "Hello" "+15550100" "" "" false).
  reflexivity.
Defined.
